(** * GQL-Registry: the declaration registry and its plugin pipeline

    A shallow embedding of [src/GQLRegistry.ts] and [src/GQLRegistryPlugin.ts].

    - GraphQL AST nodes are records carrying the [kind] string, the
      [name.value] string and the optional [fields] array the registry reads;
      everything else of a node is kept in [body].
    - JavaScript objects used as maps are association lists in insertion
      order, which is the order [Object.keys] reports for non-index keys.
    - The registry is a record with the class's fields; a method is a function
      on it, or a computation in the monad [M] when it calls back into
      plugins, warns on the console or can reject.
    - A plugin hook is foreign code: it is what it answers or throws, as a
      function of the arguments the registry passes it. While it runs it does
      not call back into the registry; what is said below of the registry
      after hooks have run is said of such hooks. A setup callback is handed
      the registry, and is the registration calls it makes and how it ends.
    - The external collaborators ([makeExecutableSchema], [wrapSchema],
      [stitchSchemas]) are free constructors of the artifact type: the
      registry only hands them arguments and passes their results on. A
      collaborator that throws makes the build reject where it is called;
      what is said below of the artifact a build returns is said of builds
      that return. *)

From Stdlib Require Import List String Bool Arith Lia Permutation.
From coqutil Require Import Datatypes.RecordSetters.
Import ListNotations.
Import TriangleBracketNotations.
Open Scope string_scope.
Open Scope list_scope.

Set Implicit Arguments.
Set Warnings "-register-all".

(** ** JavaScript values *)

(** [{ [k: string]: V }]: keys in insertion order. *)
Definition Obj (V : Type) : Type := list (string * V).

Section Objects.
Context {V : Type}.

(** [o[k]] *)
Fixpoint obj_get (o : Obj V) (k : string) : option V :=
  match o with
  | [] => None
  | (k', v) :: o' => if k' =? k then Some v else obj_get o' k
  end.

(** [o[k] = v]: an existing key keeps its position. *)
Fixpoint obj_set (o : Obj V) (k : string) (v : V) : Obj V :=
  match o with
  | [] => [(k, v)]
  | (k', v') :: o' => if k' =? k then (k', v) :: o' else (k', v') :: obj_set o' k v
  end.

(** [Object.keys(o)] *)
Definition keys (o : Obj V) : list string := map fst o.

(** [Object.keys(source).forEach((k) => { target[k] = source[k] })] *)
Definition obj_assign (target source : Obj V) : Obj V :=
  fold_left (fun t kv => obj_set t (fst kv) (snd kv)) source target.

(** [{ ...a, ...b }] *)
Definition spread (a b : Obj V) : Obj V := obj_assign (obj_assign [] a) b.
End Objects.

(** The members every plain object inherits from [Object.prototype]. *)
Definition objectPrototype : list string := [
  "constructor";
  "__defineGetter__";
  "__defineSetter__";
  "hasOwnProperty";
  "__lookupGetter__";
  "__lookupSetter__";
  "isPrototypeOf";
  "propertyIsEnumerable";
  "toString";
  "valueOf";
  "__proto__";
  "toLocaleString"
].

Definition inherited (k : string) : bool := existsb (String.eqb k) objectPrototype.

(** What [o[k]] evaluates to when the name [k] comes from outside: the
    object's own member, else the member of that name inherited from
    [Object.prototype] (a function, or the prototype itself: truthy), else
    [undefined]. *)
Inductive Member (V : Type) : Type :=
| own (v : V)
| fromPrototype (k : string).
Arguments own {V} v.
Arguments fromPrototype {V} k.

Definition member {V : Type} (o : Obj V) (k : string) : option (Member V) :=
  match obj_get o k with
  | Some v => Some (own v)
  | None => if inherited k then Some (fromPrototype k) else None
  end.

(** Resolver values are [any]: a function, or an object of further values. *)
Inductive Value : Type :=
| Fn (id : string)
| Object (members : list (string * Value)).

(** [Array.prototype.findIndex]; [None] is the source's [-1]. *)
Fixpoint findIndex {A : Type} (p : A -> bool) (l : list A) : option nat :=
  match l with
  | [] => None
  | x :: l' => if p x then Some 0 else option_map S (findIndex p l')
  end.

(** [Array.prototype.find] *)
Fixpoint find_ {A : Type} (p : A -> bool) (l : list A) : option A :=
  match l with
  | [] => None
  | x :: l' => if p x then Some x else find_ p l'
  end.

(** [l.splice(start, deleteCount)], the array that is left. *)
Definition splice {A : Type} (start deleteCount : nat) (l : list A) : list A :=
  firstn start l ++ skipn (start + deleteCount) l.

(** [l.push(x)] *)
Definition push {A : Type} (l : list A) (x : A) : list A := l ++ [x].

(** [l.includes(s)] on strings *)
Definition includes (l : list string) (s : string) : bool :=
  existsb (String.eqb s) l.

(** ** GraphQL documents *)

Module Kind.
Definition DOCUMENT := "Document".
Definition NAME := "Name".
Definition OBJECT_TYPE_DEFINITION := "ObjectTypeDefinition".
Definition FIELD_DEFINITION := "FieldDefinition".
Definition DIRECTIVE_DEFINITION := "DirectiveDefinition".
Definition OBJECT_TYPE_EXTENSION := "ObjectTypeExtension".
End Kind.

(** [DefinitionNode], [TypeDefinitionNode], [TypeExtensionNode],
    [DirectiveDefinitionNode] and [FieldDefinitionNode]: the source casts
    freely between them and tells them apart by [kind] at run time. *)
Inductive Node : Type := mkNode {
  kind : string;
  name_value : string;
  fields : option (list Node);
  body : string
}.

Record DocumentNode : Type := mkDocument {
  definitions : list Node
}.

Definition typeDefinitionTypes : list string := [
  "ScalarTypeDefinition";
  "ObjectTypeDefinition";
  "InterfaceTypeDefinition";
  "UnionTypeDefinition";
  "EnumTypeDefinition";
  "InputObjectTypeDefinition"
].

Definition isTypeDefinitionNode (definition : Node) : bool :=
  includes typeDefinitionTypes (kind definition).

Definition typeExtensionTypes : list string := [
  "ScalarTypeExtension";
  "ObjectTypeExtension";
  "InterfaceTypeExtension";
  "UnionTypeExtension";
  "EnumTypeExtension";
  "InputObjectTypeExtension"
].

Definition isTypeExtensionNode (definition : Node) : bool :=
  includes typeExtensionTypes (kind definition).

(** ** Artifacts of the external collaborators *)

Definition AsyncExecutor : Type := string.
Definition RESTDataSource : Type := string.

Inductive Transform : Type :=
| RenameTypes
| RenameRootTypes
| RenameRootFields
| RenameObjectFields
| RenameInterfaceFields
| RenameInputObjectFields
| UserTransform (id : string).

Inductive GraphQLSchema : Type :=
| ForeignSchema (id : string)
| makeExecutableSchema (typeDefs : DocumentNode) (resolvers : option (Obj Value))
| wrapSchema (schema : GraphQLSchema) (executor : AsyncExecutor) (transforms : list Transform)
| stitchSchemas (subschemas : list GraphQLSchema) (typeDefs : DocumentNode)
    (resolvers : option (Obj Value))
| mapSchema (mapper : string) (schema : GraphQLSchema).

(** [(schema: GraphQLSchema) => GraphQLSchema] *)
Definition DirectiveResolver : Type := GraphQLSchema -> GraphQLSchema.

(** What a call into foreign code does: it returns, or it throws (a rejected
    promise is the same thing to the awaiting caller). *)
Inductive Outcome (A : Type) : Type :=
| Returns (a : A)
| Throws (error : string).
Arguments Throws {A} error.

(** ** Argument records of the registration surface *)

Module RegisterDirectiveArgs.
Record t : Type := mk {
  directiveDefinition : option DocumentNode;
  directiveResolvers : option (Obj DirectiveResolver)
}.
End RegisterDirectiveArgs.

Module RegisterTypeArgs.
Record t : Type := mk {
  typeDefinitions : option DocumentNode;
  queryDefinitions : option DocumentNode;
  mutationDefinitions : option DocumentNode;
  subscriptionDefinitions : option DocumentNode;
  typeResolvers : option (Obj Value);
  queryResolvers : option (Obj Value);
  mutationResolvers : option (Obj Value);
  subscriptionResolvers : option (Obj Value)
}.
End RegisterTypeArgs.

Module RegisterTypeExtensionArgs.
Record t : Type := mk {
  extensionTypeDefinitions : option DocumentNode;
  extensionQueryDefinitions : option DocumentNode;
  extensionMutationDefinitions : option DocumentNode;
  extensionSubscriptionDefinitions : option DocumentNode;
  extensionTypeResolvers : option (Obj Value);
  extensionQueryResolvers : option (Obj Value);
  extensionMutationResolvers : option (Obj Value);
  extensionSubscriptionResolvers : option (Obj Value)
}.
End RegisterTypeExtensionArgs.

Module RegisterRemoteSchemaArgs.
Record t : Type := mk {
  name : string;
  (** the supplier's promise: resolved (maybe to nothing) or rejected *)
  asyncSchema : option (Outcome (option GraphQLSchema));
  schema : option GraphQLSchema;
  executor : AsyncExecutor;
  executable : option GraphQLSchema;
  transforms : option (list Transform)
}.
End RegisterRemoteSchemaArgs.

(** ** Plugins *)

(** A hook is optional ([?.]), may throw, and a contributing hook may answer
    [null]. Hooks are functions of the arguments the registry passes them.
    The registry awaits every hook but [schemaUpdated] (and [clear], which is
    synchronous): for an awaited hook a rejected promise is a throw; for
    [schemaUpdated] the outcome is that of the call itself, and a listener
    that hands back a promise has returned, whatever becomes of the promise. *)
Definition Notify : Type := option (DocumentNode -> DocumentNode -> Outcome unit).
Definition Global (X : Type) : Type :=
  option (DocumentNode -> DocumentNode -> Outcome (option X)).
Definition PerDefinition (X : Type) : Type :=
  option (Node -> DocumentNode -> DocumentNode -> Outcome (option X)).

Module Plugin.
Record t : Type := mk {
  (** object identity of the plugin instance *)
  self : nat;
  name : string;
  (** the back-reference: the identity of the registry it was added to *)
  registry : option nat;

  clear : option (Outcome unit);

  setInitialSchema : Notify;
  schemaUpdated : Notify;
  setFinalSchema : Notify;

  validateSchema : Notify;

  addPrePropertiesToTypeDefinition : PerDefinition Node;
  addPostPropertiesToTypeDefinition : PerDefinition Node;

  addDirectiveDefinitions : Global (list Node);
  addDirectiveResolvers : Global (Obj DirectiveResolver);

  addTypeDefinitions : Global (list Node);
  addQueryDefinitions : Global (list Node);
  addMutationDefinitions : Global (list Node);
  addSubscriptionDefinitions : Global (list Node);

  addTypeResolvers : Global (Obj Value);
  addQueryResolvers : Global (Obj Value);
  addMutationResolvers : Global (Obj Value);
  addSubscriptionResolvers : Global (Obj Value);

  addTypeDefinitionsForTypeDefinition : PerDefinition (list Node);
  addQueryDefinitionsForTypeDefinition : PerDefinition (list Node);
  addMutationDefinitionsForTypeDefinition : PerDefinition (list Node);
  addSubscriptionDefinitionsForTypeDefinition : PerDefinition (list Node);

  addTypeResolversForTypeDefinition : PerDefinition (Obj Value);
  addQueryResolversForTypeDefinition : PerDefinition (Obj Value);
  addMutationResolversForTypeDefinition : PerDefinition (Obj Value);
  addSubscriptionResolversForTypeDefinition : PerDefinition (Obj Value);

  addTypeDefinitionExtensionsForTypeDefinition : PerDefinition (list Node);
  addQueryDefinitionExtensionsForTypeDefinition : PerDefinition (list Node);
  addMutationDefinitionExtensionsForTypeDefinition : PerDefinition (list Node);
  addSubscriptionDefinitionExtensionsForTypeDefinition : PerDefinition (list Node);

  addTypeResolverExtensionsForTypeDefinition : PerDefinition (Obj Value);
  addQueryResolverExtensionsForTypeDefinition : PerDefinition (Obj Value);
  addMutationResolverExtensionsForTypeDefinition : PerDefinition (Obj Value);
  addSubscriptionResolverExtensionsForTypeDefinition : PerDefinition (Obj Value)
}.
End Plugin.

(** The hooks, as names for the call log. *)
Module Hook.
Inductive t : Type :=
| clear
| setInitialSchema | schemaUpdated | setFinalSchema
| validateSchema
| addPrePropertiesToTypeDefinition | addPostPropertiesToTypeDefinition
| addDirectiveDefinitions | addDirectiveResolvers
| addTypeDefinitions | addQueryDefinitions
| addMutationDefinitions | addSubscriptionDefinitions
| addTypeResolvers | addQueryResolvers
| addMutationResolvers | addSubscriptionResolvers
| addTypeDefinitionsForTypeDefinition | addQueryDefinitionsForTypeDefinition
| addMutationDefinitionsForTypeDefinition | addSubscriptionDefinitionsForTypeDefinition
| addTypeResolversForTypeDefinition | addQueryResolversForTypeDefinition
| addMutationResolversForTypeDefinition | addSubscriptionResolversForTypeDefinition
| addTypeDefinitionExtensionsForTypeDefinition
| addQueryDefinitionExtensionsForTypeDefinition
| addMutationDefinitionExtensionsForTypeDefinition
| addSubscriptionDefinitionExtensionsForTypeDefinition
| addTypeResolverExtensionsForTypeDefinition
| addQueryResolverExtensionsForTypeDefinition
| addMutationResolverExtensionsForTypeDefinition
| addSubscriptionResolverExtensionsForTypeDefinition.

Definition eqb (a b : t) : bool :=
  match a, b with
  | clear, clear
  | setInitialSchema, setInitialSchema
  | schemaUpdated, schemaUpdated
  | setFinalSchema, setFinalSchema
  | validateSchema, validateSchema
  | addPrePropertiesToTypeDefinition, addPrePropertiesToTypeDefinition
  | addPostPropertiesToTypeDefinition, addPostPropertiesToTypeDefinition
  | addDirectiveDefinitions, addDirectiveDefinitions
  | addDirectiveResolvers, addDirectiveResolvers
  | addTypeDefinitions, addTypeDefinitions
  | addQueryDefinitions, addQueryDefinitions
  | addMutationDefinitions, addMutationDefinitions
  | addSubscriptionDefinitions, addSubscriptionDefinitions
  | addTypeResolvers, addTypeResolvers
  | addQueryResolvers, addQueryResolvers
  | addMutationResolvers, addMutationResolvers
  | addSubscriptionResolvers, addSubscriptionResolvers
  | addTypeDefinitionsForTypeDefinition, addTypeDefinitionsForTypeDefinition
  | addQueryDefinitionsForTypeDefinition, addQueryDefinitionsForTypeDefinition
  | addMutationDefinitionsForTypeDefinition, addMutationDefinitionsForTypeDefinition
  | addSubscriptionDefinitionsForTypeDefinition,
    addSubscriptionDefinitionsForTypeDefinition
  | addTypeResolversForTypeDefinition, addTypeResolversForTypeDefinition
  | addQueryResolversForTypeDefinition, addQueryResolversForTypeDefinition
  | addMutationResolversForTypeDefinition, addMutationResolversForTypeDefinition
  | addSubscriptionResolversForTypeDefinition, addSubscriptionResolversForTypeDefinition
  | addTypeDefinitionExtensionsForTypeDefinition,
    addTypeDefinitionExtensionsForTypeDefinition
  | addQueryDefinitionExtensionsForTypeDefinition,
    addQueryDefinitionExtensionsForTypeDefinition
  | addMutationDefinitionExtensionsForTypeDefinition,
    addMutationDefinitionExtensionsForTypeDefinition
  | addSubscriptionDefinitionExtensionsForTypeDefinition,
    addSubscriptionDefinitionExtensionsForTypeDefinition
  | addTypeResolverExtensionsForTypeDefinition,
    addTypeResolverExtensionsForTypeDefinition
  | addQueryResolverExtensionsForTypeDefinition,
    addQueryResolverExtensionsForTypeDefinition
  | addMutationResolverExtensionsForTypeDefinition,
    addMutationResolverExtensionsForTypeDefinition
  | addSubscriptionResolverExtensionsForTypeDefinition,
    addSubscriptionResolverExtensionsForTypeDefinition => true
  | _, _ => false
  end.
End Hook.

(** ** The registry *)

(** What a setup callback does with the registry it is handed: calls of the
    registration surface, in order. *)
Inductive Call : Type :=
| call_registerDataSource (name : string) (dataSource : RESTDataSource)
| call_registerRemoteSchema (args : RegisterRemoteSchemaArgs.t)
| call_registerDirectives (args : RegisterDirectiveArgs.t)
| call_registerType (args : RegisterTypeArgs.t)
| call_registerTypeExtension (args : RegisterTypeExtensionArgs.t)
| call_registerInternalValues (internalValues : Obj Value)
| call_registerPlugin (plugin : Plugin.t)
| call_clear.

(** [(graphQLRegistry: GQLRegistry) => Promise<void> | void] *)
Record PreStartFunction : Type := mkPreStartFunction {
  calls : list Call;
  completion : Outcome unit
}.

Record GQLRegistry : Type := mkGQLRegistry {
  (** object identity of the registry instance *)
  instance : nat;

  remoteSchemas : Obj RegisterRemoteSchemaArgs.t;

  directiveDefinitions : list Node;
  directiveResolvers : Obj DirectiveResolver;

  typeDefinitions : list Node;
  queryDefinitions : list Node;
  mutationDefinitions : list Node;
  subscriptionDefinitions : list Node;

  typeResolvers : Obj Value;
  queryResolvers : Obj Value;
  mutationResolvers : Obj Value;
  subscriptionResolvers : Obj Value;

  extensionTypeDefinitions : list Node;
  extensionQueryDefinitions : list Node;
  extensionMutationDefinitions : list Node;
  extensionSubscriptionDefinitions : list Node;

  extensionTypeResolvers : Obj Value;
  extensionQueryResolvers : Obj Value;
  extensionMutationResolvers : Obj Value;
  extensionSubscriptionResolvers : Obj Value;

  internalValues : Obj Value;
  executableSchema : option GraphQLSchema;
  dataSources : Obj RESTDataSource;
  preStartFunctions : list PreStartFunction;
  hasExecutedPreStart : bool;
  hasProcessedPlugins : bool;

  plugins : list Plugin.t
}.

(** [new GQLRegistry()] *)
Definition new_GQLRegistry (id : nat) : GQLRegistry := {|
  instance := id;
  remoteSchemas := [];
  directiveDefinitions := [];
  directiveResolvers := [];
  typeDefinitions := [];
  queryDefinitions := [];
  mutationDefinitions := [];
  subscriptionDefinitions := [];
  typeResolvers := [];
  queryResolvers := [];
  mutationResolvers := [];
  subscriptionResolvers := [];
  extensionTypeDefinitions := [];
  extensionQueryDefinitions := [];
  extensionMutationDefinitions := [];
  extensionSubscriptionDefinitions := [];
  extensionTypeResolvers := [];
  extensionQueryResolvers := [];
  extensionMutationResolvers := [];
  extensionSubscriptionResolvers := [];
  internalValues := [];
  executableSchema := None;
  dataSources := [];
  preStartFunctions := [];
  hasExecutedPreStart := false;
  hasProcessedPlugins := false;
  plugins := []
|}.

(** ** Effects: the registry as mutable state, the call log, rejection *)

Inductive Event : Type :=
| console_warn (message : string)
| hook_called (plugin : nat) (hook : Hook.t) (definition : option Node)
    (documents : option (DocumentNode * DocumentNode)).

Record World : Type := mkWorld {
  this : GQLRegistry;
  log : list Event
}.

(** A method that may call out: it ends by returning or by throwing, and
    whatever it did to the registry before it threw stays done. *)
Definition M (A : Type) : Type := World -> Outcome A * World.

Definition ret {A : Type} (a : A) : M A := fun w => (Returns a, w).

Definition throw {A : Type} (error : string) : M A := fun w => (Throws error, w).

Definition bind {A B : Type} (m : M A) (k : A -> M B) : M B :=
  fun w =>
    match m w with
    | (Returns a, w') => k a w'
    | (Throws error, w') => (Throws error, w')
    end.

Declare Scope method_scope.
Delimit Scope method_scope with method.
Bind Scope method_scope with M.
Notation "x <- m ;; k" := (bind m (fun x => k))
  (at level 61, m at next level, right associativity) : method_scope.
Notation "m ;; k" := (bind m (fun _ => k))
  (at level 61, right associativity) : method_scope.
Open Scope method_scope.

Definition getThis : M GQLRegistry := fun w => (Returns (this w), w).

Definition modify (f : GQLRegistry -> GQLRegistry) : M unit :=
  fun w => (Returns tt, w <| this := f (this w) |>).

Definition emit (e : Event) : M unit :=
  fun w => (Returns tt, w <| log := push (log w) e |>).

Definition settle {A : Type} (o : Outcome A) : M A :=
  match o with
  | Returns a => ret a
  | Throws error => throw error
  end.

(** [for (let i = 0; i < l.length; i++) { acc = body(acc, l[i]) }] *)
Fixpoint foldM {A B : Type} (l : list A) (acc : B) (body : B -> A -> M B) : M B :=
  match l with
  | [] => ret acc
  | x :: l' => acc' <- body acc x ;; foldM l' acc' body
  end.

Definition forEach {A : Type} (l : list A) (body : A -> M unit) : M unit :=
  foldM l tt (fun _ x => body x).

(** [plugin.hook?.(...)]: nothing happens when the plugin has no such method;
    otherwise the call is logged and its outcome is the expression's. *)
Definition invoke {X : Type} (plugin : Plugin.t) (hook : Hook.t)
    (definition : option Node) (documents : option (DocumentNode * DocumentNode))
    (method : option (Outcome X)) : M (option X) :=
  match method with
  | None => ret None
  | Some outcome =>
      emit (hook_called (Plugin.self plugin) hook definition documents) ;;
      x <- settle outcome ;;
      ret (Some x)
  end.

Definition callGlobal {X : Type} (plugin : Plugin.t) (hook : Hook.t)
    (method : option (DocumentNode -> DocumentNode -> Outcome X))
    (schema extensions : DocumentNode) : M (option X) :=
  invoke plugin hook None (Some (schema, extensions))
    (option_map (fun f => f schema extensions) method).

Definition callPerDefinition {X : Type} (plugin : Plugin.t) (hook : Hook.t)
    (method : option (Node -> DocumentNode -> DocumentNode -> Outcome X))
    (definition : Node) (schema extensions : DocumentNode) : M (option X) :=
  invoke plugin hook (Some definition) (Some (schema, extensions))
    (option_map (fun f => f definition schema extensions) method).

(** [if (x)] on the answer of an optional contributing hook: [undefined] (no
    method) and [null] are falsy, arrays and objects are truthy. *)
Definition truthy {X : Type} (answer : option (option X)) : option X :=
  match answer with
  | Some (Some x) => Some x
  | _ => None
  end.

(** ** Clearing *)

Definition clear : M unit :=
  modify (fun this =>
    this <| remoteSchemas := [] |>
         <| directiveDefinitions := [] |>
         <| directiveResolvers := [] |>
         <| typeDefinitions := [] |>
         <| queryDefinitions := [] |>
         <| mutationDefinitions := [] |>
         <| subscriptionDefinitions := [] |>
         <| typeResolvers := [] |>
         <| queryResolvers := [] |>
         <| mutationResolvers := [] |>
         <| subscriptionResolvers := [] |>
         <| extensionTypeDefinitions := [] |>
         <| extensionQueryDefinitions := [] |>
         <| extensionMutationDefinitions := [] |>
         <| extensionSubscriptionDefinitions := [] |>
         <| extensionQueryResolvers := [] |>
         <| extensionMutationResolvers := [] |>
         <| extensionTypeResolvers := [] |>
         <| extensionSubscriptionResolvers := [] |>
         <| internalValues := [] |>
         <| executableSchema := None |>
         <| dataSources := [] |>
         <| hasProcessedPlugins := false |>) ;;
  this <- getThis ;;
  forEach (plugins this) (fun plu =>
    invoke plu Hook.clear None None (Plugin.clear plu) ;; ret tt).

(** ** Registration *)

Definition sameName (a : Node) : Node -> bool :=
  fun def => name_value def =? name_value a.

Definition warnIfRegistered (what : string) (store : list Node) (new : Node) : M unit :=
  match findIndex (sameName new) store with
  | Some _ =>
      emit (console_warn
        ("WARNING: " ++ what ++ " with name " ++ name_value new ++ " already registered")%string)
  | None => ret tt
  end.

Definition checkForDuplicateDirectives (incoming : list Node) : M unit :=
  forEach incoming (fun newDirectiveDefinition =>
    if kind newDirectiveDefinition =? Kind.DIRECTIVE_DEFINITION then
      this <- getThis ;;
      warnIfRegistered "Directive" (directiveDefinitions this) newDirectiveDefinition
    else ret tt).

Definition checkForDuplicateTypes (incoming : list Node) : M unit :=
  forEach incoming (fun newTypeDefinition =>
    if isTypeDefinitionNode newTypeDefinition then
      this <- getThis ;;
      warnIfRegistered "Type" (typeDefinitions this) newTypeDefinition
    else ret tt).

Definition checkForDuplicateQueries (incoming : list Node) : M unit :=
  forEach incoming (fun newQueryDefinition =>
    if kind newQueryDefinition =? Kind.FIELD_DEFINITION then
      this <- getThis ;;
      warnIfRegistered "Query" (queryDefinitions this) newQueryDefinition
    else ret tt).

Definition checkForDuplicateMutations (incoming : list Node) : M unit :=
  forEach incoming (fun newMutationDefiniton =>
    if kind newMutationDefiniton =? Kind.FIELD_DEFINITION then
      this <- getThis ;;
      warnIfRegistered "Mutation" (mutationDefinitions this) newMutationDefiniton
    else ret tt).

Definition checkForDuplicateSubscriptions (incoming : list Node) : M unit :=
  forEach incoming (fun newSubscriptionDefiniton =>
    if kind newSubscriptionDefiniton =? Kind.FIELD_DEFINITION then
      this <- getThis ;;
      warnIfRegistered "Subscription" (subscriptionDefinitions this) newSubscriptionDefiniton
    else ret tt).

(** The body every merge loop runs on its own array:
    [exists = store.findIndex(sameName); if (exists !== -1) store.splice(exists, 1);
     store.push(new)]. *)
Definition evictAndPush (store : list Node) (new : Node) : list Node :=
  let store :=
    match findIndex (sameName new) store with
    | Some exists_ => splice exists_ 1 store
    | None => store
    end in
  push store new.

Definition mergeIncomingDirectives (incoming : list Node) (this : GQLRegistry) : GQLRegistry :=
  fold_left (fun this newDirectiveDefinition =>
    if kind newDirectiveDefinition =? Kind.DIRECTIVE_DEFINITION then
      this <| directiveDefinitions :=
                evictAndPush (directiveDefinitions this) newDirectiveDefinition |>
    else this) incoming this.

Definition mergeIncomingTypes (incoming : list Node) (this : GQLRegistry) : GQLRegistry :=
  fold_left (fun this newTypeDefinition =>
    if isTypeDefinitionNode newTypeDefinition then
      this <| typeDefinitions := evictAndPush (typeDefinitions this) newTypeDefinition |>
    else this) incoming this.

Definition mergeIncomingExtensionTypes (incoming : list Node) (this : GQLRegistry)
    : GQLRegistry :=
  fold_left (fun this newTypeDefinition =>
    if isTypeExtensionNode newTypeDefinition then
      this <| extensionTypeDefinitions :=
                evictAndPush (extensionTypeDefinitions this) newTypeDefinition |>
    else if isTypeDefinitionNode newTypeDefinition then
      this <| typeDefinitions := evictAndPush (typeDefinitions this) newTypeDefinition |>
    else this) incoming this.

Definition mergeIncomingQueries (incoming : list Node) (this : GQLRegistry) : GQLRegistry :=
  fold_left (fun this newQueryDefinition =>
    if kind newQueryDefinition =? Kind.FIELD_DEFINITION then
      this <| queryDefinitions := evictAndPush (queryDefinitions this) newQueryDefinition |>
    else this) incoming this.

Definition mergeIncomingExtensionQueries (incoming : list Node) (this : GQLRegistry)
    : GQLRegistry :=
  fold_left (fun this newExtensionQueryDefinition =>
    if kind newExtensionQueryDefinition =? Kind.FIELD_DEFINITION then
      this <| extensionQueryDefinitions :=
                evictAndPush (extensionQueryDefinitions this) newExtensionQueryDefinition |>
    else this) incoming this.

Definition mergeIncomingMutations (incoming : list Node) (this : GQLRegistry) : GQLRegistry :=
  fold_left (fun this newMutationDefiniton =>
    if kind newMutationDefiniton =? Kind.FIELD_DEFINITION then
      this <| mutationDefinitions :=
                evictAndPush (mutationDefinitions this) newMutationDefiniton |>
    else this) incoming this.

Definition mergeIncomingExtensionMutations (incoming : list Node) (this : GQLRegistry)
    : GQLRegistry :=
  fold_left (fun this newExtensionMutationDefiniton =>
    if kind newExtensionMutationDefiniton =? Kind.FIELD_DEFINITION then
      this <| extensionMutationDefinitions :=
                evictAndPush (extensionMutationDefinitions this)
                  newExtensionMutationDefiniton |>
    else this) incoming this.

Definition mergeIncomingSubscriptions (incoming : list Node) (this : GQLRegistry)
    : GQLRegistry :=
  fold_left (fun this newSubscriptionDefiniton =>
    if kind newSubscriptionDefiniton =? Kind.FIELD_DEFINITION then
      this <| subscriptionDefinitions :=
                evictAndPush (subscriptionDefinitions this) newSubscriptionDefiniton |>
    else this) incoming this.

Definition mergeIncomingExtensionSubscriptions (incoming : list Node) (this : GQLRegistry)
    : GQLRegistry :=
  fold_left (fun this newExtensionSubscriptionDefiniton =>
    if kind newExtensionSubscriptionDefiniton =? Kind.FIELD_DEFINITION then
      this <| extensionSubscriptionDefinitions :=
                evictAndPush (extensionSubscriptionDefinitions this)
                  newExtensionSubscriptionDefiniton |>
    else this) incoming this.

Definition registerDataSource (name : string) (dataSource : RESTDataSource)
    (this : GQLRegistry) : GQLRegistry :=
  this <| dataSources := obj_set (dataSources this) name dataSource |>.

Definition registerRemoteSchema (args : RegisterRemoteSchemaArgs.t) (this : GQLRegistry)
    : GQLRegistry :=
  let name := RegisterRemoteSchemaArgs.name args in
  match member (remoteSchemas this) name with
  | Some _ => this
  | None =>
      this <| remoteSchemas :=
        obj_set (remoteSchemas this) name
          (RegisterRemoteSchemaArgs.mk name
             (RegisterRemoteSchemaArgs.asyncSchema args)
             (RegisterRemoteSchemaArgs.schema args)
             (RegisterRemoteSchemaArgs.executor args)
             None
             (RegisterRemoteSchemaArgs.transforms args)) |>
  end.

Definition registerDirectives (args : RegisterDirectiveArgs.t) : M unit :=
  match RegisterDirectiveArgs.directiveDefinition args with
  | Some directiveDefinition =>
      checkForDuplicateDirectives (definitions directiveDefinition) ;;
      modify (mergeIncomingDirectives (definitions directiveDefinition))
  | None => ret tt
  end ;;
  let directiveResolvers' :=
    match RegisterDirectiveArgs.directiveResolvers args with
    | Some o => o
    | None => []
    end in
  if negb (List.length (keys directiveResolvers') =? 0)%nat then
    modify (fun this =>
      this <| directiveResolvers := obj_assign (directiveResolvers this) directiveResolvers' |>)
  else ret tt.

(** [(document?.definitions?.find((def) => def.kind === Kind.OBJECT_TYPE_DEFINITION
      && def.name.value === root) as ObjectTypeDefinitionNode)?.fields ?? []] *)
Definition rootFields (root : string) (document : option DocumentNode) : list Node :=
  match document with
  | None => []
  | Some document =>
      match find_ (fun def => (kind def =? Kind.OBJECT_TYPE_DEFINITION)
                              && (name_value def =? root)) (definitions document) with
      | Some object => match fields object with Some fields => fields | None => [] end
      | None => []
      end
  end.

(** [if (resolvers) { Object.keys(resolvers).forEach(...) }] *)
Definition assignIfGiven (resolvers : option (Obj Value)) (target : Obj Value) : Obj Value :=
  match resolvers with
  | Some resolvers => obj_assign target resolvers
  | None => target
  end.

Definition registerType (args : RegisterTypeArgs.t) : M unit :=
  match RegisterTypeArgs.typeDefinitions args with
  | Some typeDefinitions =>
      checkForDuplicateTypes (definitions typeDefinitions) ;;
      modify (mergeIncomingTypes (definitions typeDefinitions))
  | None => ret tt
  end ;;

  let queryDocumentDefinitions := rootFields "Query" (RegisterTypeArgs.queryDefinitions args) in
  checkForDuplicateQueries queryDocumentDefinitions ;;
  modify (mergeIncomingQueries queryDocumentDefinitions) ;;

  let mutationDocumentDefinitions :=
    rootFields "Mutation" (RegisterTypeArgs.mutationDefinitions args) in
  checkForDuplicateMutations mutationDocumentDefinitions ;;
  modify (mergeIncomingMutations mutationDocumentDefinitions) ;;

  let subscriptionDocumentDefinitions :=
    rootFields "Subscription" (RegisterTypeArgs.subscriptionDefinitions args) in
  checkForDuplicateSubscriptions subscriptionDocumentDefinitions ;;
  modify (mergeIncomingSubscriptions subscriptionDocumentDefinitions) ;;

  modify (fun this =>
    this <| typeResolvers := assignIfGiven (RegisterTypeArgs.typeResolvers args)
                               (typeResolvers this) |>) ;;
  modify (fun this =>
    this <| queryResolvers := assignIfGiven (RegisterTypeArgs.queryResolvers args)
                                (queryResolvers this) |>) ;;
  modify (fun this =>
    this <| mutationResolvers := assignIfGiven (RegisterTypeArgs.mutationResolvers args)
                                   (mutationResolvers this) |>) ;;
  modify (fun this =>
    this <| subscriptionResolvers :=
              assignIfGiven (RegisterTypeArgs.subscriptionResolvers args)
                (subscriptionResolvers this) |>).

Definition registerTypeExtension (args : RegisterTypeExtensionArgs.t) (this : GQLRegistry)
    : GQLRegistry :=
  let this :=
    match RegisterTypeExtensionArgs.extensionTypeDefinitions args with
    | Some extensionTypeDefinitions =>
        mergeIncomingExtensionTypes (definitions extensionTypeDefinitions) this
    | None => this
    end in
  let this :=
    mergeIncomingExtensionQueries
      (rootFields "Query" (RegisterTypeExtensionArgs.extensionQueryDefinitions args)) this in
  let this :=
    mergeIncomingExtensionMutations
      (rootFields "Mutation" (RegisterTypeExtensionArgs.extensionMutationDefinitions args))
      this in
  let this :=
    mergeIncomingExtensionSubscriptions
      (rootFields "Subscription"
         (RegisterTypeExtensionArgs.extensionSubscriptionDefinitions args)) this in
  this <| extensionQueryResolvers :=
            assignIfGiven (RegisterTypeExtensionArgs.extensionQueryResolvers args)
              (extensionQueryResolvers this) |>
       <| extensionMutationResolvers :=
            assignIfGiven (RegisterTypeExtensionArgs.extensionMutationResolvers args)
              (extensionMutationResolvers this) |>
       <| extensionTypeResolvers :=
            assignIfGiven (RegisterTypeExtensionArgs.extensionTypeResolvers args)
              (extensionTypeResolvers this) |>
       <| extensionSubscriptionResolvers :=
            assignIfGiven (RegisterTypeExtensionArgs.extensionSubscriptionResolvers args)
              (extensionSubscriptionResolvers this) |>.

Definition registerInternalValues (internalValues' : Obj Value) (this : GQLRegistry)
    : GQLRegistry :=
  this <| internalValues := spread (internalValues this) internalValues' |>.

Definition registerPreStartFunction (preStartfunction : PreStartFunction)
    (this : GQLRegistry) : GQLRegistry :=
  this <| preStartFunctions := push (preStartFunctions this) preStartfunction |>.

(** The plugin object is the caller's: the method hands back what it has
    become next to the registry. *)
Definition registerPlugin (plugin : Plugin.t) (this : GQLRegistry)
    : GQLRegistry * Plugin.t :=
  let isAdded :=
    find_ (fun registeredPlugin => Plugin.name registeredPlugin =? Plugin.name plugin)
      (plugins this) in
  match isAdded with
  | Some _ => (this, plugin)
  | None =>
      let plugin := plugin <| Plugin.registry := Some (instance this) |> in
      (this <| plugins := push (plugins this) plugin |>, plugin)
  end.

(** ** Definitions *)

Definition getDefinitionsDocument (this : GQLRegistry) : DocumentNode :=
  let definitions := typeDefinitions this ++ directiveDefinitions this in
  let definitions :=
    if negb (List.length (queryDefinitions this) =? 0)%nat then
      let queryObject :=
        mkNode Kind.OBJECT_TYPE_DEFINITION "Query" (Some (queryDefinitions this)) "" in
      push definitions queryObject
    else definitions in
  let definitions :=
    if negb (List.length (mutationDefinitions this) =? 0)%nat then
      let mutationObject :=
        mkNode Kind.OBJECT_TYPE_DEFINITION "Mutation" (Some (mutationDefinitions this)) "" in
      push definitions mutationObject
    else definitions in
  let definitions :=
    if negb (List.length (subscriptionDefinitions this) =? 0)%nat then
      let subscripitonObject :=
        mkNode Kind.OBJECT_TYPE_DEFINITION "Subscription"
          (Some (subscriptionDefinitions this)) "" in
      push definitions subscripitonObject
    else definitions in
  mkDocument definitions.

Definition getExtensionDefinitionsDocument (this : GQLRegistry) : DocumentNode :=
  let definitions := extensionTypeDefinitions this ++ directiveDefinitions this in
  let definitions :=
    if negb (List.length (extensionQueryDefinitions this) =? 0)%nat then
      let queryObject :=
        mkNode Kind.OBJECT_TYPE_EXTENSION "Query" (Some (extensionQueryDefinitions this)) "" in
      push definitions queryObject
    else definitions in
  let definitions :=
    if negb (List.length (extensionMutationDefinitions this) =? 0)%nat then
      let mutationObject :=
        mkNode Kind.OBJECT_TYPE_EXTENSION "Mutation"
          (Some (extensionMutationDefinitions this)) "" in
      push definitions mutationObject
    else definitions in
  let definitions :=
    if negb (List.length (extensionSubscriptionDefinitions this) =? 0)%nat then
      let subscripitonObject :=
        mkNode Kind.OBJECT_TYPE_EXTENSION "Subscription"
          (Some (extensionSubscriptionDefinitions this)) "" in
      push definitions subscripitonObject
    else definitions in
  mkDocument definitions.

(** ** Get Resolvers *)

Definition getDirectiveResolvers (this : GQLRegistry) : Obj DirectiveResolver :=
  spread (directiveResolvers this) [].

Definition getResolvers (this : GQLRegistry) : Obj Value :=
  let definitions := spread (internalValues this) (typeResolvers this) in
  let definitions :=
    if negb (List.length (keys (queryResolvers this)) =? 0)%nat then
      spread definitions [("Query", Object (spread (queryResolvers this) []))]
    else definitions in
  let definitions :=
    if negb (List.length (keys (mutationResolvers this)) =? 0)%nat then
      spread definitions [("Mutation", Object (spread (mutationResolvers this) []))]
    else definitions in
  let definitions :=
    if negb (List.length (keys (subscriptionResolvers this)) =? 0)%nat then
      spread definitions [("Subscription", Object (spread (subscriptionResolvers this) []))]
    else definitions in
  definitions.

Definition getExtensionResolvers (this : GQLRegistry) : Obj Value :=
  let definitions := spread (extensionTypeResolvers this) [] in
  let definitions :=
    if negb (List.length (keys (extensionQueryResolvers this)) =? 0)%nat then
      spread definitions [("Query", Object (spread (extensionQueryResolvers this) []))]
    else definitions in
  let definitions :=
    if negb (List.length (keys (extensionMutationResolvers this)) =? 0)%nat then
      spread definitions [("Mutation", Object (spread (extensionMutationResolvers this) []))]
    else definitions in
  let definitions :=
    if negb (List.length (keys (extensionSubscriptionResolvers this)) =? 0)%nat then
      spread definitions
        [("Subscription", Object (spread (extensionSubscriptionResolvers this) []))]
    else definitions in
  definitions.

(** [this.remoteSchemas?.[name]?.executor ?? null]: the members inherited
    from [Object.prototype] have no [executor]. *)
Definition getExecutor (name : string) (this : GQLRegistry) : option AsyncExecutor :=
  match member (remoteSchemas this) name with
  | Some (own remote) => Some (RegisterRemoteSchemaArgs.executor remote)
  | _ => None
  end.

(** [this.remoteSchemas?.[name] || null] *)
Definition getRemoteSchema (name : string) (this : GQLRegistry)
    : option (Member RegisterRemoteSchemaArgs.t) :=
  member (remoteSchemas this) name.

Definition transformSchema (schema : GraphQLSchema) (executor : AsyncExecutor)
    (transforms : option (list Transform)) : GraphQLSchema :=
  let transforms := match transforms with Some ts => ts | None => [] end in
  wrapSchema schema executor
    ([RenameTypes; RenameRootTypes; RenameRootFields;
      RenameObjectFields; RenameInterfaceFields; RenameInputObjectFields] ++ transforms).

(** ** Setup callbacks *)

Definition perform (c : Call) : M unit :=
  match c with
  | call_registerDataSource name dataSource => modify (registerDataSource name dataSource)
  | call_registerRemoteSchema args => modify (registerRemoteSchema args)
  | call_registerDirectives args => registerDirectives args
  | call_registerType args => registerType args
  | call_registerTypeExtension args => modify (registerTypeExtension args)
  | call_registerInternalValues internalValues => modify (registerInternalValues internalValues)
  | call_registerPlugin plugin => modify (fun this => fst (registerPlugin plugin this))
  | call_clear => clear
  end.

Definition preStart : M unit :=
  this <- getThis ;;
  if hasExecutedPreStart this then ret tt
  else
    forEach (preStartFunctions this) (fun preStartFunction =>
      forEach (calls preStartFunction) perform ;;
      settle (completion preStartFunction)) ;;
    modify (fun this => this <| hasExecutedPreStart := true |>).

(** ** The plugin pipeline *)

(** The listeners are called and not awaited: only a listener that throws
    in the call itself ends the loop. *)
Definition updatePluginSchemas : M unit :=
  this <- getThis ;;
  forEach (plugins this) (fun plugin =>
    this <- getThis ;;
    let schema := getDefinitionsDocument this in
    let extensions := getExtensionDefinitionsDocument this in
    callGlobal plugin Hook.schemaUpdated (Plugin.schemaUpdated plugin) schema extensions ;;
    ret tt).

Definition processPluginDirectiveDefinitions (schema extensions : DocumentNode)
    (plugin : Plugin.t) : M unit :=
  globalPluginDirectiveDefinitions <-
    callGlobal plugin Hook.addDirectiveDefinitions (Plugin.addDirectiveDefinitions plugin)
      schema extensions ;;
  match truthy globalPluginDirectiveDefinitions with
  | Some globalPluginDirectiveDefinitions =>
      modify (mergeIncomingDirectives globalPluginDirectiveDefinitions) ;;
      updatePluginSchemas
  | None => ret tt
  end.

Definition processPluginDirectiveResolvers (schema extensions : DocumentNode)
    (plugin : Plugin.t) : M unit :=
  globalPluginDirectiveResolvers <-
    callGlobal plugin Hook.addDirectiveResolvers (Plugin.addDirectiveResolvers plugin)
      schema extensions ;;
  match truthy globalPluginDirectiveResolvers with
  | Some globalPluginDirectiveResolvers =>
      modify (fun this =>
        this <| directiveResolvers :=
                  spread (directiveResolvers this) globalPluginDirectiveResolvers |>)
  | None => ret tt
  end.

Definition preProcessPluginUpdateTypes (schema extensions : DocumentNode)
    (plugin : Plugin.t) : M unit :=
  let typeDefinitions := definitions schema in
  newTypeDefinitions <-
    foldM typeDefinitions [] (fun newTypeDefinitions typeDefinition =>
      updatedTypeDefiniton <-
        callPerDefinition plugin Hook.addPrePropertiesToTypeDefinition
          (Plugin.addPrePropertiesToTypeDefinition plugin) typeDefinition schema extensions ;;
      match truthy updatedTypeDefiniton with
      | Some updatedTypeDefiniton => ret (push newTypeDefinitions updatedTypeDefiniton)
      | None => ret newTypeDefinitions
      end) ;;
  if negb (List.length newTypeDefinitions =? 0)%nat then
    modify (mergeIncomingTypes newTypeDefinitions) ;;
    updatePluginSchemas
  else ret tt.

Definition postProcessPluginUpdateTypes (schema extensions : DocumentNode)
    (plugin : Plugin.t) : M unit :=
  let typeDefinitions := definitions schema in
  newTypeDefinitions <-
    foldM typeDefinitions [] (fun newTypeDefinitions typeDefinition =>
      updatedTypeDefiniton <-
        callPerDefinition plugin Hook.addPostPropertiesToTypeDefinition
          (Plugin.addPostPropertiesToTypeDefinition plugin) typeDefinition schema extensions ;;
      match truthy updatedTypeDefiniton with
      | Some updatedTypeDefiniton => ret (push newTypeDefinitions updatedTypeDefiniton)
      | None => ret newTypeDefinitions
      end) ;;
  if negb (List.length newTypeDefinitions =? 0)%nat then
    modify (mergeIncomingTypes newTypeDefinitions) ;;
    updatePluginSchemas
  else ret tt.

(** The four shapes the sixteen sub-steps of the main phase take. Each
    sub-step below is one of them at its own hooks and its own store. *)

(** the per-definition hook over the snapshot, merging every answer; one
    re-broadcast at the end if anything answered, here or ([didUpdate]) before *)
Definition perDefinitionStep
    (objectHook : Hook.t) (objectMethod : PerDefinition (list Node))
    (merge : list Node -> GQLRegistry -> GQLRegistry)
    (schema extensions : DocumentNode) (plugin : Plugin.t) (didUpdate : bool) : M unit :=
  let typeDefinitions := definitions schema in
  didUpdate <-
    foldM typeDefinitions didUpdate (fun didUpdate typeDefinition =>
      objectPluginDefinitions <-
        callPerDefinition plugin objectHook objectMethod typeDefinition schema extensions ;;
      match truthy objectPluginDefinitions with
      | Some objectPluginDefinitions => modify (merge objectPluginDefinitions) ;; ret true
      | None => ret didUpdate
      end) ;;
  if didUpdate : bool then updatePluginSchemas else ret tt.

(** global hook first, then the per-definition hook *)
Definition definitionsStep
    (globalHook : Hook.t) (globalMethod : Global (list Node))
    (objectHook : Hook.t) (objectMethod : PerDefinition (list Node))
    (merge : list Node -> GQLRegistry -> GQLRegistry)
    (schema extensions : DocumentNode) (plugin : Plugin.t) : M unit :=
  globalPluginDefinitions <- callGlobal plugin globalHook globalMethod schema extensions ;;
  didUpdate <-
    match truthy globalPluginDefinitions with
    | Some globalPluginDefinitions => modify (merge globalPluginDefinitions) ;; ret true
    | None => ret false
    end ;;
  perDefinitionStep objectHook objectMethod merge schema extensions plugin didUpdate.

(** the extension sub-steps have no global hook *)
Definition extensionDefinitionsStep
    (objectHook : Hook.t) (objectMethod : PerDefinition (list Node))
    (merge : list Node -> GQLRegistry -> GQLRegistry)
    (schema extensions : DocumentNode) (plugin : Plugin.t) : M unit :=
  perDefinitionStep objectHook objectMethod merge schema extensions plugin false.

(** global resolver hook, then the per-definition one; no re-broadcast *)
Definition resolversStep
    (globalHook : Hook.t) (globalMethod : Global (Obj Value))
    (objectHook : Hook.t) (objectMethod : PerDefinition (Obj Value))
    (assign : Obj Value -> GQLRegistry -> GQLRegistry)
    (schema extensions : DocumentNode) (plugin : Plugin.t) : M unit :=
  let typeDefinitions := definitions schema in
  globalPluginResolvers <- callGlobal plugin globalHook globalMethod schema extensions ;;
  match truthy globalPluginResolvers with
  | Some globalPluginResolvers => modify (assign globalPluginResolvers)
  | None => ret tt
  end ;;
  forEach typeDefinitions (fun typeDefinition =>
    objectPluginResolvers <-
      callPerDefinition plugin objectHook objectMethod typeDefinition schema extensions ;;
    match truthy objectPluginResolvers with
    | Some objectPluginResolvers => modify (assign objectPluginResolvers)
    | None => ret tt
    end).

(** the per-definition extension resolver hook *)
Definition extensionResolversStep
    (objectHook : Hook.t) (objectMethod : PerDefinition (Obj Value))
    (assign : Obj Value -> GQLRegistry -> GQLRegistry)
    (schema extensions : DocumentNode) (plugin : Plugin.t) : M unit :=
  let typeDefinitions := definitions schema in
  forEach typeDefinitions (fun typeDefinition =>
    objectPluginResolvers <-
      callPerDefinition plugin objectHook objectMethod typeDefinition schema extensions ;;
    match truthy objectPluginResolvers with
    | Some objectPluginResolvers => modify (assign objectPluginResolvers)
    | None => ret tt
    end).

Definition processPluginTypeDefinitions (schema extensions : DocumentNode)
    (plugin : Plugin.t) : M unit :=
  definitionsStep
    Hook.addTypeDefinitions (Plugin.addTypeDefinitions plugin)
    Hook.addTypeDefinitionsForTypeDefinition
    (Plugin.addTypeDefinitionsForTypeDefinition plugin)
    mergeIncomingTypes schema extensions plugin.

Definition processPluginTypeExtensionDefinitions (schema extensions : DocumentNode)
    (plugin : Plugin.t) : M unit :=
  extensionDefinitionsStep
    Hook.addTypeDefinitionExtensionsForTypeDefinition
    (Plugin.addTypeDefinitionExtensionsForTypeDefinition plugin)
    mergeIncomingExtensionTypes schema extensions plugin.

Definition processPluginTypeResolvers (schema extensions : DocumentNode)
    (plugin : Plugin.t) : M unit :=
  resolversStep
    Hook.addTypeResolvers (Plugin.addTypeResolvers plugin)
    Hook.addTypeResolversForTypeDefinition (Plugin.addTypeResolversForTypeDefinition plugin)
    (fun new this => this <| typeResolvers := spread (typeResolvers this) new |>)
    schema extensions plugin.

Definition processPluginTypeExtensionResolvers (schema extensions : DocumentNode)
    (plugin : Plugin.t) : M unit :=
  extensionResolversStep
    Hook.addTypeResolverExtensionsForTypeDefinition
    (Plugin.addTypeResolverExtensionsForTypeDefinition plugin)
    (fun new this =>
       this <| extensionTypeResolvers := spread (extensionTypeResolvers this) new |>)
    schema extensions plugin.

Definition processPluginQueryDefinitions (schema extensions : DocumentNode)
    (plugin : Plugin.t) : M unit :=
  definitionsStep
    Hook.addQueryDefinitions (Plugin.addQueryDefinitions plugin)
    Hook.addQueryDefinitionsForTypeDefinition
    (Plugin.addQueryDefinitionsForTypeDefinition plugin)
    mergeIncomingQueries schema extensions plugin.

Definition processPluginQueryExtensionDefinitions (schema extensions : DocumentNode)
    (plugin : Plugin.t) : M unit :=
  extensionDefinitionsStep
    Hook.addQueryDefinitionExtensionsForTypeDefinition
    (Plugin.addQueryDefinitionExtensionsForTypeDefinition plugin)
    mergeIncomingExtensionQueries schema extensions plugin.

Definition processPluginQueryResolvers (schema extensions : DocumentNode)
    (plugin : Plugin.t) : M unit :=
  resolversStep
    Hook.addQueryResolvers (Plugin.addQueryResolvers plugin)
    Hook.addQueryResolversForTypeDefinition (Plugin.addQueryResolversForTypeDefinition plugin)
    (fun new this => this <| queryResolvers := spread (queryResolvers this) new |>)
    schema extensions plugin.

Definition processPluginQueryExtensionResolvers (schema extensions : DocumentNode)
    (plugin : Plugin.t) : M unit :=
  extensionResolversStep
    Hook.addQueryResolverExtensionsForTypeDefinition
    (Plugin.addQueryResolverExtensionsForTypeDefinition plugin)
    (fun new this =>
       this <| extensionQueryResolvers := spread (extensionQueryResolvers this) new |>)
    schema extensions plugin.

Definition processPluginMutationDefinitions (schema extensions : DocumentNode)
    (plugin : Plugin.t) : M unit :=
  definitionsStep
    Hook.addMutationDefinitions (Plugin.addMutationDefinitions plugin)
    Hook.addMutationDefinitionsForTypeDefinition
    (Plugin.addMutationDefinitionsForTypeDefinition plugin)
    mergeIncomingMutations schema extensions plugin.

Definition processPluginMutationExtensionDefinitions (schema extensions : DocumentNode)
    (plugin : Plugin.t) : M unit :=
  extensionDefinitionsStep
    Hook.addMutationDefinitionExtensionsForTypeDefinition
    (Plugin.addMutationDefinitionExtensionsForTypeDefinition plugin)
    mergeIncomingExtensionMutations schema extensions plugin.

Definition processPluginMutationResolvers (schema extensions : DocumentNode)
    (plugin : Plugin.t) : M unit :=
  resolversStep
    Hook.addMutationResolvers (Plugin.addMutationResolvers plugin)
    Hook.addMutationResolversForTypeDefinition
    (Plugin.addMutationResolversForTypeDefinition plugin)
    (fun new this => this <| mutationResolvers := spread (mutationResolvers this) new |>)
    schema extensions plugin.

Definition processPluginMutationExtensionResolvers (schema extensions : DocumentNode)
    (plugin : Plugin.t) : M unit :=
  extensionResolversStep
    Hook.addMutationResolverExtensionsForTypeDefinition
    (Plugin.addMutationResolverExtensionsForTypeDefinition plugin)
    (fun new this =>
       this <| extensionMutationResolvers := spread (extensionMutationResolvers this) new |>)
    schema extensions plugin.

Definition processPluginSubscriptionDefinitions (schema extensions : DocumentNode)
    (plugin : Plugin.t) : M unit :=
  definitionsStep
    Hook.addSubscriptionDefinitions (Plugin.addSubscriptionDefinitions plugin)
    Hook.addSubscriptionDefinitionsForTypeDefinition
    (Plugin.addSubscriptionDefinitionsForTypeDefinition plugin)
    mergeIncomingSubscriptions schema extensions plugin.

Definition processPluginSubscriptionExtensionDefinitions (schema extensions : DocumentNode)
    (plugin : Plugin.t) : M unit :=
  extensionDefinitionsStep
    Hook.addSubscriptionDefinitionExtensionsForTypeDefinition
    (Plugin.addSubscriptionDefinitionExtensionsForTypeDefinition plugin)
    mergeIncomingExtensionSubscriptions schema extensions plugin.

Definition processPluginSubscriptionResolvers (schema extensions : DocumentNode)
    (plugin : Plugin.t) : M unit :=
  resolversStep
    Hook.addSubscriptionResolvers (Plugin.addSubscriptionResolvers plugin)
    Hook.addSubscriptionResolversForTypeDefinition
    (Plugin.addSubscriptionResolversForTypeDefinition plugin)
    (fun new this =>
       this <| subscriptionResolvers := spread (subscriptionResolvers this) new |>)
    schema extensions plugin.

Definition processPluginSubscriptionExtensionResolvers (schema extensions : DocumentNode)
    (plugin : Plugin.t) : M unit :=
  extensionResolversStep
    Hook.addSubscriptionResolverExtensionsForTypeDefinition
    (Plugin.addSubscriptionResolverExtensionsForTypeDefinition plugin)
    (fun new this =>
       this <| extensionSubscriptionResolvers :=
                 spread (extensionSubscriptionResolvers this) new |>)
    schema extensions plugin.

(** The five loops of [processPlugins] run these turns, one per plugin. *)

(** first loop: the documents are those computed before the loop *)
Definition initialNotifyTurn (schema extensions : DocumentNode) (plugin : Plugin.t)
    : M unit :=
  callGlobal plugin Hook.setInitialSchema (Plugin.setInitialSchema plugin)
    schema extensions ;;
  ret tt.

(** second loop *)
Definition preProcessTurn (plugin : Plugin.t) : M unit :=
  this <- getThis ;;
  let schema := getDefinitionsDocument this in
  let extensions := getExtensionDefinitionsDocument this in
  preProcessPluginUpdateTypes schema extensions plugin.

(** third loop: the snapshot taken at the top of the turn goes to all
    sixteen sub-steps *)
Definition mainPhaseTurn (plugin : Plugin.t) : M unit :=
  this <- getThis ;;
  let schema := getDefinitionsDocument this in
  let extensions := getExtensionDefinitionsDocument this in

  processPluginTypeDefinitions schema extensions plugin ;;
  processPluginTypeExtensionDefinitions schema extensions plugin ;;
  processPluginTypeResolvers schema extensions plugin ;;
  processPluginTypeExtensionResolvers schema extensions plugin ;;

  processPluginQueryDefinitions schema extensions plugin ;;
  processPluginQueryExtensionDefinitions schema extensions plugin ;;
  processPluginQueryResolvers schema extensions plugin ;;
  processPluginQueryExtensionResolvers schema extensions plugin ;;

  processPluginMutationDefinitions schema extensions plugin ;;
  processPluginMutationExtensionDefinitions schema extensions plugin ;;
  processPluginMutationResolvers schema extensions plugin ;;
  processPluginMutationExtensionResolvers schema extensions plugin ;;

  processPluginSubscriptionDefinitions schema extensions plugin ;;
  processPluginSubscriptionExtensionDefinitions schema extensions plugin ;;
  processPluginSubscriptionResolvers schema extensions plugin ;;
  processPluginSubscriptionExtensionResolvers schema extensions plugin.

(** fourth loop *)
Definition directiveTurn (plugin : Plugin.t) : M unit :=
  this <- getThis ;;
  let schema := getDefinitionsDocument this in
  let extensions := getExtensionDefinitionsDocument this in
  processPluginDirectiveDefinitions schema extensions plugin ;;
  processPluginDirectiveResolvers schema extensions plugin ;;

  postProcessPluginUpdateTypes schema extensions plugin.

(** fifth loop: the documents are those computed before the loop *)
Definition finalizeTurn (schema extensions : DocumentNode) (plugin : Plugin.t) : M unit :=
  callGlobal plugin Hook.validateSchema (Plugin.validateSchema plugin) schema extensions ;;
  callGlobal plugin Hook.setFinalSchema (Plugin.setFinalSchema plugin) schema extensions ;;
  ret tt.

Definition processPlugins : M unit :=
  this <- getThis ;;
  if hasProcessedPlugins this then ret tt
  else
    let schema := getDefinitionsDocument this in
    let extensions := getExtensionDefinitionsDocument this in
    forEach (plugins this) (initialNotifyTurn schema extensions) ;;
    this <- getThis ;;
    forEach (plugins this) preProcessTurn ;;
    this <- getThis ;;
    forEach (plugins this) mainPhaseTurn ;;
    this <- getThis ;;
    forEach (plugins this) directiveTurn ;;
    this <- getThis ;;
    let schema := getDefinitionsDocument this in
    let extensions := getExtensionDefinitionsDocument this in
    forEach (plugins this) (finalizeTurn schema extensions) ;;
    modify (fun this => this <| hasProcessedPlugins := true |>).

Definition getPlugin (name : string) (this : GQLRegistry) : Outcome Plugin.t :=
  match find_ (fun plu => Plugin.name plu =? name) (plugins this) with
  | Some plugin => Returns plugin
  | None => Throws ("Cannot find registry plugin with name " ++ name)%string
  end.

(** ** Building the artifacts *)

(** [for (d = 0; d < Object.keys(this.directiveResolvers).length; d++)
      schema = this.directiveResolvers[Object.keys(this.directiveResolvers)[d]](schema)] *)
Definition applyDirectiveResolvers (this : GQLRegistry) (schema : GraphQLSchema)
    : GraphQLSchema :=
  fold_left (fun schema d =>
    match obj_get (directiveResolvers this) d with
    | Some resolver => resolver schema
    | None => schema
    end) (keys (directiveResolvers this)) schema.

(** The loop over [Object.keys(this.remoteSchemas)] that [getSchema] and
    [getExecutableSchema] both run: resolve each descriptor's source, wrap it,
    remember the wrapped form on the descriptor. *)
Definition wrapRemoteSchemas : M (list GraphQLSchema) :=
  this <- getThis ;;
  foldM (keys (remoteSchemas this)) [] (fun remoteSchemas' name =>
    this <- getThis ;;
    match obj_get (remoteSchemas this) name with
    | None => ret remoteSchemas'
    | Some remote =>
        let executor := RegisterRemoteSchemaArgs.executor remote in
        let transforms := RegisterRemoteSchemaArgs.transforms remote in
        resolved <-
          match RegisterRemoteSchemaArgs.asyncSchema remote with
          | Some asyncSchema => settle asyncSchema
          | None => ret (RegisterRemoteSchemaArgs.schema remote)
          end ;;
        match resolved with
        | Some schema =>
            let wrappedSchema := transformSchema schema executor transforms in
            modify (fun this =>
              this <| remoteSchemas :=
                obj_set (remoteSchemas this) name
                  (remote <| RegisterRemoteSchemaArgs.executable := Some wrappedSchema |>) |>) ;;
            ret (push remoteSchemas' wrappedSchema)
        | None => ret remoteSchemas'
        end
    end).

Definition getFederatableSchema : M GraphQLSchema :=
  preStart ;;
  processPlugins ;;
  this <- getThis ;;
  let localSchema :=
    makeExecutableSchema (getDefinitionsDocument this) (Some (getResolvers this)) in
  ret (applyDirectiveResolvers this localSchema).

Definition getSchema : M GraphQLSchema :=
  preStart ;;
  processPlugins ;;
  this <- getThis ;;
  let localSchema := makeExecutableSchema (getDefinitionsDocument this) None in
  remoteSchemas' <- wrapRemoteSchemas ;;
  this <- getThis ;;
  let gatewaySchema :=
    stitchSchemas (localSchema :: remoteSchemas')
      (getExtensionDefinitionsDocument this) None in
  ret gatewaySchema.

Definition getExecutableSchema : M GraphQLSchema :=
  preStart ;;
  processPlugins ;;
  this <- getThis ;;
  match executableSchema this with
  | Some executableSchema => ret executableSchema
  | None =>
      let localSchema :=
        makeExecutableSchema (getDefinitionsDocument this) (Some (getResolvers this)) in
      remoteSchemas' <- wrapRemoteSchemas ;;
      this <- getThis ;;
      let gatewaySchema :=
        stitchSchemas (localSchema :: remoteSchemas')
          (getExtensionDefinitionsDocument this) (Some (getExtensionResolvers this)) in
      let gatewaySchema := applyDirectiveResolvers this gatewaySchema in
      modify (fun this => this <| executableSchema := Some gatewaySchema |>) ;;
      ret gatewaySchema
  end.

(** ** Vocabulary of the properties *)

Definition names (l : list Node) : list string := map name_value l.

(** The nine declaration sequences of the registry. *)
Inductive Category : Type :=
| Directive | Type_ | Query | Mutation | Subscription
| ExtensionType | ExtensionQuery | ExtensionMutation | ExtensionSubscription.

Definition store (c : Category) (this : GQLRegistry) : list Node :=
  match c with
  | Directive => directiveDefinitions this
  | Type_ => typeDefinitions this
  | Query => queryDefinitions this
  | Mutation => mutationDefinitions this
  | Subscription => subscriptionDefinitions this
  | ExtensionType => extensionTypeDefinitions this
  | ExtensionQuery => extensionQueryDefinitions this
  | ExtensionMutation => extensionMutationDefinitions this
  | ExtensionSubscription => extensionSubscriptionDefinitions this
  end.

(** The merge method of each category. *)
Definition merge (c : Category) : list Node -> GQLRegistry -> GQLRegistry :=
  match c with
  | Directive => mergeIncomingDirectives
  | Type_ => mergeIncomingTypes
  | Query => mergeIncomingQueries
  | Mutation => mergeIncomingMutations
  | Subscription => mergeIncomingSubscriptions
  | ExtensionType => mergeIncomingExtensionTypes
  | ExtensionQuery => mergeIncomingExtensionQueries
  | ExtensionMutation => mergeIncomingExtensionMutations
  | ExtensionSubscription => mergeIncomingExtensionSubscriptions
  end.

(** [routes c c' d]: the merge method of [c] puts the incoming node [d] into
    the sequence [c']. Each method feeds its own sequence with the nodes of
    the kind it accepts; the extension-type method also feeds base-kind nodes
    to the type sequence. *)
Definition routes (c c' : Category) (d : Node) : bool :=
  match c, c' with
  | Directive, Directive => kind d =? Kind.DIRECTIVE_DEFINITION
  | Type_, Type_ => isTypeDefinitionNode d
  | ExtensionType, ExtensionType => isTypeExtensionNode d
  | ExtensionType, Type_ => negb (isTypeExtensionNode d) && isTypeDefinitionNode d
  | Query, Query | Mutation, Mutation | Subscription, Subscription
  | ExtensionQuery, ExtensionQuery | ExtensionMutation, ExtensionMutation
  | ExtensionSubscription, ExtensionSubscription => kind d =? Kind.FIELD_DEFINITION
  | _, _ => false
  end.

Definition mergeAll (merges : list (Category * list Node)) (this : GQLRegistry)
    : GQLRegistry :=
  fold_left (fun this m => merge (fst m) (snd m) this) merges this.

(** What [merges] sends to the sequence [c'], in order of arrival. *)
Definition arrivals (c' : Category) (merges : list (Category * list Node)) : list Node :=
  flat_map (fun m => filter (routes (fst m) c') (snd m)) merges.

(** Of the entries that share a name only the last one stays, where it is. *)
Fixpoint keepLast (l : list Node) : list Node :=
  match l with
  | [] => []
  | d :: l' => if existsb (sameName d) l' then keepLast l' else d :: keepLast l'
  end.

(** The loop of a merge method, on the one sequence it feeds. *)
Definition upsertAll (accept : Node -> bool) (store : list Node) (incoming : list Node)
    : list Node :=
  fold_left (fun store d => if accept d then evictAndPush store d else store) incoming store.

(** What the pipeline does to the registry between two hook calls: a merge
    of what a hook answered, or the spread of answered resolvers. *)
Inductive pipelineUpdate : (GQLRegistry -> GQLRegistry) -> Prop :=
| update_merge (c : Category) (incoming : list Node) :
    pipelineUpdate (merge c incoming)
| update_directiveResolvers (new : Obj DirectiveResolver) :
    pipelineUpdate (fun this =>
      this <| directiveResolvers := spread (directiveResolvers this) new |>)
| update_typeResolvers (new : Obj Value) :
    pipelineUpdate (fun this => this <| typeResolvers := spread (typeResolvers this) new |>)
| update_queryResolvers (new : Obj Value) :
    pipelineUpdate (fun this => this <| queryResolvers := spread (queryResolvers this) new |>)
| update_mutationResolvers (new : Obj Value) :
    pipelineUpdate (fun this =>
      this <| mutationResolvers := spread (mutationResolvers this) new |>)
| update_subscriptionResolvers (new : Obj Value) :
    pipelineUpdate (fun this =>
      this <| subscriptionResolvers := spread (subscriptionResolvers this) new |>)
| update_extensionTypeResolvers (new : Obj Value) :
    pipelineUpdate (fun this =>
      this <| extensionTypeResolvers := spread (extensionTypeResolvers this) new |>)
| update_extensionQueryResolvers (new : Obj Value) :
    pipelineUpdate (fun this =>
      this <| extensionQueryResolvers := spread (extensionQueryResolvers this) new |>)
| update_extensionMutationResolvers (new : Obj Value) :
    pipelineUpdate (fun this =>
      this <| extensionMutationResolvers := spread (extensionMutationResolvers this) new |>)
| update_extensionSubscriptionResolvers (new : Obj Value) :
    pipelineUpdate (fun this =>
      this <| extensionSubscriptionResolvers :=
                spread (extensionSubscriptionResolvers this) new |>).

(** The documents a turn hands to its hooks when it starts from [r]. *)
Definition snapshot (r : GQLRegistry) : option (DocumentNode * DocumentNode) :=
  Some (getDefinitionsDocument r, getExtensionDefinitionsDocument r).

(** Every call of a hook in [hooks] that plugin [p] may get with the
    documents [docs] is an event in [ok]. *)
Definition callsOk (ok : Event -> Prop) (p : Plugin.t)
    (docs : option (DocumentNode * DocumentNode)) (hooks : Hook.t -> Prop) : Prop :=
  forall h d, hooks h -> ok (hook_called (Plugin.self p) h d docs).

(** The fields no merge and no resolver spread writes. *)
Definition outsideStores (r r' : GQLRegistry) : Prop :=
  instance r' = instance r /\
  remoteSchemas r' = remoteSchemas r /\
  internalValues r' = internalValues r /\
  executableSchema r' = executableSchema r /\
  dataSources r' = dataSources r /\
  preStartFunctions r' = preStartFunctions r /\
  hasExecutedPreStart r' = hasExecutedPreStart r /\
  hasProcessedPlugins r' = hasProcessedPlugins r /\
  plugins r' = plugins r.

(** What no call of the registration surface other than [clear] changes:
    the run state, the setup callbacks, and the plugins already there. *)
Definition registrationFrame (r r' : GQLRegistry) : Prop :=
  instance r' = instance r /\
  executableSchema r' = executableSchema r /\
  preStartFunctions r' = preStartFunctions r /\
  hasExecutedPreStart r' = hasExecutedPreStart r /\
  hasProcessedPlugins r' = hasProcessedPlugins r /\
  exists more, plugins r' = plugins r ++ more.

(** Every collection [clear] assigns is empty, the cached artifact is gone
    and the pipeline flag is down. *)
Definition emptied (r : GQLRegistry) : Prop :=
  remoteSchemas r = [] /\
  directiveDefinitions r = [] /\ directiveResolvers r = [] /\
  typeDefinitions r = [] /\ queryDefinitions r = [] /\
  mutationDefinitions r = [] /\ subscriptionDefinitions r = [] /\
  typeResolvers r = [] /\ queryResolvers r = [] /\
  mutationResolvers r = [] /\ subscriptionResolvers r = [] /\
  extensionTypeDefinitions r = [] /\ extensionQueryDefinitions r = [] /\
  extensionMutationDefinitions r = [] /\ extensionSubscriptionDefinitions r = [] /\
  extensionTypeResolvers r = [] /\ extensionQueryResolvers r = [] /\
  extensionMutationResolvers r = [] /\ extensionSubscriptionResolvers r = [] /\
  internalValues r = [] /\ dataSources r = [] /\
  executableSchema r = None /\
  hasProcessedPlugins r = false.

(** What [clear] does not assign. *)
Definition keptByClear (r r' : GQLRegistry) : Prop :=
  instance r' = instance r /\
  preStartFunctions r' = preStartFunctions r /\
  hasExecutedPreStart r' = hasExecutedPreStart r /\
  plugins r' = plugins r.

(** The [clear] hooks of the plugins [ps], as the log shows them. *)
Definition clearCalls (ps : list Plugin.t) : list Event :=
  flat_map (fun plu =>
    match Plugin.clear plu with
    | Some _ => [hook_called (Plugin.self plu) Hook.clear None None]
    | None => []
    end) ps.

(** The calls logged for the plugin instance [pid]. *)
Definition calledOn (pid : nat) (e : Event) : bool :=
  match e with
  | hook_called p _ _ _ => (p =? pid)%nat
  | console_warn _ => false
  end.

Definition callsOf (pid : nat) (l : list Event) : list Event := filter (calledOn pid) l.

(** The calls logged for the hook [h], of any plugin. *)
Definition isCallOf (h : Hook.t) (e : Event) : bool :=
  match e with
  | hook_called _ h' _ _ => Hook.eqb h' h
  | console_warn _ => false
  end.

Definition isHookCall (e : Event) : bool :=
  match e with
  | hook_called _ _ _ _ => true
  | console_warn _ => false
  end.

(** All the calls into plugins, in order. *)
Definition hookCalls (l : list Event) : list Event := filter isHookCall l.

(** The three finalize operations. *)
Inductive Finalize : Type :=
| federatable
| declarations
| executable.

Definition finalize (op : Finalize) : M GraphQLSchema :=
  match op with
  | federatable => getFederatableSchema
  | declarations => getSchema
  | executable => getExecutableSchema
  end.

(** What can happen to a registry next: a finalize operation, or a call of
    the registration surface. *)
Inductive Step : Type :=
| finish (op : Finalize)
| register (c : Call).

(** The world after a step, whatever it came to. *)
Definition after (s : Step) (w : World) : World :=
  match s with
  | finish op => snd (finalize op w)
  | register c => snd (perform c w)
  end.

Definition afterAll (l : list Step) (w : World) : World :=
  fold_left (fun w s => after s w) l w.

Definition implementsTypeAdd (p : Plugin.t) : bool :=
  match Plugin.addTypeDefinitions p with
  | Some _ => true
  | None => false
  end.

(** How often a global type-add hook has been called. *)
Definition typeAddCalls (l : list Event) : nat :=
  List.length (filter (isCallOf Hook.addTypeDefinitions) l).

(** Both one-shot flags are up. *)
Definition finalized (w : World) : Prop :=
  hasExecutedPreStart (this w) = true /\ hasProcessedPlugins (this w) = true.

(** ** Sample registrations *)

(** A plugin class that declares its name and nothing else. *)
Definition barePlugin (self : nat) (name : string) : Plugin.t :=
  Plugin.mk self name None
    None
    None None None
    None
    None None
    None None
    None None None None
    None None None None
    None None None None
    None None None None
    None None None None
    None None None None.

Definition objectType (name body : string) : Node :=
  mkNode Kind.OBJECT_TYPE_DEFINITION name (Some []) body.

Definition field (name : string) : Node :=
  mkNode Kind.FIELD_DEFINITION name None "".

(** [registry.registerType({ typeDefinitions: gql`type ...` })] *)
Definition typesOnly (types : list Node) : RegisterTypeArgs.t :=
  RegisterTypeArgs.mk (Some (mkDocument types)) None None None None None None None.

(** The step [registry.registerType({ typeDefinitions })]. *)
Definition registerTypes (types : list Node) : Step :=
  register (call_registerType (typesOnly types)).

(** A plugin whose global type-add hook contributes the type [T]. *)
Definition adds (self : nat) (name T : string) : Plugin.t :=
  (barePlugin self name)
    <| Plugin.addTypeDefinitions := Some (fun _ _ => Returns (Some [objectType T ""])) |>.

(** A plugin that watches the global type-add and query-add hooks and
    contributes nothing. *)
Definition watches (self : nat) (name : string) : Plugin.t :=
  (barePlugin self name)
    <| Plugin.addTypeDefinitions := Some (fun _ _ => Returns None) |>
    <| Plugin.addQueryDefinitions := Some (fun _ _ => Returns None) |>.


(** A plugin whose validation hook rejects every schema. *)
Definition rejects (self : nat) (name : string) : Plugin.t :=
  (barePlugin self name)
    <| Plugin.addTypeDefinitions := Some (fun _ _ => Returns None) |>
    <| Plugin.validateSchema := Some (fun _ _ => Throws "schema rejected") |>.

(** A plugin whose validation hook rejects a schema that lacks the type [T]. *)
Definition requires (self : nat) (name T : string) : Plugin.t :=
  (barePlugin self name)
    <| Plugin.addTypeDefinitions := Some (fun _ _ => Returns None) |>
    <| Plugin.validateSchema :=
         Some (fun schema _ =>
                 if includes (names (definitions schema)) T then Returns tt
                 else Throws "type missing") |>.

(** A fresh registry with the plugins [ps] registered in order. *)
Definition registryWith (ps : list Plugin.t) : GQLRegistry :=
  fold_left (fun this p => fst (registerPlugin p this)) ps (new_GQLRegistry 0).

Definition worldWith (ps : list Plugin.t) : World := mkWorld (registryWith ps) [].

(** A plugin that listens for [clear]. *)
Definition listens (self : nat) (name : string) : Plugin.t :=
  (barePlugin self name) <| Plugin.clear := Some (Returns tt) |>.

(** A registry whose one setup callback has run. *)
Definition startedWorld : World :=
  snd (preStart
         (mkWorld (registerPreStartFunction (mkPreStartFunction [] (Returns tt))
                     (registryWith [listens 1 "cache"])) [])).

(** A registry that knows one remote source, given eagerly. *)
Definition remoteWorld : World :=
  mkWorld
    (registerRemoteSchema
       (RegisterRemoteSchemaArgs.mk "users" None (Some (ForeignSchema "users")) "http"
          None None)
       (new_GQLRegistry 0)) [].

(** The call [e] is one of the global type-add hook of the plugin [pid]. *)
Definition isTypeAddOf (pid : nat) (e : Event) : bool :=
  calledOn pid e && isCallOf Hook.addTypeDefinitions e.

(** How often the global type-add hook of the plugin [pid] has been called. *)
Definition typeAddCallsOf (pid : nat) (l : list Event) : nat :=
  List.length (filter (isTypeAddOf pid) l).

(** The plugin [p] is the object [pid] and has a global type-add hook. *)
Definition isTypeAdder (pid : nat) (p : Plugin.t) : bool :=
  implementsTypeAdd p && (Plugin.self p =? pid)%nat.



(** [m] returns, having warned at most, and leaves the registry [f] makes
    of the one it found. *)
Definition sets (m : M unit) (f : GQLRegistry -> GQLRegistry) : Prop :=
  forall w, exists warnings,
    m w = (Returns tt, mkWorld (f (this w)) (log w ++ map console_warn warnings)).

(** The merges [registerType] makes, in order. *)
Definition mergesOf (args : RegisterTypeArgs.t) : list (Category * list Node) :=
  [(Type_, match RegisterTypeArgs.typeDefinitions args with
           | Some typeDefinitions => definitions typeDefinitions
           | None => []
           end);
   (Query, rootFields "Query" (RegisterTypeArgs.queryDefinitions args));
   (Mutation, rootFields "Mutation" (RegisterTypeArgs.mutationDefinitions args));
   (Subscription, rootFields "Subscription" (RegisterTypeArgs.subscriptionDefinitions args))].

(** The resolver assignments [registerType] makes after its merges. *)
Definition assignsOf (args : RegisterTypeArgs.t) (this : GQLRegistry) : GQLRegistry :=
  this
    <| typeResolvers := assignIfGiven (RegisterTypeArgs.typeResolvers args)
                          (typeResolvers this) |>
    <| queryResolvers := assignIfGiven (RegisterTypeArgs.queryResolvers args)
                           (queryResolvers this) |>
    <| mutationResolvers := assignIfGiven (RegisterTypeArgs.mutationResolvers args)
                              (mutationResolvers this) |>
    <| subscriptionResolvers := assignIfGiven (RegisterTypeArgs.subscriptionResolvers args)
                                  (subscriptionResolvers this) |>.

(** The definition [def] is an object type named [root]. *)
Definition isRootObject (root : string) (def : Node) : bool :=
  (kind def =? Kind.OBJECT_TYPE_DEFINITION) && (name_value def =? root).

(** The document is there and has an object type named [root]. *)
Definition hasRoot (root : string) (document : option DocumentNode) : bool :=
  match document with
  | Some document => existsb (isRootObject root) (definitions document)
  | None => false
  end.

(** The document without the definitions that are no object type named [root]. *)
Definition onlyRoot (root : string) (document : DocumentNode) : DocumentNode :=
  mkDocument (filter (isRootObject root) (definitions document)).

(** The container declarations of the field sequences in [categories] that
    are not empty, as nodes of kind [kind]. *)
Definition containers (kind : string) (categories : list (string * list Node))
    : list Node :=
  map (fun category => mkNode kind (fst category) (Some (snd category)) "")
    (filter (fun category => negb (List.length (snd category) =? 0)%nat) categories).

Definition baseFields (r : GQLRegistry) : list (string * list Node) :=
  [("Query", queryDefinitions r);
   ("Mutation", mutationDefinitions r);
   ("Subscription", subscriptionDefinitions r)].

Definition extensionFields (r : GQLRegistry) : list (string * list Node) :=
  [("Query", extensionQueryDefinitions r);
   ("Mutation", extensionMutationDefinitions r);
   ("Subscription", extensionSubscriptionDefinitions r)].

(** What a descriptor's source resolves to: the supplier's answer when
    there is a supplier, the eager artifact otherwise. *)
Definition sourceOf (remote : RegisterRemoteSchemaArgs.t) : option GraphQLSchema :=
  match RegisterRemoteSchemaArgs.asyncSchema remote with
  | Some (Returns source) => source
  | Some (Throws _) => None
  | None => RegisterRemoteSchemaArgs.schema remote
  end.

(** [{P} m {Q | E}]: from a world in [P], [m] returns [a] in a world in
    [Q a], or throws in a world in [E]. *)
Definition triple {A : Type} (P : World -> Prop) (m : M A)
    (Q : A -> World -> Prop) (E : World -> Prop) : Prop :=
  forall w, P w ->
    match m w with
    | (Returns a, w') => Q a w'
    | (Throws _, w') => E w'
    end.

(** [I] holds after [m] however it ends. *)
Definition keeps {A : Type} (I : World -> Prop) (m : M A) : Prop :=
  triple I m (fun _ => I) I.

(** ** Vocabulary of the registry's invariants and of the builds *)

Unset Implicit Arguments.

(** What [registerRemoteSchema] keeps of its argument: the [executable]
    member is not copied. *)
Definition descriptorOf (args : RegisterRemoteSchemaArgs.t) : RegisterRemoteSchemaArgs.t :=
  RegisterRemoteSchemaArgs.mk
    (RegisterRemoteSchemaArgs.name args)
    (RegisterRemoteSchemaArgs.asyncSchema args)
    (RegisterRemoteSchemaArgs.schema args)
    (RegisterRemoteSchemaArgs.executor args)
    None
    (RegisterRemoteSchemaArgs.transforms args).

Definition pluginNames (r : GQLRegistry) : list string := map Plugin.name (plugins r).

(** A remote source behind a supplier, and one given eagerly under the same name. *)
Definition lazyUsers : RegisterRemoteSchemaArgs.t :=
  RegisterRemoteSchemaArgs.mk "users" (Some (Returns (Some (ForeignSchema "users-v1"))))
    None "http" None None.

Definition eagerUsers : RegisterRemoteSchemaArgs.t :=
  RegisterRemoteSchemaArgs.mk "users" None (Some (ForeignSchema "users-v2")) "https"
    None (Some [UserTransform "prefix"]).

(** Every assignment a method of the class makes to the fields of [this],
    [clear]'s apart: the functions the methods hand to [modify]. *)
Inductive Assigns : (GQLRegistry -> GQLRegistry) -> Prop :=
| assigns_merge (c : Category) (incoming : list Node) : Assigns (merge c incoming)
| assigns_dataSource (name : string) (dataSource : RESTDataSource) :
    Assigns (registerDataSource name dataSource)
| assigns_remoteSchema (args : RegisterRemoteSchemaArgs.t) : Assigns (registerRemoteSchema args)
| assigns_directiveResolvers (new : Obj DirectiveResolver) :
    Assigns (fun this =>
      this <| directiveResolvers := obj_assign (directiveResolvers this) new |>)
| assigns_typeResolvers (given : option (Obj Value)) :
    Assigns (fun this =>
      this <| typeResolvers := assignIfGiven given (typeResolvers this) |>)
| assigns_queryResolvers (given : option (Obj Value)) :
    Assigns (fun this =>
      this <| queryResolvers := assignIfGiven given (queryResolvers this) |>)
| assigns_mutationResolvers (given : option (Obj Value)) :
    Assigns (fun this =>
      this <| mutationResolvers := assignIfGiven given (mutationResolvers this) |>)
| assigns_subscriptionResolvers (given : option (Obj Value)) :
    Assigns (fun this =>
      this <| subscriptionResolvers := assignIfGiven given (subscriptionResolvers this) |>)
| assigns_typeExtension (args : RegisterTypeExtensionArgs.t) :
    Assigns (registerTypeExtension args)
| assigns_internalValues (internalValues : Obj Value) :
    Assigns (registerInternalValues internalValues)
| assigns_preStartFunction (preStartfunction : PreStartFunction) :
    Assigns (registerPreStartFunction preStartfunction)
| assigns_plugin (plugin : Plugin.t) : Assigns (fun this => fst (registerPlugin plugin this))
| assigns_started : Assigns (fun this => this <| hasExecutedPreStart := true |>)
| assigns_pipeline (f : GQLRegistry -> GQLRegistry) : pipelineUpdate f -> Assigns f
| assigns_processed : Assigns (fun this => this <| hasProcessedPlugins := true |>)
| assigns_wrapped (name : string) (remote : RegisterRemoteSchemaArgs.t)
    (wrappedSchema : GraphQLSchema) :
    Assigns (fun this =>
      this <| remoteSchemas :=
        obj_set (remoteSchemas this) name
          (remote <| RegisterRemoteSchemaArgs.executable := Some wrappedSchema |>) |>)
| assigns_cached (gatewaySchema : GraphQLSchema) :
    Assigns (fun this => this <| executableSchema := Some gatewaySchema |>).

(** A use of the public surface: a step, the registration of a setup
    callback, or a direct call of a merge method or of the pipeline. *)
Inductive Use : Type :=
| use_step (s : Step)
| use_registerPreStartFunction (preStartfunction : PreStartFunction)
| use_merge (c : Category) (incoming : list Node)
| use_processPlugins.

Definition afterUse (u : Use) (w : World) : World :=
  match u with
  | use_step s => after s w
  | use_registerPreStartFunction preStartfunction =>
      mkWorld (registerPreStartFunction preStartfunction (this w)) (log w)
  | use_merge c incoming => mkWorld (merge c incoming (this w)) (log w)
  | use_processPlugins => snd (processPlugins w)
  end.

Definition afterUses (l : list Use) (w : World) : World :=
  fold_left (fun w u => afterUse u w) l w.

(** The merges [registerTypeExtension] makes, in order. *)
Definition extensionMergesOf (args : RegisterTypeExtensionArgs.t)
    : list (Category * list Node) :=
  [(ExtensionType,
    match RegisterTypeExtensionArgs.extensionTypeDefinitions args with
    | Some extensionTypeDefinitions => definitions extensionTypeDefinitions
    | None => []
    end);
   (ExtensionQuery,
    rootFields "Query" (RegisterTypeExtensionArgs.extensionQueryDefinitions args));
   (ExtensionMutation,
    rootFields "Mutation" (RegisterTypeExtensionArgs.extensionMutationDefinitions args));
   (ExtensionSubscription,
    rootFields "Subscription"
      (RegisterTypeExtensionArgs.extensionSubscriptionDefinitions args))].

(** In each of the nine declaration sequences no two entries share a name. *)
Definition uniqueNames (r : GQLRegistry) : Prop :=
  forall c, NoDup (names (store c r)).

(** Every plugin in the list refers back to this registry. *)
Definition pointBack (r : GQLRegistry) : Prop :=
  Forall (fun p => Plugin.registry p = Some (instance r)) (plugins r).

(** A setup callback that registers two plugins under one name and a type. *)
Definition crowdedSetup : PreStartFunction :=
  mkPreStartFunction
    [call_registerPlugin (adds 1 "inherit" "Node");
     call_registerPlugin (adds 2 "inherit" "Edge");
     call_registerType (typesOnly [objectType "Book" "v1"; objectType "Book" "v2"])]
    (Returns tt).

(** Uses of a registry that register, build, clear and build again. *)
Definition busyUses : list Use :=
  [use_registerPreStartFunction crowdedSetup;
   use_step (register (call_registerPlugin (watches 3 "watch")));
   use_step (finish executable);
   use_merge Type_ [objectType "Node" "again"];
   use_step (register call_clear);
   use_step (register (call_registerPlugin (watches 4 "watch")));
   use_processPlugins;
   use_step (finish declarations)].

(** The warnings a [checkForDuplicate...] loop prints for [incoming] against
    the [sequence] it finds: one for each incoming declaration of a kind it
    accepts whose name the sequence has, in order. *)
Definition duplicateWarnings (what : string) (accept : Node -> bool)
    (sequence incoming : list Node) : list Event :=
  map (fun new =>
         console_warn
           ("WARNING: " ++ what ++ " with name " ++ name_value new ++ " already registered")%string)
    (filter (fun new => accept new && existsb (sameName new) sequence) incoming).

Definition isFieldDefinition (d : Node) : bool := kind d =? Kind.FIELD_DEFINITION.

(** [document?.definitions], as the loops that follow see it *)
Definition definitionsOf (document : option DocumentNode) : list Node :=
  match document with
  | Some document => definitions document
  | None => []
  end.

(** [m] returns, leaves the registry [f] makes of the one it found, and
    adds to the log the [events] of the registry it found. *)
Definition says (m : M unit) (f : GQLRegistry -> GQLRegistry)
    (events : GQLRegistry -> list Event) : Prop :=
  forall w, m w = (Returns tt, mkWorld (f (this w)) (log w ++ events (this w))).

(** The members [getResolvers] and [getExtensionResolvers] add for the field
    resolvers: one object for each of Query, Mutation, Subscription whose
    resolver map has a key, holding a copy of that map. *)
Definition resolverContainers (query mutation subscription : Obj Value) : Obj Value :=
  flat_map (fun category =>
              if negb (List.length (keys (snd category)) =? 0)%nat
              then [(fst category, Object (spread (snd category) []))]
              else [])
    [("Query", query); ("Mutation", mutation); ("Subscription", subscription)].

(** [over[k] ?? under[k]] *)
Definition shadowing {V : Type} (over under : Obj V) (k : string) : option V :=
  match obj_get over k with
  | Some v => Some v
  | None => obj_get under k
  end.


(** [registry.registerDirectives({ directiveResolvers: { [name]: resolver } })] *)
Definition oneDirective (name : string) (resolver : DirectiveResolver)
    : RegisterDirectiveArgs.t :=
  RegisterDirectiveArgs.mk None (Some [(name, resolver)]).

(** A registry that has been built once, with two directives registered. *)
Definition builtWorld : World :=
  snd (getFederatableSchema
         (snd (registerDirectives (oneDirective "auth" (mapSchema "auth"))
                (snd (registerDirectives (oneDirective "upper" (mapSchema "upper"))
                        (worldWith [adds 1 "inherit" "Node"])))))).

(** A registry with one plugin and a setup callback that rejects. *)
Definition brokenSetupWorld : World :=
  mkWorld
    (registerPreStartFunction (mkPreStartFunction [] (Throws "no database"))
       (registryWith [adds 1 "inherit" "Node"])) [].

(** A finished registry that knows a remote source whose supplier rejects. *)
Definition unreachableWorld : World :=
  mkWorld
    ((registerRemoteSchema
        (RegisterRemoteSchemaArgs.mk "users" (Some (Throws "connection refused")) None
           "http" None None)
        (new_GQLRegistry 0))
       <| hasExecutedPreStart := true |>
       <| hasProcessedPlugins := true |>) [].

(** The wrapped form of a descriptor's resolved source, if it has one. *)
Definition wrappedSource (remote : RegisterRemoteSchemaArgs.t) : option GraphQLSchema :=
  option_map
    (fun source =>
       transformSchema source (RegisterRemoteSchemaArgs.executor remote)
         (RegisterRemoteSchemaArgs.transforms remote))
    (sourceOf remote).

(** The descriptor once the build loop has been over it. *)
Definition remembering (remote : RegisterRemoteSchemaArgs.t) : RegisterRemoteSchemaArgs.t :=
  match wrappedSource remote with
  | Some wrappedSchema =>
      remote <| RegisterRemoteSchemaArgs.executable := Some wrappedSchema |>
  | None => remote
  end.

Definition supplierRejects (remote : RegisterRemoteSchemaArgs.t) : bool :=
  match RegisterRemoteSchemaArgs.asyncSchema remote with
  | Some (Throws _) => true
  | _ => false
  end.

(** The wrapped sources of the descriptors that have one, in key order. *)
Definition wrappedSources (remotes : Obj RegisterRemoteSchemaArgs.t) : list GraphQLSchema :=
  flat_map (fun member =>
              match wrappedSource (snd member) with
              | Some wrappedSchema => [wrappedSchema]
              | None => []
              end) remotes.

Definition remembered (remotes : Obj RegisterRemoteSchemaArgs.t)
    : Obj RegisterRemoteSchemaArgs.t :=
  map (fun member => (fst member, remembering (snd member))) remotes.

(** What the build that follows the pipeline leaves as it finds it. *)
Definition sameButArtifacts (w w' : World) : Prop :=
  snapshot (this w') = snapshot (this w) /\
  log w' = log w /\
  plugins (this w') = plugins (this w) /\
  hasExecutedPreStart (this w') = hasExecutedPreStart (this w) /\
  hasProcessedPlugins (this w') = hasProcessedPlugins (this w).

(** What the pipeline never assigns, its own flag apart. *)
Definition untouchedByPipeline (r r' : GQLRegistry) : Prop :=
  instance r' = instance r /\
  remoteSchemas r' = remoteSchemas r /\
  internalValues r' = internalValues r /\
  executableSchema r' = executableSchema r /\
  dataSources r' = dataSources r /\
  preStartFunctions r' = preStartFunctions r /\
  hasExecutedPreStart r' = hasExecutedPreStart r /\
  plugins r' = plugins r.

(** The re-broadcast [updatePluginSchemas] makes from the registry [r]: one
    call for each plugin that listens, in registration order. *)
Definition broadcastOf (r : GQLRegistry) : list Event :=
  flat_map (fun plugin =>
              match Plugin.schemaUpdated plugin with
              | Some _ => [hook_called (Plugin.self plugin) Hook.schemaUpdated None (snapshot r)]
              | None => []
              end) (plugins r).

(** A plugin that listens to the re-broadcast. *)
Definition follows (self : nat) (name : string) : Plugin.t :=
  (barePlugin self name) <| Plugin.schemaUpdated := Some (fun _ _ => Returns tt) |>.

(** A plugin that extends the resolvers of every definition it is shown. *)
Definition extendsAll (self : nat) (name : string) : Plugin.t :=
  (barePlugin self name)
    <| Plugin.addTypeResolverExtensionsForTypeDefinition :=
         Some (fun d _ _ => Returns (Some [(name_value d, Fn "extended")])) |>.

(** The hooks of the second, third and fourth loop of the pipeline, and the
    re-broadcast: every hook but the three of the first and the last loop. *)
Definition middleHook (h : Hook.t) : bool :=
  negb (Hook.eqb h Hook.setInitialSchema
        || Hook.eqb h Hook.validateSchema
        || Hook.eqb h Hook.setFinalSchema).

(** The call [e] is one of a hook of the last loop. *)
Definition isFinalCall (e : Event) : bool :=
  isCallOf Hook.validateSchema e || isCallOf Hook.setFinalSchema e.

(** The documents a call was handed. *)
Definition documentsOf (e : Event) : option (DocumentNode * DocumentNode) :=
  match e with
  | hook_called _ _ _ documents => documents
  | console_warn _ => None
  end.

(** * Properties *)

Unset Implicit Arguments.

(** ** Arrays *)

Lemma sameName_sym (a b : Node) : sameName a b = sameName b a.
Proof. unfold sameName. apply String.eqb_sym. Qed.

Lemma existsb_sameName_In (d : Node) (l : list Node) :
  existsb (sameName d) l = true <-> In (name_value d) (names l).
Proof.
  unfold names. rewrite existsb_exists, in_map_iff. unfold sameName.
  split; intros [x [H1 H2]]; exists x.
  - apply String.eqb_eq in H2. auto.
  - rewrite H1, String.eqb_refl. auto.
Qed.

Lemma existsb_sameName_notIn (d : Node) (l : list Node) :
  existsb (sameName d) l = false <-> ~ In (name_value d) (names l).
Proof.
  rewrite <- existsb_sameName_In. destruct (existsb (sameName d) l); intuition congruence.
Qed.

Lemma filter_sameName_notIn (d : Node) (l : list Node) :
  ~ In (name_value d) (names l) -> filter (fun x => negb (sameName d x)) l = l.
Proof.
  induction l as [|x l IH]; simpl; intros H; [reflexivity|].
  unfold sameName at 1.
  destruct (String.eqb_spec (name_value x) (name_value d)) as [E|E]; simpl.
  - exfalso. apply H. left. exact E.
  - rewrite IH; [reflexivity|]. intros HI. apply H. right. exact HI.
Qed.

Lemma evictAndPush_filter (store_ : list Node) (d : Node) :
  NoDup (names store_) ->
  evictAndPush store_ d = filter (fun x => negb (sameName d x)) store_ ++ [d].
Proof.
  unfold evictAndPush, push. intros ND. f_equal.
  induction store_ as [|x l IH]; simpl; [reflexivity|].
  inversion ND as [|? ? Hx ND']; subst.
  destruct (sameName d x) eqn:E; simpl.
  - unfold splice. simpl.
    rewrite filter_sameName_notIn; [reflexivity|].
    unfold sameName in E. apply String.eqb_eq in E. rewrite <- E. exact Hx.
  - specialize (IH ND').
    destruct (findIndex (sameName d) l) as [i|]; simpl.
    + unfold splice in *. simpl. f_equal. exact IH.
    + f_equal. exact IH.
Qed.

Lemma names_filter_subset (p : Node -> bool) (l : list Node) (n : string) :
  In n (names (filter p l)) -> In n (names l).
Proof.
  unfold names. rewrite !in_map_iff. intros [x [H1 H2]].
  apply filter_In in H2. exists x. tauto.
Qed.

Lemma NoDup_names_filter (p : Node -> bool) (l : list Node) :
  NoDup (names l) -> NoDup (names (filter p l)).
Proof.
  induction l as [|x l IH]; simpl; intros ND; [constructor|].
  inversion ND as [|? ? Hx ND']; subst.
  destruct (p x); simpl; [constructor|]; auto.
  intros HI. apply Hx. eapply names_filter_subset. exact HI.
Qed.

Lemma names_keepLast (l : list Node) (n : string) :
  In n (names (keepLast l)) <-> In n (names l).
Proof.
  induction l as [|x l IH]; simpl; [tauto|].
  destruct (existsb (sameName x) l) eqn:E; simpl; rewrite IH; [|tauto].
  apply existsb_sameName_In in E. split; [tauto|]. intros [H|H]; subst; auto.
Qed.

Lemma existsb_sameName_keepLast (d : Node) (l : list Node) :
  existsb (sameName d) (keepLast l) = existsb (sameName d) l.
Proof.
  destruct (existsb (sameName d) l) eqn:E.
  - apply existsb_sameName_In. apply names_keepLast. apply existsb_sameName_In. exact E.
  - apply existsb_sameName_notIn. rewrite names_keepLast.
    apply existsb_sameName_notIn. exact E.
Qed.

Lemma NoDup_keepLast (l : list Node) : NoDup (names (keepLast l)).
Proof.
  induction l as [|x l IH]; simpl; [constructor|].
  destruct (existsb (sameName x) l) eqn:E; simpl; [exact IH|].
  constructor; [|exact IH].
  rewrite names_keepLast. apply existsb_sameName_notIn. exact E.
Qed.

Lemma keepLast_NoDup (l : list Node) : NoDup (names l) -> keepLast l = l.
Proof.
  induction l as [|x l IH]; simpl; intros ND; [reflexivity|].
  inversion ND as [|? ? Hx ND']; subst.
  apply existsb_sameName_notIn in Hx. rewrite Hx, IH; auto.
Qed.

Lemma keepLast_snoc (l : list Node) (d : Node) :
  keepLast (l ++ [d]) = filter (fun x => negb (sameName d x)) (keepLast l) ++ [d].
Proof.
  induction l as [|x l IH]; simpl; [reflexivity|].
  rewrite existsb_app. simpl. rewrite orb_false_r.
  rewrite (sameName_sym x d).
  destruct (sameName d x) eqn:E.
  - rewrite orb_true_r, IH.
    destruct (existsb (sameName x) l); simpl; [reflexivity|].
    rewrite E. reflexivity.
  - rewrite orb_false_r.
    destruct (existsb (sameName x) l); simpl; [exact IH|].
    rewrite E. simpl. f_equal. exact IH.
Qed.

Lemma upsertAll_app (accept : Node -> bool) (s : list Node) (l1 l2 : list Node) :
  upsertAll accept s (l1 ++ l2) = upsertAll accept (upsertAll accept s l1) l2.
Proof. unfold upsertAll. apply fold_left_app. Qed.

(** The loop of a merge method keeps, of all the entries that ever arrived
    under a name, the last one, at the place of its arrival. *)
Lemma upsertAll_keepLast (accept : Node -> bool) (a incoming : list Node) :
  upsertAll accept (keepLast a) incoming = keepLast (a ++ filter accept incoming).
Proof.
  induction incoming as [|d ds IH] using rev_ind.
  - simpl. rewrite app_nil_r. reflexivity.
  - rewrite upsertAll_app, IH, filter_app. simpl.
    destruct (accept d); simpl.
    + rewrite app_assoc, keepLast_snoc.
      apply evictAndPush_filter. apply NoDup_keepLast.
    + rewrite app_nil_r. reflexivity.
Qed.

(** ** The merge engine *)

Lemma merge_cons (c : Category) (d : Node) (ds : list Node) (this : GQLRegistry) :
  merge c (d :: ds) this = merge c ds (merge c [d] this).
Proof. destruct c; reflexivity. Qed.

Lemma store_merge_one (c c' : Category) (d : Node) (this : GQLRegistry) :
  store c' (merge c [d] this)
  = if routes c c' d then evictAndPush (store c' this) d else store c' this.
Proof.
  destruct c, c'; cbn [merge routes store];
    unfold mergeIncomingDirectives, mergeIncomingTypes, mergeIncomingExtensionTypes,
      mergeIncomingQueries, mergeIncomingExtensionQueries, mergeIncomingMutations,
      mergeIncomingExtensionMutations, mergeIncomingSubscriptions,
      mergeIncomingExtensionSubscriptions; cbn [fold_left];
    repeat match goal with
           | |- context [if ?b then _ else _] => destruct b; cbn [negb andb]
           end;
    reflexivity.
Qed.

(** Each merge method runs the one loop on the sequences it feeds and leaves
    the others alone. *)
Lemma store_merge (c c' : Category) (incoming : list Node) (this : GQLRegistry) :
  store c' (merge c incoming this) = upsertAll (routes c c') (store c' this) incoming.
Proof.
  revert this.
  induction incoming as [|d ds IH]; intros this; [destruct c; reflexivity|].
  rewrite merge_cons, IH, store_merge_one. reflexivity.
Qed.

(** ** Reasoning about methods *)

Section Triples.
Context {A : Type}.

Lemma triple_ret (P : World -> Prop) (a : A) (Q : A -> World -> Prop) (E : World -> Prop) :
  (forall w, P w -> Q a w) -> triple P (ret a) Q E.
Proof. intros H w Hw. simpl. auto. Qed.

Lemma triple_throw (P : World -> Prop) (error : string) (Q : A -> World -> Prop)
    (E : World -> Prop) :
  (forall w, P w -> E w) -> triple P (throw error) Q E.
Proof. intros H w Hw. simpl. auto. Qed.

Lemma triple_settle (P : World -> Prop) (o : Outcome A) (Q : A -> World -> Prop)
    (E : World -> Prop) :
  (forall a w, o = Returns a -> P w -> Q a w) ->
  (forall error w, o = Throws error -> P w -> E w) ->
  triple P (settle o) Q E.
Proof. intros H1 H2 w Hw. destruct o; simpl; eauto. Qed.

Lemma triple_weaken (P P' : World -> Prop) (m : M A) (Q Q' : A -> World -> Prop)
    (E E' : World -> Prop) :
  triple P' m Q' E' ->
  (forall w, P w -> P' w) -> (forall a w, Q' a w -> Q a w) -> (forall w, E' w -> E w) ->
  triple P m Q E.
Proof.
  intros H HP HQ HE w Hw. specialize (H w (HP w Hw)).
  destruct (m w) as [[a|error] w']; auto.
Qed.

Lemma triple_bind {B : Type} (P : World -> Prop) (m : M B) (R : B -> World -> Prop)
    (k : B -> M A) (Q : A -> World -> Prop) (E : World -> Prop) :
  triple P m R E -> (forall b, triple (R b) (k b) Q E) -> triple P (bind m k) Q E.
Proof.
  intros Hm Hk w Hw. unfold bind. specialize (Hm w Hw).
  destruct (m w) as [[b|error] w']; [apply Hk|]; exact Hm.
Qed.

Lemma triple_exists {X : Type} (P : X -> World -> Prop) (m : M A)
    (Q : A -> World -> Prop) (E : World -> Prop) :
  (forall x, triple (P x) m Q E) -> triple (fun w => exists x, P x w) m Q E.
Proof. intros H w [x Hx]. exact (H x w Hx). Qed.

Lemma triple_and_pure (C : Prop) (P : World -> Prop) (m : M A)
    (Q : A -> World -> Prop) (E : World -> Prop) :
  (C -> triple P m Q E) -> triple (fun w => C /\ P w) m Q E.
Proof. intros H w [HC Hw]. exact (H HC w Hw). Qed.
End Triples.

Lemma triple_getThis (P : World -> Prop) (E : World -> Prop) :
  triple P getThis (fun r w => P w /\ r = this w) E.
Proof. intros w Hw. simpl. auto. Qed.

Lemma triple_modify (P : World -> Prop) (f : GQLRegistry -> GQLRegistry)
    (Q : unit -> World -> Prop) (E : World -> Prop) :
  (forall w, P w -> Q tt (mkWorld (f (this w)) (log w))) -> triple P (modify f) Q E.
Proof. intros H w Hw. destruct w. simpl. apply (H _ Hw). Qed.

Lemma triple_emit (P : World -> Prop) (e : Event) (Q : unit -> World -> Prop)
    (E : World -> Prop) :
  (forall w, P w -> Q tt (mkWorld (this w) (log w ++ [e]))) -> triple P (emit e) Q E.
Proof. intros H w Hw. destruct w. simpl. apply (H _ Hw). Qed.

Lemma triple_foldM {A B : Type} (I : B -> World -> Prop) (E : World -> Prop)
    (l : list A) (body : B -> A -> M B) (acc : B) :
  (forall acc x, In x l -> triple (I acc) (body acc x) I E) ->
  triple (I acc) (foldM l acc body) I E.
Proof.
  revert acc. induction l as [|x l IH]; intros acc H; simpl.
  - apply triple_ret. auto.
  - eapply triple_bind.
    + apply H. left. reflexivity.
    + intros acc'. apply IH. intros. apply H. right. assumption.
Qed.

Lemma triple_forEach {A : Type} (I : World -> Prop) (E : World -> Prop)
    (l : list A) (body : A -> M unit) :
  (forall x, In x l -> triple I (body x) (fun _ => I) E) ->
  triple I (forEach l body) (fun _ => I) E.
Proof. intros H. unfold forEach. apply (triple_foldM (fun _ => I)). intros _. exact H. Qed.

(** A loop some turn of which always throws never returns. *)
Lemma triple_forEach_throws {A : Type} (I : World -> Prop) (l : list A)
    (body : A -> M unit) (x : A) :
  In x l ->
  (forall y, In y l -> keeps I (body y)) ->
  triple I (body x) (fun _ _ => False) I ->
  triple I (forEach l body) (fun _ _ => False) I.
Proof.
  unfold forEach. induction l as [|y l IH]; intros Hin Hk Hx; [destruct Hin|].
  simpl. destruct Hin as [Hy|Hin].
  - subst y. eapply triple_bind; [exact Hx|]. intros u w Hw. destruct Hw.
  - eapply triple_bind; [apply Hk; left; reflexivity|].
    intros u. destruct u. apply IH; auto. intros. apply Hk. right. assumption.
Qed.

Lemma keeps_bind {A B : Type} (I : World -> Prop) (m : M A) (k : A -> M B) :
  keeps I m -> (forall a, keeps I (k a)) -> keeps I (bind m k).
Proof. intros Hm Hk. eapply triple_bind; [exact Hm|exact Hk]. Qed.

Lemma keeps_ret {A : Type} (I : World -> Prop) (a : A) : keeps I (ret a).
Proof. apply triple_ret. auto. Qed.

Lemma keeps_settle {A : Type} (I : World -> Prop) (o : Outcome A) : keeps I (settle o).
Proof. apply triple_settle; auto. Qed.

Lemma keeps_getThis (I : World -> Prop) : keeps I getThis.
Proof. intros w Hw. simpl. exact Hw. Qed.

Lemma keeps_foldM {A B : Type} (I : World -> Prop) (l : list A) (body : B -> A -> M B)
    (acc : B) :
  (forall acc x, In x l -> keeps I (body acc x)) -> keeps I (foldM l acc body).
Proof. intros H. apply (triple_foldM (fun _ => I)). exact H. Qed.

Lemma keeps_forEach {A : Type} (I : World -> Prop) (l : list A) (body : A -> M unit) :
  (forall x, In x l -> keeps I (body x)) -> keeps I (forEach l body).
Proof. intros H. apply triple_forEach. exact H. Qed.

Lemma keeps_if {A : Type} (I : World -> Prop) (b : bool) (m1 m2 : M A) :
  keeps I m1 -> keeps I m2 -> keeps I (if b then m1 else m2).
Proof. destruct b; auto. Qed.

(** Reading the registry and going on is going on with what was read. *)
Lemma keeps_read {A : Type} (I : World -> Prop) (k : GQLRegistry -> M A) :
  (forall r, keeps (fun w => I w /\ r = this w) (k r)) -> keeps I (bind getThis k).
Proof.
  intros H w Hw. unfold bind, getThis.
  specialize (H (this w) w (conj Hw eq_refl)).
  destruct (k (this w) w) as [[a|error] w']; tauto.
Qed.

Lemma triple_read {A : Type} (P : World -> Prop) (k : GQLRegistry -> M A)
    (Q : A -> World -> Prop) (E : World -> Prop) :
  (forall r, triple (fun w => P w /\ this w = r) (k r) Q E) ->
  triple P (bind getThis k) Q E.
Proof.
  intros H w Hw. unfold bind, getThis. apply (H (this w)). auto.
Qed.

Lemma triple_read_pure {A : Type} (P : World -> Prop) (k : GQLRegistry -> M A)
    (Q : A -> World -> Prop) (E : World -> Prop) :
  (forall r, (exists w, P w /\ r = this w) -> triple P (k r) Q E) ->
  triple P (bind getThis k) Q E.
Proof.
  intros H w Hw. unfold bind, getThis.
  apply (H (this w)); [exists w; auto|exact Hw].
Qed.

Lemma triple_pure {A : Type} (C : Prop) (P : World -> Prop) (m : M A)
    (Q : A -> World -> Prop) (E : World -> Prop) :
  (forall w, P w -> C) -> (C -> triple P m Q E) -> triple P m Q E.
Proof. intros HC H w Hw. exact (H (HC w Hw) w Hw). Qed.

Lemma triple_strengthen {A : Type} (P P' : World -> Prop) (m : M A)
    (Q : A -> World -> Prop) (E : World -> Prop) :
  triple P' m Q E -> (forall w, P w -> P' w) -> triple P m Q E.
Proof. intros H HP. eapply triple_weaken; eauto. Qed.

(** ** Invariants of the pipeline

    An invariant that survives the log growing by an event in [ok], and the
    registry changing by one of the pipeline's updates, survives every step
    of the pipeline that only makes calls in [ok]. *)

Section PipelineInvariant.
Variable I : World -> Prop.
Variable ok : Event -> Prop.
Hypothesis I_emit : forall e w, ok e -> I w -> I (mkWorld (this w) (log w ++ [e])).
Hypothesis I_update :
  forall f w, pipelineUpdate f -> I w -> I (mkWorld (f (this w)) (log w)).
Hypothesis broadcast_ok :
  forall w p docs, I w -> In p (plugins (this w)) ->
    ok (hook_called (Plugin.self p) Hook.schemaUpdated None docs).

Lemma keeps_read_pure {A : Type} (k : GQLRegistry -> M A) :
  (forall r, (exists w, I w /\ r = this w) -> keeps I (k r)) -> keeps I (bind getThis k).
Proof.
  intros H w Hw. unfold bind, getThis.
  apply (H (this w)); [exists w; auto|exact Hw].
Qed.

Lemma keeps_emit (e : Event) : ok e -> keeps I (emit e).
Proof. intros He. apply triple_emit. intros w Hw. apply I_emit; assumption. Qed.

Lemma keeps_update (f : GQLRegistry -> GQLRegistry) :
  pipelineUpdate f -> keeps I (modify f).
Proof. intros Hf. apply triple_modify. intros w Hw. apply I_update; assumption. Qed.

Lemma keeps_invoke {X : Type} (p : Plugin.t) (h : Hook.t) (d : option Node)
    (docs : option (DocumentNode * DocumentNode)) (method : option (Outcome X)) :
  ok (hook_called (Plugin.self p) h d docs) -> keeps I (invoke p h d docs method).
Proof.
  intros He. destruct method as [o|]; simpl; [|apply keeps_ret].
  apply keeps_bind; [apply keeps_emit; exact He|]. intros _.
  apply keeps_bind; [apply keeps_settle|]. intros x. apply keeps_ret.
Qed.

Lemma keeps_updatePluginSchemas : keeps I updatePluginSchemas.
Proof.
  unfold updatePluginSchemas. apply keeps_read_pure. intros r [w0 [Hw0 Hr]].
  apply keeps_forEach. intros p Hp.
  apply keeps_read_pure. intros r' _.
  apply keeps_bind; [|intros; apply keeps_ret].
  apply keeps_invoke. apply (broadcast_ok w0); [exact Hw0|]. rewrite <- Hr. exact Hp.
Qed.

Section Step.
Variables (schema extensions : DocumentNode) (p : Plugin.t) (hooks : Hook.t -> Prop).
Hypothesis calls_ok : callsOk ok p (Some (schema, extensions)) hooks.

Lemma keeps_callGlobal {X : Type} (h : Hook.t)
    (method : option (DocumentNode -> DocumentNode -> Outcome X)) :
  hooks h -> keeps I (callGlobal p h method schema extensions).
Proof. intros Hh. apply keeps_invoke. apply calls_ok. exact Hh. Qed.

Lemma keeps_callPerDefinition {X : Type} (h : Hook.t)
    (method : option (Node -> DocumentNode -> DocumentNode -> Outcome X)) (d : Node) :
  hooks h -> keeps I (callPerDefinition p h method d schema extensions).
Proof. intros Hh. apply keeps_invoke. apply calls_ok. exact Hh. Qed.

Lemma keeps_perDefinitionStep (oh : Hook.t) (om : PerDefinition (list Node))
    (mrg : list Node -> GQLRegistry -> GQLRegistry) (didUpdate : bool) :
  hooks oh -> (forall new, pipelineUpdate (mrg new)) ->
  keeps I (perDefinitionStep oh om mrg schema extensions p didUpdate).
Proof.
  intros Ho Hm. unfold perDefinitionStep.
  apply keeps_bind.
  { apply keeps_foldM. intros acc d _.
    apply keeps_bind; [apply keeps_callPerDefinition; exact Ho|]. intros answer'.
    destruct (truthy answer'); [|apply keeps_ret].
    apply keeps_bind; [apply keeps_update; apply Hm|]. intros; apply keeps_ret. }
  intros didUpdate'. apply keeps_if; [apply keeps_updatePluginSchemas|apply keeps_ret].
Qed.

Lemma keeps_definitionsStep (gh : Hook.t) (gm : Global (list Node)) (oh : Hook.t)
    (om : PerDefinition (list Node))
    (mrg : list Node -> GQLRegistry -> GQLRegistry) :
  hooks gh -> hooks oh -> (forall new, pipelineUpdate (mrg new)) ->
  keeps I (definitionsStep gh gm oh om mrg schema extensions p).
Proof.
  intros Hg Ho Hm. unfold definitionsStep.
  apply keeps_bind; [apply keeps_callGlobal; exact Hg|]. intros answer.
  apply keeps_bind.
  { destruct (truthy answer); [|apply keeps_ret].
    apply keeps_bind; [apply keeps_update; apply Hm|]. intros; apply keeps_ret. }
  intros didUpdate. apply keeps_perDefinitionStep; assumption.
Qed.

Lemma keeps_extensionDefinitionsStep (oh : Hook.t) (om : PerDefinition (list Node))
    (mrg : list Node -> GQLRegistry -> GQLRegistry) :
  hooks oh -> (forall new, pipelineUpdate (mrg new)) ->
  keeps I (extensionDefinitionsStep oh om mrg schema extensions p).
Proof. apply keeps_perDefinitionStep. Qed.

Lemma keeps_extensionResolversStep (oh : Hook.t) (om : PerDefinition (Obj Value))
    (assign : Obj Value -> GQLRegistry -> GQLRegistry) :
  hooks oh -> (forall new, pipelineUpdate (assign new)) ->
  keeps I (extensionResolversStep oh om assign schema extensions p).
Proof.
  intros Ho Hm. unfold extensionResolversStep.
  apply keeps_forEach. intros d _.
  apply keeps_bind; [apply keeps_callPerDefinition; exact Ho|]. intros answer'.
  destruct (truthy answer'); [|apply keeps_ret].
  apply keeps_update; apply Hm.
Qed.

Lemma keeps_resolversStep (gh : Hook.t) (gm : Global (Obj Value)) (oh : Hook.t)
    (om : PerDefinition (Obj Value))
    (assign : Obj Value -> GQLRegistry -> GQLRegistry) :
  hooks gh -> hooks oh -> (forall new, pipelineUpdate (assign new)) ->
  keeps I (resolversStep gh gm oh om assign schema extensions p).
Proof.
  intros Hg Ho Hm. unfold resolversStep.
  apply keeps_bind; [apply keeps_callGlobal; exact Hg|]. intros answer.
  apply keeps_bind.
  { destruct (truthy answer); [|apply keeps_ret]. apply keeps_update; apply Hm. }
  intros _. apply (keeps_extensionResolversStep oh om assign Ho Hm).
Qed.

Lemma keeps_rewriteTypes (h : Hook.t) (method : PerDefinition Node) :
  hooks h ->
  keeps I
    (newTypeDefinitions <-
       foldM (definitions schema) [] (fun newTypeDefinitions typeDefinition =>
         updatedTypeDefiniton <-
           callPerDefinition p h method typeDefinition schema extensions ;;
         match truthy updatedTypeDefiniton with
         | Some updatedTypeDefiniton =>
             ret (push newTypeDefinitions updatedTypeDefiniton)
         | None => ret newTypeDefinitions
         end) ;;
     if negb (List.length newTypeDefinitions =? 0)%nat then
       modify (mergeIncomingTypes newTypeDefinitions) ;;
       updatePluginSchemas
     else ret tt).
Proof.
  intros Hh. apply keeps_bind.
  { apply keeps_foldM. intros acc d _.
    apply keeps_bind; [apply keeps_callPerDefinition; exact Hh|]. intros answer.
    destruct (truthy answer); apply keeps_ret. }
  intros new. apply keeps_if; [|apply keeps_ret].
  apply keeps_bind; [apply keeps_update; apply (update_merge Type_)|].
  intros _. apply keeps_updatePluginSchemas.
Qed.

Lemma keeps_preProcessPluginUpdateTypes :
  hooks Hook.addPrePropertiesToTypeDefinition ->
  keeps I (preProcessPluginUpdateTypes schema extensions p).
Proof. apply keeps_rewriteTypes. Qed.

Lemma keeps_postProcessPluginUpdateTypes :
  hooks Hook.addPostPropertiesToTypeDefinition ->
  keeps I (postProcessPluginUpdateTypes schema extensions p).
Proof. apply keeps_rewriteTypes. Qed.

Lemma keeps_processPluginDirectiveDefinitions :
  hooks Hook.addDirectiveDefinitions ->
  keeps I (processPluginDirectiveDefinitions schema extensions p).
Proof.
  intros Hh. unfold processPluginDirectiveDefinitions.
  apply keeps_bind; [apply keeps_callGlobal; exact Hh|]. intros answer.
  destruct (truthy answer); [|apply keeps_ret].
  apply keeps_bind; [apply keeps_update; apply (update_merge Directive)|].
  intros _. apply keeps_updatePluginSchemas.
Qed.

Lemma keeps_processPluginDirectiveResolvers :
  hooks Hook.addDirectiveResolvers ->
  keeps I (processPluginDirectiveResolvers schema extensions p).
Proof.
  intros Hh. unfold processPluginDirectiveResolvers.
  apply keeps_bind; [apply keeps_callGlobal; exact Hh|]. intros answer.
  destruct (truthy answer); [|apply keeps_ret].
  apply keeps_update. constructor.
Qed.

Lemma keeps_initialNotifyTurn :
  hooks Hook.setInitialSchema -> keeps I (initialNotifyTurn schema extensions p).
Proof.
  intros Hh. unfold initialNotifyTurn.
  apply keeps_bind; [apply keeps_callGlobal; exact Hh|]. intros; apply keeps_ret.
Qed.

Lemma keeps_finalizeTurn :
  hooks Hook.validateSchema -> hooks Hook.setFinalSchema ->
  keeps I (finalizeTurn schema extensions p).
Proof.
  intros Hv Hf. unfold finalizeTurn.
  apply keeps_bind; [apply keeps_callGlobal; exact Hv|]. intros _.
  apply keeps_bind; [apply keeps_callGlobal; exact Hf|]. intros; apply keeps_ret.
Qed.
Lemma keeps_processPluginTypeDefinitions :
  hooks Hook.addTypeDefinitions -> hooks Hook.addTypeDefinitionsForTypeDefinition ->
  keeps I (processPluginTypeDefinitions schema extensions p).
Proof.
  intros Hg Ho. apply keeps_definitionsStep; auto.
  intros new. exact (update_merge Type_ new).
Qed.

(** The fifteen sub-steps that follow the type definitions in a turn of
    the main phase. *)
Lemma keeps_mainPhaseRest :
  (forall h, h <> Hook.addTypeDefinitions -> hooks h) ->
  keeps I
    (processPluginTypeExtensionDefinitions schema extensions p ;;
     processPluginTypeResolvers schema extensions p ;;
     processPluginTypeExtensionResolvers schema extensions p ;;

     processPluginQueryDefinitions schema extensions p ;;
     processPluginQueryExtensionDefinitions schema extensions p ;;
     processPluginQueryResolvers schema extensions p ;;
     processPluginQueryExtensionResolvers schema extensions p ;;

     processPluginMutationDefinitions schema extensions p ;;
     processPluginMutationExtensionDefinitions schema extensions p ;;
     processPluginMutationResolvers schema extensions p ;;
     processPluginMutationExtensionResolvers schema extensions p ;;

     processPluginSubscriptionDefinitions schema extensions p ;;
     processPluginSubscriptionExtensionDefinitions schema extensions p ;;
     processPluginSubscriptionResolvers schema extensions p ;;
     processPluginSubscriptionExtensionResolvers schema extensions p).
Proof.
  intros Hrest.
  repeat (apply keeps_bind; [|intros _]);
    first [ apply keeps_definitionsStep
          | apply keeps_extensionDefinitionsStep
          | apply keeps_resolversStep
          | apply keeps_extensionResolversStep ];
    try (apply Hrest; discriminate);
    intros new;
    first [ exact (update_merge Type_ new) | exact (update_merge Query new)
          | exact (update_merge Mutation new) | exact (update_merge Subscription new)
          | exact (update_merge ExtensionType new)
          | exact (update_merge ExtensionQuery new)
          | exact (update_merge ExtensionMutation new)
          | exact (update_merge ExtensionSubscription new)
          | constructor ].
Qed.
End Step.

Lemma keeps_preProcessTurn (p : Plugin.t) :
  (forall r, (exists w, I w /\ r = this w) -> callsOk ok p (snapshot r) (fun _ => True)) ->
  keeps I (preProcessTurn p).
Proof.
  intros H. unfold preProcessTurn. apply keeps_read_pure. intros r Hr.
  apply (keeps_preProcessPluginUpdateTypes _ _ _ _ (H r Hr)). exact Logic.I.
Qed.

Lemma keeps_mainPhaseTurn (p : Plugin.t) :
  (forall r, (exists w, I w /\ r = this w) -> callsOk ok p (snapshot r) (fun _ => True)) ->
  keeps I (mainPhaseTurn p).
Proof.
  intros H. unfold mainPhaseTurn. apply keeps_read_pure. intros r Hr.
  apply keeps_bind; [|intros _].
  - apply (keeps_processPluginTypeDefinitions _ _ _ _ (H r Hr)); exact Logic.I.
  - apply (keeps_mainPhaseRest _ _ _ _ (H r Hr)). intros; exact Logic.I.
Qed.

Lemma keeps_directiveTurn (p : Plugin.t) :
  (forall r, (exists w, I w /\ r = this w) -> callsOk ok p (snapshot r) (fun _ => True)) ->
  keeps I (directiveTurn p).
Proof.
  intros H. unfold directiveTurn. apply keeps_read_pure. intros r Hr.
  apply keeps_bind;
    [apply (keeps_processPluginDirectiveDefinitions _ _ _ _ (H r Hr)); exact Logic.I|].
  intros _. apply keeps_bind;
    [apply (keeps_processPluginDirectiveResolvers _ _ _ _ (H r Hr)); exact Logic.I|].
  intros _. apply (keeps_postProcessPluginUpdateTypes _ _ _ _ (H r Hr)). exact Logic.I.
Qed.

(** The whole pipeline, when every call to a registered plugin is in [ok]:
    [Q] is what is left when it returns. *)
Section Whole.
Hypothesis all_ok :
  forall w p h d docs, I w -> In p (plugins (this w)) ->
    ok (hook_called (Plugin.self p) h d docs).
Variable Q : World -> Prop.
Hypothesis already : forall w, I w -> hasProcessedPlugins (this w) = true -> Q w.
Lemma calls_of_registered (r : GQLRegistry) (p : Plugin.t)
    (docs : option (DocumentNode * DocumentNode)) :
  (exists w, I w /\ r = this w) -> In p (plugins r) ->
  callsOk ok p docs (fun _ => True).
Proof.
  intros [w [Hw Hr]] Hp h d _. apply (all_ok w); [exact Hw|]. rewrite <- Hr. exact Hp.
Qed.

(** the first four loops keep the invariant; [Q] is up to the fifth *)
Lemma triple_processPlugins_phases :
  (forall r, (exists w, I w /\ r = this w) ->
     triple I
       (forEach (plugins r)
          (finalizeTurn (getDefinitionsDocument r) (getExtensionDefinitionsDocument r)) ;;
        modify (fun this => this <| hasProcessedPlugins := true |>))
       (fun _ => Q) I) ->
  triple I processPlugins (fun _ => Q) I.
Proof.
  intros Hfinal.
  unfold processPlugins. apply triple_read. intros r.
  destruct (hasProcessedPlugins r) eqn:Hflag.
  - apply triple_ret. intros w [Hw Hr]. apply already; [exact Hw|].
    rewrite Hr. exact Hflag.
  - apply (triple_pure (exists w, I w /\ r = this w)).
    { intros w [Hw Hr]. exists w. auto. }
    intros Hr. apply (triple_strengthen _ I); [|tauto].
    eapply triple_bind.
    { apply keeps_forEach. intros p Hp.
      apply (keeps_initialNotifyTurn _ _ _ _ (calls_of_registered r p _ Hr Hp)).
      exact Logic.I. }
    intros ?; cbv beta. apply triple_read_pure. intros r1 Hr1. eapply triple_bind.
    { apply keeps_forEach. intros p Hp. apply keeps_preProcessTurn.
      intros r' _. apply (calls_of_registered r1); assumption. }
    intros ?; cbv beta. apply triple_read_pure. intros r2 Hr2. eapply triple_bind.
    { apply keeps_forEach. intros p Hp. apply keeps_mainPhaseTurn.
      intros r' _. apply (calls_of_registered r2); assumption. }
    intros ?; cbv beta. apply triple_read_pure. intros r3 Hr3. eapply triple_bind.
    { apply keeps_forEach. intros p Hp. apply keeps_directiveTurn.
      intros r' _. apply (calls_of_registered r3); assumption. }
    intros ?; cbv beta. apply triple_read_pure. intros r4 Hr4.
    apply Hfinal. exact Hr4.
Qed.

Hypothesis completed :
  forall w, I w -> Q (mkWorld ((this w) <| hasProcessedPlugins := true |>) (log w)).

Lemma triple_processPlugins : triple I processPlugins (fun _ => Q) I.
Proof.
  apply triple_processPlugins_phases. intros r4 Hr4.
  eapply triple_bind.
  { apply keeps_forEach. intros p Hp.
    apply (keeps_finalizeTurn _ _ _ _ (calls_of_registered r4 p _ Hr4 Hp));
      exact Logic.I. }
  intros ?; cbv beta. apply triple_modify. intros w Hw. apply completed. exact Hw.
Qed.
End Whole.
End PipelineInvariant.

(** ** Outcomes of the pipeline

    The same, telling the two ways a step ends apart: [I] holds between the
    calls and when the step returns, [E] where a hook has just been called,
    which is where the step is when it throws. *)

Section PipelineOutcome.
Variable I : World -> Prop.
Variable E : World -> Prop.
Variable ok : Event -> Prop.
Hypothesis I_emit : forall e w, ok e -> I w -> I (mkWorld (this w) (log w ++ [e])).
Hypothesis E_emit : forall e w, ok e -> I w -> E (mkWorld (this w) (log w ++ [e])).
Hypothesis I_update :
  forall f w, pipelineUpdate f -> I w -> I (mkWorld (f (this w)) (log w)).
Hypothesis broadcast_ok :
  forall w p docs, I w -> In p (plugins (this w)) ->
    ok (hook_called (Plugin.self p) Hook.schemaUpdated None docs).

Local Abbreviation runs m := (triple I m (fun _ => I) E).

Lemma runs_ret {A : Type} (a : A) : runs (ret a).
Proof. apply triple_ret. auto. Qed.

Lemma runs_bind {A B : Type} (m : M A) (k : A -> M B) :
  runs m -> (forall a, runs (k a)) -> runs (bind m k).
Proof. intros Hm Hk. eapply triple_bind; [exact Hm|exact Hk]. Qed.

Lemma runs_foldM {A B : Type} (l : list A) (body : B -> A -> M B) (acc : B) :
  (forall acc x, In x l -> runs (body acc x)) -> runs (foldM l acc body).
Proof. intros H. apply (triple_foldM (fun _ => I)). exact H. Qed.

Lemma runs_forEach {A : Type} (l : list A) (body : A -> M unit) :
  (forall x, In x l -> runs (body x)) -> runs (forEach l body).
Proof. intros H. apply triple_forEach. exact H. Qed.

Lemma runs_if {A : Type} (b : bool) (m1 m2 : M A) :
  runs m1 -> runs m2 -> runs (if b then m1 else m2).
Proof. destruct b; auto. Qed.

Lemma runs_read_pure {A : Type} (k : GQLRegistry -> M A) :
  (forall r, (exists w, I w /\ r = this w) -> runs (k r)) -> runs (bind getThis k).
Proof.
  intros H w Hw. unfold bind, getThis.
  apply (H (this w)); [exists w; auto|exact Hw].
Qed.

Lemma runs_update (f : GQLRegistry -> GQLRegistry) :
  pipelineUpdate f -> runs (modify f).
Proof. intros Hf. apply triple_modify. intros w Hw. apply I_update; assumption. Qed.

(** A hook throws where it has just been called. *)
Lemma runs_invoke {X : Type} (p : Plugin.t) (h : Hook.t) (d : option Node)
    (docs : option (DocumentNode * DocumentNode)) (method : option (Outcome X)) :
  ok (hook_called (Plugin.self p) h d docs) -> runs (invoke p h d docs method).
Proof.
  intros He. destruct method as [o|]; simpl; [|apply runs_ret].
  eapply (triple_bind _ _ (fun _ w => I w /\ E w)).
  { apply triple_emit. intros w Hw. split; [apply I_emit|apply E_emit]; assumption. }
  intros _. eapply (triple_bind _ _ (fun _ => I)); [|intros x; apply runs_ret].
  apply triple_settle; tauto.
Qed.

Lemma runs_updatePluginSchemas : runs updatePluginSchemas.
Proof.
  unfold updatePluginSchemas. apply runs_read_pure. intros r [w0 [Hw0 Hr]].
  apply runs_forEach. intros p Hp.
  apply runs_read_pure. intros r' _.
  apply runs_bind; [|intros; apply runs_ret].
  apply runs_invoke. apply (broadcast_ok w0); [exact Hw0|]. rewrite <- Hr. exact Hp.
Qed.

Section StepOutcome.
Variables (schema extensions : DocumentNode) (p : Plugin.t) (hooks : Hook.t -> Prop).
Hypothesis calls_ok : callsOk ok p (Some (schema, extensions)) hooks.

Lemma runs_callGlobal {X : Type} (h : Hook.t)
    (method : option (DocumentNode -> DocumentNode -> Outcome X)) :
  hooks h -> runs (callGlobal p h method schema extensions).
Proof. intros Hh. apply runs_invoke. apply calls_ok. exact Hh. Qed.

Lemma runs_callPerDefinition {X : Type} (h : Hook.t)
    (method : option (Node -> DocumentNode -> DocumentNode -> Outcome X)) (d : Node) :
  hooks h -> runs (callPerDefinition p h method d schema extensions).
Proof. intros Hh. apply runs_invoke. apply calls_ok. exact Hh. Qed.

Lemma runs_perDefinitionStep (oh : Hook.t) (om : PerDefinition (list Node))
    (mrg : list Node -> GQLRegistry -> GQLRegistry) (didUpdate : bool) :
  hooks oh -> (forall new, pipelineUpdate (mrg new)) ->
  runs (perDefinitionStep oh om mrg schema extensions p didUpdate).
Proof.
  intros Ho Hm. unfold perDefinitionStep.
  apply runs_bind.
  { apply runs_foldM. intros acc d _.
    apply runs_bind; [apply runs_callPerDefinition; exact Ho|]. intros answer'.
    destruct (truthy answer'); [|apply runs_ret].
    apply runs_bind; [apply runs_update; apply Hm|]. intros; apply runs_ret. }
  intros didUpdate'. apply runs_if; [apply runs_updatePluginSchemas|apply runs_ret].
Qed.

Lemma runs_definitionsStep (gh : Hook.t) (gm : Global (list Node)) (oh : Hook.t)
    (om : PerDefinition (list Node))
    (mrg : list Node -> GQLRegistry -> GQLRegistry) :
  hooks gh -> hooks oh -> (forall new, pipelineUpdate (mrg new)) ->
  runs (definitionsStep gh gm oh om mrg schema extensions p).
Proof.
  intros Hg Ho Hm. unfold definitionsStep.
  apply runs_bind; [apply runs_callGlobal; exact Hg|]. intros answer.
  apply runs_bind.
  { destruct (truthy answer); [|apply runs_ret].
    apply runs_bind; [apply runs_update; apply Hm|]. intros; apply runs_ret. }
  intros didUpdate. apply runs_perDefinitionStep; assumption.
Qed.

Lemma runs_extensionDefinitionsStep (oh : Hook.t) (om : PerDefinition (list Node))
    (mrg : list Node -> GQLRegistry -> GQLRegistry) :
  hooks oh -> (forall new, pipelineUpdate (mrg new)) ->
  runs (extensionDefinitionsStep oh om mrg schema extensions p).
Proof. apply runs_perDefinitionStep. Qed.

Lemma runs_extensionResolversStep (oh : Hook.t) (om : PerDefinition (Obj Value))
    (assign : Obj Value -> GQLRegistry -> GQLRegistry) :
  hooks oh -> (forall new, pipelineUpdate (assign new)) ->
  runs (extensionResolversStep oh om assign schema extensions p).
Proof.
  intros Ho Hm. unfold extensionResolversStep.
  apply runs_forEach. intros d _.
  apply runs_bind; [apply runs_callPerDefinition; exact Ho|]. intros answer'.
  destruct (truthy answer'); [|apply runs_ret].
  apply runs_update; apply Hm.
Qed.

Lemma runs_resolversStep (gh : Hook.t) (gm : Global (Obj Value)) (oh : Hook.t)
    (om : PerDefinition (Obj Value))
    (assign : Obj Value -> GQLRegistry -> GQLRegistry) :
  hooks gh -> hooks oh -> (forall new, pipelineUpdate (assign new)) ->
  runs (resolversStep gh gm oh om assign schema extensions p).
Proof.
  intros Hg Ho Hm. unfold resolversStep.
  apply runs_bind; [apply runs_callGlobal; exact Hg|]. intros answer.
  apply runs_bind.
  { destruct (truthy answer); [|apply runs_ret]. apply runs_update; apply Hm. }
  intros _. apply (runs_extensionResolversStep oh om assign Ho Hm).
Qed.

Lemma runs_rewriteTypes (h : Hook.t) (method : PerDefinition Node) :
  hooks h ->
  runs
    (newTypeDefinitions <-
       foldM (definitions schema) [] (fun newTypeDefinitions typeDefinition =>
         updatedTypeDefiniton <-
           callPerDefinition p h method typeDefinition schema extensions ;;
         match truthy updatedTypeDefiniton with
         | Some updatedTypeDefiniton =>
             ret (push newTypeDefinitions updatedTypeDefiniton)
         | None => ret newTypeDefinitions
         end) ;;
     if negb (List.length newTypeDefinitions =? 0)%nat then
       modify (mergeIncomingTypes newTypeDefinitions) ;;
       updatePluginSchemas
     else ret tt).
Proof.
  intros Hh. apply runs_bind.
  { apply runs_foldM. intros acc d _.
    apply runs_bind; [apply runs_callPerDefinition; exact Hh|]. intros answer.
    destruct (truthy answer); apply runs_ret. }
  intros new. apply runs_if; [|apply runs_ret].
  apply runs_bind; [apply runs_update; apply (update_merge Type_)|].
  intros _. apply runs_updatePluginSchemas.
Qed.

Lemma runs_preProcessPluginUpdateTypes :
  hooks Hook.addPrePropertiesToTypeDefinition ->
  runs (preProcessPluginUpdateTypes schema extensions p).
Proof. apply runs_rewriteTypes. Qed.

Lemma runs_postProcessPluginUpdateTypes :
  hooks Hook.addPostPropertiesToTypeDefinition ->
  runs (postProcessPluginUpdateTypes schema extensions p).
Proof. apply runs_rewriteTypes. Qed.

Lemma runs_processPluginDirectiveDefinitions :
  hooks Hook.addDirectiveDefinitions ->
  runs (processPluginDirectiveDefinitions schema extensions p).
Proof.
  intros Hh. unfold processPluginDirectiveDefinitions.
  apply runs_bind; [apply runs_callGlobal; exact Hh|]. intros answer.
  destruct (truthy answer); [|apply runs_ret].
  apply runs_bind; [apply runs_update; apply (update_merge Directive)|].
  intros _. apply runs_updatePluginSchemas.
Qed.

Lemma runs_processPluginDirectiveResolvers :
  hooks Hook.addDirectiveResolvers ->
  runs (processPluginDirectiveResolvers schema extensions p).
Proof.
  intros Hh. unfold processPluginDirectiveResolvers.
  apply runs_bind; [apply runs_callGlobal; exact Hh|]. intros answer.
  destruct (truthy answer); [|apply runs_ret].
  apply runs_update. constructor.
Qed.

Lemma runs_initialNotifyTurn :
  hooks Hook.setInitialSchema -> runs (initialNotifyTurn schema extensions p).
Proof.
  intros Hh. unfold initialNotifyTurn.
  apply runs_bind; [apply runs_callGlobal; exact Hh|]. intros; apply runs_ret.
Qed.

Lemma runs_finalizeTurn :
  hooks Hook.validateSchema -> hooks Hook.setFinalSchema ->
  runs (finalizeTurn schema extensions p).
Proof.
  intros Hv Hf. unfold finalizeTurn.
  apply runs_bind; [apply runs_callGlobal; exact Hv|]. intros _.
  apply runs_bind; [apply runs_callGlobal; exact Hf|]. intros; apply runs_ret.
Qed.
Lemma runs_processPluginTypeDefinitions :
  hooks Hook.addTypeDefinitions -> hooks Hook.addTypeDefinitionsForTypeDefinition ->
  runs (processPluginTypeDefinitions schema extensions p).
Proof.
  intros Hg Ho. apply runs_definitionsStep; auto.
  intros new. exact (update_merge Type_ new).
Qed.

(** The fifteen sub-steps that follow the type definitions in a turn of
    the main phase. *)
Lemma runs_mainPhaseRest :
  (forall h, h <> Hook.addTypeDefinitions -> hooks h) ->
  runs
    (processPluginTypeExtensionDefinitions schema extensions p ;;
     processPluginTypeResolvers schema extensions p ;;
     processPluginTypeExtensionResolvers schema extensions p ;;

     processPluginQueryDefinitions schema extensions p ;;
     processPluginQueryExtensionDefinitions schema extensions p ;;
     processPluginQueryResolvers schema extensions p ;;
     processPluginQueryExtensionResolvers schema extensions p ;;

     processPluginMutationDefinitions schema extensions p ;;
     processPluginMutationExtensionDefinitions schema extensions p ;;
     processPluginMutationResolvers schema extensions p ;;
     processPluginMutationExtensionResolvers schema extensions p ;;

     processPluginSubscriptionDefinitions schema extensions p ;;
     processPluginSubscriptionExtensionDefinitions schema extensions p ;;
     processPluginSubscriptionResolvers schema extensions p ;;
     processPluginSubscriptionExtensionResolvers schema extensions p).
Proof.
  intros Hrest.
  repeat (apply runs_bind; [|intros _]);
    first [ apply runs_definitionsStep
          | apply runs_extensionDefinitionsStep
          | apply runs_resolversStep
          | apply runs_extensionResolversStep ];
    try (apply Hrest; discriminate);
    intros new;
    first [ exact (update_merge Type_ new) | exact (update_merge Query new)
          | exact (update_merge Mutation new) | exact (update_merge Subscription new)
          | exact (update_merge ExtensionType new)
          | exact (update_merge ExtensionQuery new)
          | exact (update_merge ExtensionMutation new)
          | exact (update_merge ExtensionSubscription new)
          | constructor ].
Qed.
End StepOutcome.

Lemma runs_preProcessTurn (p : Plugin.t) :
  (forall r, (exists w, I w /\ r = this w) -> callsOk ok p (snapshot r) (fun _ => True)) ->
  runs (preProcessTurn p).
Proof.
  intros H. unfold preProcessTurn. apply runs_read_pure. intros r Hr.
  apply (runs_preProcessPluginUpdateTypes _ _ _ _ (H r Hr)). exact Logic.I.
Qed.

Lemma runs_mainPhaseTurn (p : Plugin.t) :
  (forall r, (exists w, I w /\ r = this w) -> callsOk ok p (snapshot r) (fun _ => True)) ->
  runs (mainPhaseTurn p).
Proof.
  intros H. unfold mainPhaseTurn. apply runs_read_pure. intros r Hr.
  apply runs_bind; [|intros _].
  - apply (runs_processPluginTypeDefinitions _ _ _ _ (H r Hr)); exact Logic.I.
  - apply (runs_mainPhaseRest _ _ _ _ (H r Hr)). intros; exact Logic.I.
Qed.

Lemma runs_directiveTurn (p : Plugin.t) :
  (forall r, (exists w, I w /\ r = this w) -> callsOk ok p (snapshot r) (fun _ => True)) ->
  runs (directiveTurn p).
Proof.
  intros H. unfold directiveTurn. apply runs_read_pure. intros r Hr.
  apply runs_bind;
    [apply (runs_processPluginDirectiveDefinitions _ _ _ _ (H r Hr)); exact Logic.I|].
  intros _. apply runs_bind;
    [apply (runs_processPluginDirectiveResolvers _ _ _ _ (H r Hr)); exact Logic.I|].
  intros _. apply (runs_postProcessPluginUpdateTypes _ _ _ _ (H r Hr)). exact Logic.I.
Qed.

(** The whole pipeline, when every call to a registered plugin is in [ok]:
    [Q] is what is left when it returns. *)
Section WholeOutcome.
Hypothesis all_ok :
  forall w p h d docs, I w -> In p (plugins (this w)) ->
    ok (hook_called (Plugin.self p) h d docs).
Variable Q : World -> Prop.
Hypothesis already : forall w, I w -> hasProcessedPlugins (this w) = true -> Q w.
Lemma registered_calls_ok (r : GQLRegistry) (p : Plugin.t)
    (docs : option (DocumentNode * DocumentNode)) :
  (exists w, I w /\ r = this w) -> In p (plugins r) ->
  callsOk ok p docs (fun _ => True).
Proof.
  intros [w [Hw Hr]] Hp h d _. apply (all_ok w); [exact Hw|]. rewrite <- Hr. exact Hp.
Qed.

(** the first four loops keep the invariant; [Q] is up to the fifth, which
    starts from the registry whose documents it hands out *)
Lemma outcome_processPlugins_phases :
  (forall r,
     triple (fun w => I w /\ this w = r)
       (forEach (plugins r)
          (finalizeTurn (getDefinitionsDocument r) (getExtensionDefinitionsDocument r)) ;;
        modify (fun this => this <| hasProcessedPlugins := true |>))
       (fun _ => Q) E) ->
  triple I processPlugins (fun _ => Q) E.
Proof.
  intros Hfinal.
  unfold processPlugins. apply triple_read. intros r.
  destruct (hasProcessedPlugins r) eqn:Hflag.
  - apply triple_ret. intros w [Hw Hr]. apply already; [exact Hw|].
    rewrite Hr. exact Hflag.
  - apply (triple_pure (exists w, I w /\ r = this w)).
    { intros w [Hw Hr]. exists w. auto. }
    intros Hr. apply (triple_strengthen _ I); [|tauto].
    eapply triple_bind.
    { apply runs_forEach. intros p Hp.
      apply (runs_initialNotifyTurn _ _ _ _ (registered_calls_ok r p _ Hr Hp)).
      exact Logic.I. }
    intros ?; cbv beta. apply triple_read_pure. intros r1 Hr1. eapply triple_bind.
    { apply runs_forEach. intros p Hp. apply runs_preProcessTurn.
      intros r' _. apply (registered_calls_ok r1); assumption. }
    intros ?; cbv beta. apply triple_read_pure. intros r2 Hr2. eapply triple_bind.
    { apply runs_forEach. intros p Hp. apply runs_mainPhaseTurn.
      intros r' _. apply (registered_calls_ok r2); assumption. }
    intros ?; cbv beta. apply triple_read_pure. intros r3 Hr3. eapply triple_bind.
    { apply runs_forEach. intros p Hp. apply runs_directiveTurn.
      intros r' _. apply (registered_calls_ok r3); assumption. }
    intros ?; cbv beta. apply triple_read. intros r4.
    apply Hfinal.
Qed.

Hypothesis completed :
  forall w, I w -> Q (mkWorld ((this w) <| hasProcessedPlugins := true |>) (log w)).

Lemma outcome_processPlugins : triple I processPlugins (fun _ => Q) E.
Proof.
  apply outcome_processPlugins_phases. intros r4.
  apply (triple_pure (exists w, I w /\ r4 = this w)).
  { intros w [Hw Hr]. exists w. auto. }
  intros Hr4. apply (triple_strengthen _ I); [|tauto].
  eapply triple_bind.
  { apply runs_forEach. intros p Hp.
    apply (runs_finalizeTurn _ _ _ _ (registered_calls_ok r4 p _ Hr4 Hp));
      exact Logic.I. }
  intros ?; cbv beta. apply triple_modify. intros w Hw. apply completed. exact Hw.
Qed.
End WholeOutcome.
End PipelineOutcome.

(** ** What the pipeline leaves alone *)

Lemma outsideStores_refl (r : GQLRegistry) : outsideStores r r.
Proof. unfold outsideStores. tauto. Qed.

Lemma outsideStores_trans (r1 r2 r3 : GQLRegistry) :
  outsideStores r1 r2 -> outsideStores r2 r3 -> outsideStores r1 r3.
Proof. unfold outsideStores. intuition congruence. Qed.

Lemma merge_outsideStores (c : Category) (incoming : list Node) (r : GQLRegistry) :
  outsideStores r (merge c incoming r).
Proof.
  revert r. induction incoming as [|d ds IH]; intros r.
  - destruct c; apply outsideStores_refl.
  - rewrite merge_cons. eapply outsideStores_trans; [|apply IH].
    destruct c; cbn [merge];
      unfold mergeIncomingDirectives, mergeIncomingTypes, mergeIncomingExtensionTypes,
        mergeIncomingQueries, mergeIncomingExtensionQueries, mergeIncomingMutations,
        mergeIncomingExtensionMutations, mergeIncomingSubscriptions,
        mergeIncomingExtensionSubscriptions; cbn [fold_left];
      repeat match goal with
             | |- context [if ?b then _ else _] => destruct b
             end;
      unfold outsideStores; repeat split; reflexivity.
Qed.

Lemma pipelineUpdate_outsideStores (f : GQLRegistry -> GQLRegistry) (r : GQLRegistry) :
  pipelineUpdate f -> outsideStores r (f r).
Proof.
  intros Hf. destruct Hf; [apply merge_outsideStores| ..];
    unfold outsideStores; repeat split; reflexivity.
Qed.

Lemma pipelineUpdate_plugins (f : GQLRegistry -> GQLRegistry) (r : GQLRegistry) :
  pipelineUpdate f -> plugins (f r) = plugins r.
Proof. intros Hf. apply (pipelineUpdate_outsideStores f r Hf). Qed.

(** ** Plugins registered under a taken name *)

Lemma find_some_In {A : Type} (p : A -> bool) (l : list A) (x : A) :
  In x l -> p x = true -> exists y, find_ p l = Some y.
Proof.
  induction l as [|a l IH]; intros Hin Hp; [destruct Hin|]. simpl.
  destruct (p a) eqn:E; [eauto|].
  destruct Hin as [Ha|Hin]; [congruence|auto].
Qed.

Lemma callsOf_app (pid : nat) (l1 l2 : list Event) :
  callsOf pid (l1 ++ l2) = callsOf pid l1 ++ callsOf pid l2.
Proof. apply filter_app. Qed.

(** The pipeline calls no plugin that is not in the list. *)
Lemma processPlugins_calls_registered_only (pid : nat) (w : World) :
  (forall p, In p (plugins (this w)) -> Plugin.self p <> pid) ->
  callsOf pid (log (snd (processPlugins w))) = callsOf pid (log w).
Proof.
  intros Hpid.
  pose (I := fun w' : World =>
    plugins (this w') = plugins (this w) /\ callsOf pid (log w') = callsOf pid (log w)).
  pose (ok := fun e : Event => calledOn pid e = false).
  assert (Hemit : forall e w', ok e -> I w' -> I (mkWorld (this w') (log w' ++ [e]))).
  { intros e w' He [H1 H2]. split; [exact H1|]. simpl.
    rewrite callsOf_app, H2. unfold callsOf at 2. simpl. rewrite He. apply app_nil_r. }
  assert (Hupd : forall f w', pipelineUpdate f -> I w' -> I (mkWorld (f (this w')) (log w'))).
  { intros f w' Hf [H1 H2]. split; [|exact H2]. simpl.
    rewrite pipelineUpdate_plugins; assumption. }
  assert (Hall : forall w' p h d docs, I w' -> In p (plugins (this w')) ->
                   ok (hook_called (Plugin.self p) h d docs)).
  { intros w' p h d docs [H1 _] Hp. unfold ok. simpl. apply Nat.eqb_neq.
    apply Hpid. rewrite <- H1. exact Hp. }
  assert (H : triple I processPlugins (fun _ => I) I).
  { apply (triple_processPlugins I ok Hemit Hupd).
    - intros w' p docs. apply Hall.
    - exact Hall.
    - auto.
    - intros w' [H1 H2]. split; assumption. }
  specialize (H w (conj eq_refl eq_refl)).
  destruct (processPlugins w) as [[u|e] w']; apply H.
Qed.

(** C8. A plugin registered under a name that is taken is ignored: the
    registry is left as it was, the plugin object is left as it was (its
    back-reference is not set), and as long as that object is not in the
    plugin list no run of the pipeline calls any of its hooks. *)
Theorem same_name_plugin_is_ignored (w : World) (first second : Plugin.t) :
  In first (plugins (this w)) ->
  Plugin.name first = Plugin.name second ->
  (forall p, In p (plugins (this w)) -> Plugin.self p <> Plugin.self second) ->
  registerPlugin second (this w) = (this w, second) /\
  callsOf (Plugin.self second) (log (snd (processPlugins w)))
  = callsOf (Plugin.self second) (log w).
Proof.
  intros Hin Hname Hself. split.
  - unfold registerPlugin.
    destruct (find_some_In
                (fun registeredPlugin => Plugin.name registeredPlugin =? Plugin.name second)
                (plugins (this w)) first Hin) as [y Hy].
    + rewrite Hname. apply String.eqb_refl.
    + rewrite Hy. reflexivity.
  - apply processPlugins_calls_registered_only. exact Hself.
Qed.

Lemma same_name_plugin_is_ignored_witness :
  registerPlugin (adds 2 "inherit" "Late") (this (worldWith [adds 1 "inherit" "Early"]))
  = (this (worldWith [adds 1 "inherit" "Early"]), adds 2 "inherit" "Late") /\
  callsOf 2 (log (snd (processPlugins (worldWith [adds 1 "inherit" "Early"]))))
  = callsOf 2 (log (worldWith [adds 1 "inherit" "Early"])).
Proof.
  apply (same_name_plugin_is_ignored (worldWith [adds 1 "inherit" "Early"])
           ((adds 1 "inherit" "Early") <| Plugin.registry := Some 0 |>)
           (adds 2 "inherit" "Late")).
  - simpl. left. reflexivity.
  - reflexivity.
  - simpl. intros p [Hp|[]]. subst p. simpl. discriminate.
Defined.

(** ** Invariants of registration

    An invariant that survives console warnings, and the registry changing
    within the registration frame, survives every call of the registration
    surface other than [clear]. *)

Ltac same_frame :=
  unfold registrationFrame; repeat (split; [reflexivity|]);
  exists []; symmetry; apply app_nil_r.

Lemma registrationFrame_refl (r : GQLRegistry) : registrationFrame r r.
Proof. same_frame. Qed.

Lemma outsideStores_registrationFrame (r r' : GQLRegistry) :
  outsideStores r r' -> registrationFrame r r'.
Proof.
  unfold outsideStores, registrationFrame. intros H. decompose [and] H.
  repeat split; try assumption. exists []. rewrite app_nil_r. assumption.
Qed.

Lemma merge_registrationFrame (c : Category) (incoming : list Node) (r : GQLRegistry) :
  registrationFrame r (merge c incoming r).
Proof. apply outsideStores_registrationFrame, merge_outsideStores. Qed.

Lemma registerPlugin_registrationFrame (plugin : Plugin.t) (r : GQLRegistry) :
  registrationFrame r (fst (registerPlugin plugin r)).
Proof.
  unfold registerPlugin.
  destruct (find_ _ (plugins r)); simpl; [apply registrationFrame_refl|].
  unfold registrationFrame. repeat (split; [reflexivity|]). eexists. reflexivity.
Qed.

Lemma registerRemoteSchema_registrationFrame (args : RegisterRemoteSchemaArgs.t)
    (r : GQLRegistry) :
  registrationFrame r (registerRemoteSchema args r).
Proof.
  unfold registerRemoteSchema.
  destruct (member _ _); [apply registrationFrame_refl|].
  same_frame.
Qed.

Lemma registerTypeExtension_registrationFrame (args : RegisterTypeExtensionArgs.t)
    (r : GQLRegistry) :
  registrationFrame r (registerTypeExtension args r).
Proof.
  unfold registerTypeExtension.
  set (r1 := match RegisterTypeExtensionArgs.extensionTypeDefinitions args with
             | Some d => mergeIncomingExtensionTypes (definitions d) r
             | None => r
             end).
  assert (H1 : outsideStores r r1).
  { subst r1. destruct (RegisterTypeExtensionArgs.extensionTypeDefinitions args);
      [apply (merge_outsideStores ExtensionType)|apply outsideStores_refl]. }
  pose proof (merge_outsideStores ExtensionQuery
    (rootFields "Query" (RegisterTypeExtensionArgs.extensionQueryDefinitions args)) r1) as H2.
  cbn [merge] in H2.
  set (r2 := mergeIncomingExtensionQueries _ r1) in *.
  pose proof (merge_outsideStores ExtensionMutation
    (rootFields "Mutation" (RegisterTypeExtensionArgs.extensionMutationDefinitions args))
    r2) as H3.
  cbn [merge] in H3.
  set (r3 := mergeIncomingExtensionMutations _ r2) in *.
  pose proof (merge_outsideStores ExtensionSubscription
    (rootFields "Subscription"
       (RegisterTypeExtensionArgs.extensionSubscriptionDefinitions args)) r3) as H4.
  cbn [merge] in H4.
  set (r4 := mergeIncomingExtensionSubscriptions _ r3) in *.
  apply outsideStores_registrationFrame.
  eapply outsideStores_trans; [exact H1|].
  eapply outsideStores_trans; [exact H2|].
  eapply outsideStores_trans; [exact H3|].
  eapply outsideStores_trans; [exact H4|].
  unfold outsideStores. repeat split; reflexivity.
Qed.

Section RegistrationInvariant.
Variable J : World -> Prop.
Hypothesis J_warn :
  forall message w, J w -> J (mkWorld (this w) (log w ++ [console_warn message])).
Hypothesis J_step :
  forall f w, (forall r, registrationFrame r (f r)) -> J w ->
    J (mkWorld (f (this w)) (log w)).

Lemma keeps_registration (f : GQLRegistry -> GQLRegistry) :
  (forall r, registrationFrame r (f r)) -> keeps J (modify f).
Proof. intros Hf. apply triple_modify. intros w Hw. apply J_step; assumption. Qed.

Lemma keeps_warnIfRegistered (what : string) (store_ : list Node) (new : Node) :
  keeps J (warnIfRegistered what store_ new).
Proof.
  unfold warnIfRegistered. destruct (findIndex _ _); [|apply keeps_ret].
  apply triple_emit. intros w Hw. apply J_warn. exact Hw.
Qed.

Lemma keeps_check (accept : Node -> bool) (what : string)
    (sequence : GQLRegistry -> list Node) (incoming : list Node) :
  keeps J
    (forEach incoming (fun new =>
       if accept new then
         this <- getThis ;; warnIfRegistered what (sequence this) new
       else ret tt)).
Proof.
  apply keeps_forEach. intros new _. apply keeps_if; [|apply keeps_ret].
  apply keeps_bind; [apply keeps_getThis|]. intros r. apply keeps_warnIfRegistered.
Qed.

Lemma keeps_registerDirectives (args : RegisterDirectiveArgs.t) :
  keeps J (registerDirectives args).
Proof.
  unfold registerDirectives. apply keeps_bind.
  { destruct (RegisterDirectiveArgs.directiveDefinition args); [|apply keeps_ret].
    apply keeps_bind; [apply keeps_check|]. intros _.
    apply keeps_registration. intros r. apply (merge_registrationFrame Directive). }
  intros _. apply keeps_if; [|apply keeps_ret].
  apply keeps_registration. intros r.
  same_frame.
Qed.

Lemma keeps_registerType (args : RegisterTypeArgs.t) : keeps J (registerType args).
Proof.
  unfold registerType. apply keeps_bind.
  { destruct (RegisterTypeArgs.typeDefinitions args); [|apply keeps_ret].
    apply keeps_bind; [apply keeps_check|]. intros _.
    apply keeps_registration. intros r. apply (merge_registrationFrame Type_). }
  intros _.
  apply keeps_bind; [apply keeps_check|]. intros _.
  apply keeps_bind;
    [apply keeps_registration; intros r; apply (merge_registrationFrame Query)|].
  intros _.
  apply keeps_bind; [apply keeps_check|]. intros _.
  apply keeps_bind;
    [apply keeps_registration; intros r; apply (merge_registrationFrame Mutation)|].
  intros _.
  apply keeps_bind; [apply keeps_check|]. intros _.
  apply keeps_bind;
    [apply keeps_registration; intros r; apply (merge_registrationFrame Subscription)|].
  intros _.
  repeat (apply keeps_bind; [|intros _]);
    apply keeps_registration; intros r;
    same_frame.
Qed.

Lemma keeps_perform (c : Call) : c <> call_clear -> keeps J (perform c).
Proof.
  intros Hc. destruct c; simpl.
  - apply keeps_registration. intros r.
    same_frame.
  - apply keeps_registration. apply registerRemoteSchema_registrationFrame.
  - apply keeps_registerDirectives.
  - apply keeps_registerType.
  - apply keeps_registration. apply registerTypeExtension_registrationFrame.
  - apply keeps_registration. intros r.
    same_frame.
  - apply keeps_registration. apply registerPlugin_registrationFrame.
  - destruct (Hc eq_refl).
Qed.
End RegistrationInvariant.

(** ** Invariants of setup and of the finalize operations *)

Section SetupInvariant.
Variable J : World -> Prop.
Hypothesis J_warn :
  forall message w, J w -> J (mkWorld (this w) (log w ++ [console_warn message])).
Hypothesis J_step :
  forall f w, (forall r, registrationFrame r (f r)) -> J w ->
    J (mkWorld (f (this w)) (log w)).
Hypothesis J_cleared :
  forall r' w, J w -> emptied r' -> keptByClear (this w) r' -> J (mkWorld r' (log w)).
Hypothesis J_clear_hook :
  forall pid w, J w ->
    J (mkWorld (this w) (log w ++ [hook_called pid Hook.clear None None])).
Hypothesis J_started :
  forall w, J w -> J (mkWorld ((this w) <| hasExecutedPreStart := true |>) (log w)).

Lemma keeps_clear : keeps J clear.
Proof.
  unfold clear. apply keeps_bind.
  { apply triple_modify. intros w Hw. apply J_cleared; [exact Hw| |].
    - unfold emptied. repeat split; reflexivity.
    - unfold keptByClear. repeat split; reflexivity. }
  intros _. apply keeps_bind; [apply keeps_getThis|]. intros r.
  apply keeps_forEach. intros plu _.
  apply keeps_bind; [|intros; apply keeps_ret].
  unfold invoke. destruct (Plugin.clear plu); [|apply keeps_ret].
  apply keeps_bind.
  { apply triple_emit. intros w Hw. apply J_clear_hook. exact Hw. }
  intros _. apply keeps_bind; [apply keeps_settle|]. intros; apply keeps_ret.
Qed.

Lemma keeps_perform_any (c : Call) : keeps J (perform c).
Proof.
  destruct c; try (apply (keeps_perform J J_warn J_step); discriminate).
  apply keeps_clear.
Qed.

Lemma keeps_preStart : keeps J preStart.
Proof.
  unfold preStart. apply keeps_bind; [apply keeps_getThis|]. intros r.
  apply keeps_if; [apply keeps_ret|].
  apply keeps_bind.
  { apply keeps_forEach. intros f _.
    apply keeps_bind; [|intros; apply keeps_settle].
    apply keeps_forEach. intros c _. apply keeps_perform_any. }
  intros _. apply triple_modify. intros w Hw. apply J_started. exact Hw.
Qed.
End SetupInvariant.

Section FinalizeInvariant.
Variable Q : World -> Prop.
Hypothesis Q_remote :
  forall v w, Q w -> Q (mkWorld ((this w) <| remoteSchemas := v |>) (log w)).
Hypothesis Q_cache :
  forall v w, Q w -> Q (mkWorld ((this w) <| executableSchema := v |>) (log w)).

Lemma keeps_wrapRemoteSchemas : keeps Q wrapRemoteSchemas.
Proof.
  unfold wrapRemoteSchemas. apply keeps_bind; [apply keeps_getThis|]. intros r.
  apply keeps_foldM. intros acc name _.
  apply keeps_bind; [apply keeps_getThis|]. intros r'.
  destruct (obj_get (remoteSchemas r') name) as [remote|]; [|apply keeps_ret].
  apply keeps_bind.
  { destruct (RegisterRemoteSchemaArgs.asyncSchema remote);
      [apply keeps_settle|apply keeps_ret]. }
  intros resolved. destruct resolved as [schema|]; [|apply keeps_ret].
  apply keeps_bind; [|intros; apply keeps_ret].
  apply triple_modify. intros w Hw. apply Q_remote. exact Hw.
Qed.

(** A finalize operation is setup, the pipeline, and a build that keeps
    what setup and the pipeline established. *)
Lemma triple_finalize (P R E : World -> Prop) (op : Finalize) :
  triple P preStart (fun _ => R) E ->
  triple R processPlugins (fun _ => Q) E ->
  (forall w, Q w -> E w) ->
  triple P (finalize op) (fun _ => Q) E.
Proof.
  intros Hpre Hpipe HE.
  assert (Hwrap : triple Q wrapRemoteSchemas (fun _ => Q) E).
  { eapply triple_weaken; [apply keeps_wrapRemoteSchemas| |auto|exact HE]; auto. }
  destruct op; simpl;
    unfold getFederatableSchema, getSchema, getExecutableSchema;
    (eapply triple_bind; [exact Hpre|]); intros ?; cbv beta;
    (eapply triple_bind; [exact Hpipe|]); intros ?; cbv beta;
    apply triple_read_pure; intros r _.
  - apply triple_ret. auto.
  - eapply triple_bind; [exact Hwrap|]. intros remotes. cbv beta.
    apply triple_read_pure. intros r' _. apply triple_ret. auto.
  - destruct (executableSchema r); [apply triple_ret; auto|].
    eapply triple_bind; [exact Hwrap|]. intros remotes. cbv beta.
    apply triple_read_pure. intros r' _.
    eapply triple_bind; [|intros; apply triple_ret; intros w Hw; exact Hw].
    apply triple_modify. intros w Hw. apply Q_cache. exact Hw.
Qed.
End FinalizeInvariant.

(** ** Counting calls *)

Lemma Hook_eqb_eq (a b : Hook.t) : Hook.eqb a b = true <-> a = b.
Proof. destruct a, b; simpl; split; intros H; solve [reflexivity | discriminate]. Qed.

Lemma Hook_eqb_neq (a b : Hook.t) : a <> b -> Hook.eqb a b = false.
Proof.
  intros H. destruct (Hook.eqb a b) eqn:E; [|reflexivity].
  apply Hook_eqb_eq in E. contradiction.
Qed.

Lemma hookCalls_app (l1 l2 : list Event) : hookCalls (l1 ++ l2) = hookCalls l1 ++ hookCalls l2.
Proof. apply filter_app. Qed.

Lemma triple_anything {A : Type} (P : World -> Prop) (m : M A) :
  triple P m (fun _ _ => True) (fun _ => True).
Proof. intros w _. destruct (m w) as [[a|e] w']; exact Logic.I. Qed.

Lemma keeps_relax {A : Type} (I : World -> Prop) (m : M A) :
  keeps I m -> triple I m (fun _ => I) (fun _ => True).
Proof. intros H. eapply triple_weaken; [exact H| | |]; auto. Qed.

Lemma typeAddCallsOf_app (pid : nat) (l1 l2 : list Event) :
  typeAddCallsOf pid (l1 ++ l2) = typeAddCallsOf pid l1 + typeAddCallsOf pid l2.
Proof. unfold typeAddCallsOf. rewrite filter_app, length_app. reflexivity. Qed.

Lemma typeAddCallsOf_other (pid : nat) (l : list Event) (e : Event) :
  isTypeAddOf pid e = false -> typeAddCallsOf pid (l ++ [e]) = typeAddCallsOf pid l.
Proof.
  intros He. rewrite typeAddCallsOf_app. unfold typeAddCallsOf at 2. simpl. rewrite He.
  simpl. lia.
Qed.

Lemma typeAddCallsOf_hookCalls (pid : nat) (l : list Event) :
  typeAddCallsOf pid (hookCalls l) = typeAddCallsOf pid l.
Proof.
  unfold typeAddCallsOf, hookCalls. induction l as [|e l IH]; [reflexivity|].
  destruct e; simpl; [exact IH|].
  destruct (isTypeAddOf pid (hook_called plugin hook definition documents)); simpl; congruence.
Qed.

(** A plugin object that is in the list once is counted once. *)
Lemma isTypeAdder_once (p : Plugin.t) (ps : list Plugin.t) :
  NoDup (map Plugin.self ps) -> In p ps ->
  List.length (filter (isTypeAdder (Plugin.self p)) ps)
  = if implementsTypeAdd p then 1 else 0.
Proof.
  induction ps as [|q ps IH]; intros ND Hin; [destruct Hin|].
  simpl in ND. inversion ND as [|x l Hq ND']. subst x l.
  cbn [filter]. destruct Hin as [Hp|Hin].
  - subst q. unfold isTypeAdder at 1. rewrite Nat.eqb_refl, andb_true_r.
    assert (Hrest : filter (isTypeAdder (Plugin.self p)) ps = []).
    { clear IH ND ND'. induction ps as [|q ps IH]; [reflexivity|]. simpl.
      unfold isTypeAdder at 1.
      destruct (Nat.eqb_spec (Plugin.self q) (Plugin.self p)) as [E|E].
      - exfalso. apply Hq. left. exact E.
      - rewrite andb_false_r. apply IH. intros H. apply Hq. right. exact H. }
    rewrite Hrest. destruct (implementsTypeAdd p); reflexivity.
  - unfold isTypeAdder at 1.
    destruct (Nat.eqb_spec (Plugin.self q) (Plugin.self p)) as [E|E].
    + exfalso. apply Hq. rewrite E. apply in_map. exact Hin.
    + rewrite andb_false_r. apply IH; assumption.
Qed.

Section TypeAddCount.
Variable pid : nat.
Variable ps : list Plugin.t.

(** the plugin list is [ps] and the global type-add hook of the plugin
    [pid] was called [n] times *)
Let N (n : nat) (w : World) : Prop :=
  plugins (this w) = ps /\ typeAddCallsOf pid (log w) = n.
Let other (e : Event) : Prop := isTypeAddOf pid e = false.
Let notTypeAdd (h : Hook.t) : Prop := h <> Hook.addTypeDefinitions.

Lemma N_emit (n : nat) (e : Event) (w : World) :
  other e -> N n w -> N n (mkWorld (this w) (log w ++ [e])).
Proof.
  intros He [H1 H2]. split; [exact H1|]. simpl. rewrite typeAddCallsOf_other; assumption.
Qed.

Lemma N_update (n : nat) (f : GQLRegistry -> GQLRegistry) (w : World) :
  pipelineUpdate f -> N n w -> N n (mkWorld (f (this w)) (log w)).
Proof.
  intros Hf [H1 H2]. split; [|exact H2]. simpl. rewrite pipelineUpdate_plugins; assumption.
Qed.

Lemma N_broadcast (n : nat) (w : World) (p : Plugin.t)
    (docs : option (DocumentNode * DocumentNode)) :
  N n w -> In p (plugins (this w)) ->
  other (hook_called (Plugin.self p) Hook.schemaUpdated None docs).
Proof. intros _ _. unfold other, isTypeAddOf. simpl. apply andb_false_r. Qed.

Lemma other_calls (p : Plugin.t) (docs : option (DocumentNode * DocumentNode)) :
  callsOk other p docs notTypeAdd.
Proof.
  intros h d Hh. unfold other, isTypeAddOf. simpl.
  rewrite (Hook_eqb_neq _ _ Hh). apply andb_false_r.
Qed.

Lemma other_turns (n : nat) (p : Plugin.t) :
  keeps (N n) (preProcessTurn p) /\ keeps (N n) (directiveTurn p) /\
  (forall schema extensions,
      keeps (N n) (initialNotifyTurn schema extensions p) /\
      keeps (N n) (finalizeTurn schema extensions p)).
Proof.
  pose proof (N_emit n) as He. pose proof (N_update n) as Hu.
  pose proof (N_broadcast n) as Hb.
  split; [|split; [|intros schema extensions; split]].
  - unfold preProcessTurn. apply keeps_read_pure. intros r _.
    eapply keeps_preProcessPluginUpdateTypes;
      first [exact He | exact Hu | exact Hb | apply other_calls | discriminate].
  - unfold directiveTurn. apply keeps_read_pure. intros r _.
    apply keeps_bind;
      [eapply keeps_processPluginDirectiveDefinitions;
         first [exact He | exact Hu | exact Hb | apply other_calls | discriminate]|].
    intros _. apply keeps_bind;
      [eapply keeps_processPluginDirectiveResolvers;
         first [exact He | exact Hu | exact Hb | apply other_calls | discriminate]|].
    intros _.
    eapply keeps_postProcessPluginUpdateTypes;
      first [exact He | exact Hu | exact Hb | apply other_calls | discriminate].
  - eapply keeps_initialNotifyTurn;
      first [exact He | exact Hu | exact Hb | apply other_calls | discriminate].
  - eapply keeps_finalizeTurn;
      first [exact He | exact Hu | exact Hb | apply other_calls | discriminate].
Qed.

(** A turn of the main phase calls the plugin's global type-add hook once,
    if the plugin has one. *)
Lemma mainPhaseTurn_count (n : nat) (p : Plugin.t) :
  triple (N n) (mainPhaseTurn p)
    (fun _ => N (n + if isTypeAdder pid p then 1 else 0)) (fun _ => True).
Proof.
  set (n' := n + if isTypeAdder pid p then 1 else 0).
  pose proof (N_emit n') as He. pose proof (N_update n') as Hu.
  pose proof (N_broadcast n') as Hb.
  unfold mainPhaseTurn. apply triple_read_pure. intros r _.
  eapply triple_bind;
    [|intros ?; cbv beta; apply keeps_relax;
      eapply keeps_mainPhaseRest;
        first [exact He | exact Hu | exact Hb | apply other_calls | auto]].
  unfold processPluginTypeDefinitions, definitionsStep.
  eapply (triple_bind _ _ (fun _ => N n')).
  { unfold callGlobal, invoke, isTypeAdder, implementsTypeAdd in *.
    destruct (Plugin.addTypeDefinitions p) as [f|]; simpl.
    - eapply (triple_bind _ _ (fun _ => N n')).
      + apply triple_emit. intros w [H1 H2]. split; [exact H1|]. simpl.
        rewrite typeAddCallsOf_app, H2. subst n'. f_equal.
        unfold typeAddCallsOf, isTypeAddOf. simpl. rewrite andb_true_r.
        destruct (Plugin.self p =? pid)%nat; reflexivity.
      + intros _. eapply triple_bind; [apply keeps_relax, keeps_settle|].
        intros x. apply keeps_relax, keeps_ret.
    - apply triple_ret. intros w [H1 H2]. split; [exact H1|]. subst n'. simpl in *. lia. }
  intros answer. cbv beta. apply keeps_relax. apply keeps_bind.
  { destruct (truthy answer) as [l|]; [|apply keeps_ret].
    apply keeps_bind; [|intros; apply keeps_ret].
    apply (keeps_update (N n') Hu). exact (update_merge Type_ l). }
  intros didUpdate.
  eapply keeps_perDefinitionStep;
    first [exact He | exact Hu | exact Hb | apply other_calls | discriminate | idtac].
  intros new. exact (update_merge Type_ new).
Qed.

Lemma mainPhase_count (l : list Plugin.t) (n : nat) :
  triple (N n) (forEach l mainPhaseTurn)
    (fun _ => N (n + List.length (filter (isTypeAdder pid) l))) (fun _ => True).
Proof.
  unfold forEach. revert n. induction l as [|p l IH]; intros n; simpl.
  - apply triple_ret. intros w Hw. rewrite Nat.add_0_r. exact Hw.
  - eapply triple_bind; [apply mainPhaseTurn_count|].
    intros u. destruct u. cbv beta.
    eapply triple_weaken;
      [apply (IH (n + if isTypeAdder pid p then 1 else 0))|auto| |auto].
    intros a w Hw. destruct (isTypeAdder pid p); simpl in *.
    + replace (n + S (List.length (filter (isTypeAdder pid) l)))
        with (n + 1 + List.length (filter (isTypeAdder pid) l)) by lia.
      exact Hw.
    + rewrite Nat.add_0_r in Hw. exact Hw.
Qed.

(** A run of the pipeline body that completes has called the global
    type-add hook of every plugin that has one, once. *)
Lemma processPlugins_count (n : nat) :
  triple (fun w => N n w /\ hasProcessedPlugins (this w) = false) processPlugins
    (fun _ => N (n + List.length (filter (isTypeAdder pid) ps))) (fun _ => True).
Proof.
  unfold processPlugins. apply triple_read. intros r.
  apply (triple_pure (hasProcessedPlugins r = false /\ plugins r = ps)).
  { intros w [[[H1 H2] H3] Hr]. subst r. auto. }
  intros [Hflag Hps]. rewrite Hflag, Hps.
  apply (triple_strengthen _ (N n)); [|tauto].
  eapply triple_bind.
  { apply keeps_relax, keeps_forEach. intros p _. apply other_turns. }
  intros ?; cbv beta. apply triple_read_pure. intros r1 [w1 [[Hw1 _] Hr1]].
  rewrite Hr1, Hw1. eapply triple_bind.
  { apply keeps_relax, keeps_forEach. intros p _. apply other_turns. }
  intros ?; cbv beta. apply triple_read_pure. intros r2 [w2 [[Hw2 _] Hr2]].
  rewrite Hr2, Hw2. eapply triple_bind; [apply mainPhase_count|].
  intros ?; cbv beta. apply triple_read_pure. intros r3 [w3 [[Hw3 _] Hr3]].
  rewrite Hr3, Hw3. eapply triple_bind.
  { apply keeps_relax, keeps_forEach. intros p _. apply other_turns. }
  intros ?; cbv beta. apply triple_read_pure. intros r4 [w4 [[Hw4 _] Hr4]].
  rewrite Hr4, Hw4. eapply triple_bind.
  { apply keeps_relax, keeps_forEach. intros p _. apply other_turns. }
  intros ?; cbv beta. apply triple_modify. intros w [H1 H2]. split; assumption.
Qed.
End TypeAddCount.

(** ** The pipeline runs to completion once *)

Lemma pipelineUpdate_hasExecutedPreStart (f : GQLRegistry -> GQLRegistry)
    (r : GQLRegistry) :
  pipelineUpdate f -> hasExecutedPreStart (f r) = hasExecutedPreStart r.
Proof. intros Hf. apply (pipelineUpdate_outsideStores f r Hf). Qed.

Lemma pipelineUpdate_hasProcessedPlugins (f : GQLRegistry -> GQLRegistry)
    (r : GQLRegistry) :
  pipelineUpdate f -> hasProcessedPlugins (f r) = hasProcessedPlugins r.
Proof. intros Hf. apply (pipelineUpdate_outsideStores f r Hf). Qed.

Lemma pipelineUpdate_executableSchema (f : GQLRegistry -> GQLRegistry) (r : GQLRegistry) :
  pipelineUpdate f -> executableSchema (f r) = executableSchema r.
Proof. intros Hf. apply (pipelineUpdate_outsideStores f r Hf). Qed.

Lemma registrationFrame_hasExecutedPreStart (r r' : GQLRegistry) :
  registrationFrame r r' -> hasExecutedPreStart r' = hasExecutedPreStart r.
Proof. intros H. apply H. Qed.

Lemma registrationFrame_hasProcessedPlugins (r r' : GQLRegistry) :
  registrationFrame r r' -> hasProcessedPlugins r' = hasProcessedPlugins r.
Proof. intros H. apply H. Qed.

Lemma registrationFrame_executableSchema (r r' : GQLRegistry) :
  registrationFrame r r' -> executableSchema r' = executableSchema r.
Proof. intros H. apply H. Qed.

Lemma registrationFrame_plugins (r r' : GQLRegistry) (p : Plugin.t) :
  registrationFrame r r' -> In p (plugins r) -> In p (plugins r').
Proof.
  intros H Hp. destruct H as (_&_&_&_&_&more&Hm). rewrite Hm. apply in_or_app. auto.
Qed.

Lemma triple_run {A : Type} (P : World -> Prop) (m : M A) (Q : A -> World -> Prop)
    (E : World -> Prop) (w : World) (a : A) :
  triple P m Q E -> P w -> fst (m w) = Returns a -> Q a (snd (m w)).
Proof.
  intros H Hw Hr. specialize (H w Hw). destruct (m w) as [[a'|e] w']; simpl in *.
  - inversion Hr. subst. exact H.
  - discriminate.
Qed.

Lemma keeps_run {A : Type} (I : World -> Prop) (m : M A) (w : World) :
  keeps I m -> I w -> I (snd (m w)).
Proof.
  intros H Hw. specialize (H w Hw). destruct (m w) as [[a|e] w']; exact H.
Qed.

(** With its flag up a step does nothing. *)
Lemma preStart_done (w : World) :
  hasExecutedPreStart (this w) = true -> preStart w = (Returns tt, w).
Proof. intros H. unfold preStart, bind, getThis. rewrite H. reflexivity. Qed.

Lemma processPlugins_done (w : World) :
  hasProcessedPlugins (this w) = true -> processPlugins w = (Returns tt, w).
Proof. intros H. unfold processPlugins, bind, getThis. rewrite H. reflexivity. Qed.

(** A finalize operation that returns leaves both flags up. *)
Lemma finalize_finalized (op : Finalize) :
  triple (fun _ => True) (finalize op) (fun _ => finalized) (fun _ => True).
Proof.
  apply (triple_finalize finalized) with
    (R := fun w => hasExecutedPreStart (this w) = true).
  - intros v w Hw. exact Hw.
  - intros v w Hw. exact Hw.
  - unfold preStart. apply triple_read. intros r.
    destruct (hasExecutedPreStart r) eqn:Hflag.
    + apply triple_ret. intros w [_ Hr]. rewrite Hr. exact Hflag.
    + eapply triple_bind; [apply triple_anything|]. intros ?; cbv beta.
      apply triple_modify. intros w _. reflexivity.
  - assert (H : triple (fun w => hasExecutedPreStart (this w) = true) processPlugins
                  (fun _ => finalized) (fun w => hasExecutedPreStart (this w) = true)).
    { apply triple_processPlugins with (ok := fun _ => True).
      - auto.
      - intros f w Hf Hw. simpl.
        rewrite pipelineUpdate_hasExecutedPreStart; assumption.
      - auto.
      - auto.
      - intros w Hw Hflag. split; assumption.
      - intros w Hw. split; [exact Hw|reflexivity]. }
    eapply triple_weaken; [exact H| | |]; auto.
  - auto.
Qed.

(** Once both flags are up, no step short of [clear] calls a hook. *)
Section Quiet.
Variable calls : list Event.

Let K (w : World) : Prop := hookCalls (log w) = calls /\ finalized w.

Lemma K_warn (message : string) (w : World) :
  K w -> K (mkWorld (this w) (log w ++ [console_warn message])).
Proof.
  intros [H1 H2]. split; [|exact H2]. simpl. rewrite hookCalls_app. simpl.
  rewrite app_nil_r. exact H1.
Qed.

Lemma K_step (f : GQLRegistry -> GQLRegistry) (w : World) :
  (forall r, registrationFrame r (f r)) -> K w -> K (mkWorld (f (this w)) (log w)).
Proof.
  intros Hf [H1 [H2 H3]]. split; [exact H1|].
  unfold finalized. simpl.
  rewrite (registrationFrame_hasExecutedPreStart _ _ (Hf (this w))).
  rewrite (registrationFrame_hasProcessedPlugins _ _ (Hf (this w))). auto.
Qed.

Lemma K_preStart : keeps K preStart.
Proof.
  unfold preStart. apply triple_read. intros r.
  destruct (hasExecutedPreStart r) eqn:Hflag.
  - apply triple_ret. tauto.
  - apply (triple_pure False); [|tauto].
    intros w [[_ [H _]] Hr]. congruence.
Qed.

Lemma K_processPlugins : keeps K processPlugins.
Proof.
  unfold processPlugins. apply triple_read. intros r.
  destruct (hasProcessedPlugins r) eqn:Hflag.
  - apply triple_ret. tauto.
  - apply (triple_pure False); [|tauto].
    intros w [[_ [_ H]] Hr]. congruence.
Qed.

Lemma K_after (s : Step) (w : World) :
  s <> register call_clear -> K w -> K (after s w).
Proof.
  intros Hs Hw. destruct s as [op|c]; simpl.
  - apply keeps_run; [|exact Hw].
    apply (triple_finalize K) with (R := K).
    + intros v w' Hw'. exact Hw'.
    + intros v w' Hw'. exact Hw'.
    + apply K_preStart.
    + apply K_processPlugins.
    + auto.
  - apply keeps_run; [|exact Hw].
    apply (keeps_perform K K_warn K_step). congruence.
Qed.

Lemma K_afterAll (l : list Step) (w : World) :
  ~ In (register call_clear) l -> K w -> K (afterAll l w).
Proof.
  unfold afterAll. revert w. induction l as [|s l IH]; intros w Hl Hw; [exact Hw|].
  simpl. apply IH.
  - intros H. apply Hl. right. exact H.
  - apply K_after; [|exact Hw]. intros H. apply Hl. left. exact H.
Qed.
End Quiet.

(** A finalize operation that starts with the pipeline flag down and returns
    has called the global type-add hook of the plugin [pid] once for each
    time the plugin is in the list with such a hook. *)
Lemma finalize_count (pid : nat) (op : Finalize) (n : nat) :
  triple (fun w => typeAddCallsOf pid (log w) = n /\ hasProcessedPlugins (this w) = false)
    (finalize op)
    (fun _ w =>
       typeAddCallsOf pid (log w)
       = n + List.length (filter (isTypeAdder pid) (plugins (this w))))
    (fun _ => True).
Proof.
  apply (triple_finalize
           (fun w => typeAddCallsOf pid (log w)
                     = n + List.length (filter (isTypeAdder pid) (plugins (this w)))))
    with (R := fun w => typeAddCallsOf pid (log w) = n /\ hasProcessedPlugins (this w) = false).
  - intros v w Hw. exact Hw.
  - intros v w Hw. exact Hw.
  - apply keeps_relax. apply keeps_preStart.
    + intros message w [H1 H2]. split; [|exact H2]. simpl.
      rewrite typeAddCallsOf_other; [exact H1|reflexivity].
    + intros f w Hf [H1 H2]. split; [exact H1|]. simpl.
      rewrite (registrationFrame_hasProcessedPlugins _ _ (Hf (this w))). exact H2.
    + intros r' w [H1 _] He _. split; [exact H1|]. apply He.
    + intros pid' w [H1 H2]. split; [|exact H2]. simpl.
      rewrite typeAddCallsOf_other; [exact H1|]. apply andb_false_r.
    + intros w Hw. exact Hw.
  - intros w [H1 H2].
    pose proof (processPlugins_count pid (plugins (this w)) n w) as H.
    specialize (H (conj (conj eq_refl H1) H2)).
    destruct (processPlugins w) as [[u|e] w']; [|exact Logic.I].
    destruct H as [Hp Hn]. rewrite Hp. exact Hn.
  - auto.
Qed.

(** The pipeline and the builds leave the plugin list as the setup
    callbacks have left it. *)
Lemma finalize_plugins (op : Finalize) (w : World) :
  plugins (this (snd (finalize op w))) = plugins (this (snd (preStart w))).
Proof.
  set (ps := plugins (this (snd (preStart w)))).
  assert (H : triple (fun w' => w' = w) (finalize op)
                (fun _ w' => plugins (this w') = ps) (fun w' => plugins (this w') = ps)).
  { apply (triple_finalize (fun w' => plugins (this w') = ps))
      with (R := fun w' => plugins (this w') = ps).
    - intros v w' Hw'. exact Hw'.
    - intros v w' Hw'. exact Hw'.
    - intros w' Hw'. subst w'. subst ps. destruct (preStart w) as [[u|e] w1]; reflexivity.
    - apply triple_processPlugins with (ok := fun _ => True).
      + auto.
      + intros f w' Hf H'. simpl. rewrite pipelineUpdate_plugins; assumption.
      + auto.
      + auto.
      + auto.
      + intros w' Hw'. exact Hw'.
    - auto. }
  specialize (H w eq_refl). destruct (finalize op w) as [[s|e] w']; exact H.
Qed.

(** A run that returns has raised the flag. *)
Lemma processPlugins_raises_the_flag :
  triple (fun _ => True) processPlugins
    (fun _ w => hasProcessedPlugins (this w) = true) (fun _ => True).
Proof.
  apply triple_processPlugins with (ok := fun _ => True); auto.
Qed.

(** A run that is cut short is cut short by a hook it has just called, and
    leaves the flag down. *)
Lemma processPlugins_throws_out_of_a_hook (w : World) :
  hasProcessedPlugins (this w) = false ->
  triple (fun w' => w' = w) processPlugins
    (fun _ w' => exists calls,
       log w' = log w ++ calls /\ Forall (fun e => isHookCall e = true) calls)
    (fun w' =>
       hasProcessedPlugins (this w') = false /\
       exists calls call,
         log w' = log w ++ calls ++ [call] /\
         Forall (fun e => isHookCall e = true) calls /\ isHookCall call = true).
Proof.
  intros Hflag.
  set (I := fun w' : World =>
              hasProcessedPlugins (this w') = false /\
              exists calls, log w' = log w ++ calls /\
                            Forall (fun e => isHookCall e = true) calls).
  apply (triple_strengthen _ I).
  2:{ intros w' Hw'. subst w'. split; [exact Hflag|]. exists [].
      split; [symmetry; apply app_nil_r|constructor]. }
  apply outcome_processPlugins with (ok := fun e => isHookCall e = true).
  - intros e w' He (H1&calls&H2&H3). split; [exact H1|]. exists (calls ++ [e]). simpl.
    rewrite H2, app_assoc. split; [reflexivity|].
    apply Forall_app. split; [exact H3|]. constructor; [exact He|constructor].
  - intros e w' He (H1&calls&H2&H3). split; [exact H1|]. exists calls, e. simpl.
    rewrite H2, app_assoc. auto.
  - intros f w' Hf (H1&H2). split; [|exact H2]. simpl.
    rewrite pipelineUpdate_hasProcessedPlugins; assumption.
  - reflexivity.
  - reflexivity.
  - intros w' (H1&_) H2. congruence.
  - intros w' (_&H2). exact H2.
Qed.

(** C1, as the code has it. The one-shot flag decides whether the pipeline
    body runs, and only a run that gets to its end raises it. With the flag
    up, [processPlugins] does nothing. With the flag down the body runs: if
    the run returns, the flag is up and the global type-add hook of every
    plugin in the list has been called once; if it throws, it does so out of
    a hook it has just called, and the flag is still down, so that the next
    call runs the body again. Hence a finalize operation that returns leaves
    both flags up; from then on no finalize operation and no registration
    call short of [clear] calls any plugin hook; and if the pipeline flag was
    down before that operation, the global type-add hook of every plugin
    that was registered when the setup had run has been called exactly once,
    then and for good. *)
Theorem pipeline_completes_once (w : World) (op : Finalize) (later : list Step)
    (p : Plugin.t) :
  (hasProcessedPlugins (this w) = true -> processPlugins w = (Returns tt, w)) /\
  (hasProcessedPlugins (this w) = false ->
   fst (processPlugins w) = Returns tt ->
   hasProcessedPlugins (this (snd (processPlugins w))) = true /\
   (NoDup (map Plugin.self (plugins (this w))) -> In p (plugins (this w)) ->
    typeAddCallsOf (Plugin.self p) (log (snd (processPlugins w)))
    = typeAddCallsOf (Plugin.self p) (log w) + if implementsTypeAdd p then 1 else 0)) /\
  (forall e, fst (processPlugins w) = Throws e ->
   hasProcessedPlugins (this (snd (processPlugins w))) = false /\
   exists calls call,
     log (snd (processPlugins w)) = log w ++ calls ++ [call] /\
     Forall (fun e => isHookCall e = true) calls /\ isHookCall call = true) /\
  (forall s, fst (finalize op w) = Returns s ->
   ~ In (register call_clear) later ->
   finalized (snd (finalize op w)) /\
   hookCalls (log (afterAll later (snd (finalize op w))))
   = hookCalls (log (snd (finalize op w))) /\
   (hasProcessedPlugins (this w) = false ->
    NoDup (map Plugin.self (plugins (this (snd (preStart w))))) ->
    In p (plugins (this (snd (preStart w)))) ->
    typeAddCallsOf (Plugin.self p) (log (afterAll later (snd (finalize op w))))
    = typeAddCallsOf (Plugin.self p) (log w) + if implementsTypeAdd p then 1 else 0)).
Proof.
  split; [apply processPlugins_done|]. split; [|split].
  - intros Hflag Hret. split.
    + apply (triple_run _ _ _ _ w tt processPlugins_raises_the_flag Logic.I Hret).
    + intros ND Hp.
      pose proof (triple_run _ _ _ _ w tt
                    (processPlugins_count (Plugin.self p) (plugins (this w))
                       (typeAddCallsOf (Plugin.self p) (log w)))
                    (conj (conj eq_refl eq_refl) Hflag) Hret) as [_ H].
      rewrite H, (isTypeAdder_once p _ ND Hp). reflexivity.
  - intros e He.
    assert (Hflag : hasProcessedPlugins (this w) = false).
    { destruct (hasProcessedPlugins (this w)) eqn:F; [|reflexivity].
      rewrite (processPlugins_done w F) in He. discriminate. }
    pose proof (processPlugins_throws_out_of_a_hook w Hflag w eq_refl) as H.
    destruct (processPlugins w) as [[u|e'] w']; [discriminate|]. simpl.
    destruct H as (H1&calls&call&H2&H3&H4). split; [exact H1|]. eauto.
  - intros s Hret Hlater.
    pose proof (triple_run _ _ _ _ w s (finalize_finalized op) Logic.I Hret) as Hfin.
    assert (Hquiet : hookCalls (log (afterAll later (snd (finalize op w))))
                     = hookCalls (log (snd (finalize op w)))).
    { apply (K_afterAll (hookCalls (log (snd (finalize op w)))) later); [exact Hlater|].
      split; [reflexivity|exact Hfin]. }
    split; [exact Hfin|]. split; [exact Hquiet|].
    intros Hflag ND Hp.
    rewrite <- typeAddCallsOf_hookCalls, Hquiet, typeAddCallsOf_hookCalls.
    rewrite (triple_run _ _ _ _ w s
               (finalize_count (Plugin.self p) op (typeAddCallsOf (Plugin.self p) (log w))));
      [|split; [reflexivity|exact Hflag]|exact Hret].
    rewrite finalize_plugins, (isTypeAdder_once p _ ND Hp). reflexivity.
Qed.

Lemma pipeline_completes_once_witness :
  typeAddCallsOf 1
    (log (afterAll
            [finish declarations;
             register (call_registerType (typesOnly [objectType "Book" ""]));
             finish executable; finish federatable]
            (snd (finalize executable
                    (worldWith [adds 1 "inherit" "Node"; watches 2 "watch"])))))
  = 1.
Proof.
  destruct (fst (finalize executable (worldWith [adds 1 "inherit" "Node"; watches 2 "watch"])))
    as [s|e] eqn:E; [|vm_compute in E; discriminate].
  refine (proj2 (proj2
            (proj2 (proj2 (proj2
               (pipeline_completes_once
                  (worldWith [adds 1 "inherit" "Node"; watches 2 "watch"]) executable
                  [finish declarations;
                   register (call_registerType (typesOnly [objectType "Book" ""]));
                   finish executable; finish federatable]
                  ((adds 1 "inherit" "Node") <| Plugin.registry := Some 0 |>))))
               s E _)) _ _ _).
  - simpl. intros [H|[H|[H|[H|[]]]]]; discriminate.
  - reflexivity.
  - vm_compute. repeat constructor; simpl; intuition discriminate.
  - vm_compute. left. reflexivity.
Defined.

(** C1 as stated fails: when a validation hook rejects, the body runs again
    on the next finalize call, and a global type-add hook fires a second time. *)
Lemma type_add_hook_fires_twice :
  ~ typeAddCalls
      (log (afterAll [finish declarations; finish declarations]
              (worldWith [rejects 1 "strict"]))) <= 1.
Proof. vm_compute. lia. Qed.

(** ** A finalize operation, step by step *)

(** The setup step returns with its flag up. *)
Lemma preStart_returns_started (w : World) :
  fst (preStart w) = Returns tt -> hasExecutedPreStart (this (snd (preStart w))) = true.
Proof.
  apply (triple_run (fun _ => True) preStart
           (fun _ w' => hasExecutedPreStart (this w') = true) (fun _ => True) w tt);
    [|exact Logic.I].
  unfold preStart. apply triple_read. intros r.
  destruct (hasExecutedPreStart r) eqn:Hflag.
  - apply triple_ret. intros w' [_ Hr]. rewrite Hr. exact Hflag.
  - eapply triple_bind; [apply triple_anything|]. intros ?; cbv beta.
    apply triple_modify. intros w' _. reflexivity.
Qed.

(** A finalize operation is the setup step, then the pipeline, then a build
    that calls no hook and changes neither the declarations nor a flag: it
    throws what the setup step or the pipeline throws, where they throw it. *)
Lemma finalize_cases (op : Finalize) (w : World) :
  match preStart w with
  | (Throws e, w1) => finalize op w = (Throws e, w1)
  | (Returns _, w1) =>
      match processPlugins w1 with
      | (Throws e, w2) => finalize op w = (Throws e, w2)
      | (Returns _, w2) => sameButArtifacts w2 (snd (finalize op w))
      end
  end.
Proof.
  assert (Hwrap : forall w2, sameButArtifacts w2 (snd (wrapRemoteSchemas w2))).
  { intros w2. apply (keeps_run (sameButArtifacts w2) wrapRemoteSchemas w2).
    - apply keeps_wrapRemoteSchemas. intros v w' H. exact H.
    - unfold sameButArtifacts. repeat split; reflexivity. }
  destruct op; simpl; unfold getFederatableSchema, getSchema, getExecutableSchema, bind;
    destruct (preStart w) as [[u|e] w1]; try reflexivity;
    destruct (processPlugins w1) as [[u'|e] w2]; try reflexivity.
  - unfold sameButArtifacts. repeat split; reflexivity.
  - specialize (Hwrap w2). unfold getThis at 1.
    destruct (wrapRemoteSchemas w2) as [[remotes|e] w3]; exact Hwrap.
  - unfold getThis at 1. destruct (executableSchema (this w2)).
    + unfold sameButArtifacts. repeat split; reflexivity.
    + specialize (Hwrap w2).
      destruct (wrapRemoteSchemas w2) as [[remotes|e] w3]; [|exact Hwrap].
      destruct w3. exact Hwrap.
Qed.

(** ** A validation hook that rejects *)

(** A loop one turn of which establishes [J1] returns in [J1], when every
    turn keeps [J1] and, before it, [J0]. *)
Lemma triple_forEach_reaches {A : Type} (J0 J1 E : World -> Prop) (l : list A)
    (body : A -> M unit) (x : A) :
  In x l ->
  (forall y, triple J0 (body y) (fun _ => J0) E) ->
  (forall y, triple J1 (body y) (fun _ => J1) E) ->
  triple J0 (body x) (fun _ => J1) E ->
  triple J0 (forEach l body) (fun _ => J1) E.
Proof.
  unfold forEach. induction l as [|y l IH]; intros Hin H0 H1 Hx; [destruct Hin|].
  simpl. destruct Hin as [Hy|Hin].
  - subst y. eapply triple_bind; [exact Hx|]. intros u. destruct u.
    apply (triple_foldM (fun _ => J1)). intros _ z _. apply H1.
  - eapply triple_bind; [apply H0|]. intros u. destruct u. apply IH; assumption.
Qed.

Section Validated.
Variable p : Plugin.t.
Variable validate : DocumentNode -> DocumentNode -> Outcome unit.
Hypothesis p_validates : Plugin.validateSchema p = Some validate.

(** The hook's error is the turn's: nothing catches it. *)
Lemma finalizeTurn_propagates (schema extensions : DocumentNode) (w : World) (e : string) :
  validate schema extensions = Throws e ->
  fst (finalizeTurn schema extensions p w) = Throws e.
Proof.
  intros He. unfold finalizeTurn, callGlobal, invoke, bind.
  rewrite p_validates. simpl. rewrite He. reflexivity.
Qed.

(** the validation hook of [p] accepts the documents of the registry *)
Let accepted (r : GQLRegistry) : Prop :=
  validate (getDefinitionsDocument r) (getExtensionDefinitionsDocument r) = Returns tt.

Lemma accepted_same (w w' : World) :
  sameButArtifacts w w' -> accepted (this w) -> accepted (this w').
Proof.
  intros (H&_) Ha. unfold accepted.
  change (getDefinitionsDocument (this w'))
    with (match snapshot (this w') with Some d => fst d | None => mkDocument [] end).
  change (getExtensionDefinitionsDocument (this w'))
    with (match snapshot (this w') with Some d => snd d | None => mkDocument [] end).
  rewrite H. exact Ha.
Qed.

(** A turn of the last loop changes nothing in the registry; the turn of
    [p] returns only if its validation hook accepts, having called it. *)
Lemma finalizeTurn_validates (r : GQLRegistry) (n : nat) :
  triple (fun w => this w = r /\ n <= List.length (log w))
    (finalizeTurn (getDefinitionsDocument r) (getExtensionDefinitionsDocument r) p)
    (fun _ w => (this w = r /\ n <= List.length (log w)) /\
                accepted r /\ n < List.length (log w))
    (fun _ => True).
Proof.
  intros w [Hr Hn]. destruct w as [r0 l]. cbn [this log] in *. subst r0.
  unfold finalizeTurn, callGlobal, invoke, bind. rewrite p_validates. simpl.
  unfold accepted.
  destruct (validate (getDefinitionsDocument r) (getExtensionDefinitionsDocument r))
    as [[]|e]; simpl; [|exact Logic.I].
  destruct (Plugin.setFinalSchema p) as [f|]; simpl.
  - destruct (f (getDefinitionsDocument r) (getExtensionDefinitionsDocument r));
      simpl; [|exact Logic.I].
    unfold constant, push. rewrite !length_app. simpl. repeat split; lia.
  - unfold constant, push. rewrite !length_app. simpl. repeat split; lia.
Qed.

Lemma finalizeTurn_frame (J : World -> Prop) (schema extensions : DocumentNode)
    (q : Plugin.t) :
  (forall e w, J w -> J (mkWorld (this w) (log w ++ [e]))) ->
  triple J (finalizeTurn schema extensions q) (fun _ => J) (fun _ => True).
Proof.
  intros HJ.
  apply (runs_finalizeTurn J (fun _ => True) (fun _ => True)) with (hooks := fun _ => True);
    try exact Logic.I; auto.
  intros h d _. exact Logic.I.
Qed.

(** A run of the pipeline that returns has called the validation hook of
    [p], which has accepted the documents of the registry as the run leaves
    it. *)
Lemma processPlugins_validates (n : nat) :
  triple
    (fun w => hasProcessedPlugins (this w) = false /\ In p (plugins (this w)) /\
              n <= List.length (log w))
    processPlugins
    (fun _ w => accepted (this w) /\ n < List.length (log w))
    (fun _ => True).
Proof.
  set (I := fun w : World =>
              hasProcessedPlugins (this w) = false /\ In p (plugins (this w)) /\
              n <= List.length (log w)).
  apply (outcome_processPlugins_phases I (fun _ => True) (fun _ => True)).
  - intros e w _ (H1&H2&H3). unfold I. simpl. rewrite length_app. simpl.
    repeat split; [assumption|assumption|lia].
  - auto.
  - intros f w Hf (H1&H2&H3). unfold I. simpl.
    rewrite pipelineUpdate_hasProcessedPlugins, pipelineUpdate_plugins by assumption.
    auto.
  - auto.
  - auto.
  - intros w (H1&_) H2. congruence.
  - intros r. apply (triple_pure (In p (plugins r))).
    { intros w [(_&H&_) Hr]. subst r. exact H. }
    intros Hp.
    eapply (triple_bind _ _
              (fun _ w => (this w = r /\ n <= List.length (log w)) /\
                          accepted r /\ n < List.length (log w))).
    + apply (triple_strengthen _ (fun w => this w = r /\ n <= List.length (log w))).
      2:{ intros w [(_&_&H) Hr]. auto. }
      apply triple_forEach_reaches with (x := p).
      * exact Hp.
      * intros y. apply finalizeTurn_frame. intros e w [H1 H2]. simpl.
        rewrite length_app. simpl. split; [assumption|lia].
      * intros y. apply finalizeTurn_frame. intros e w [[H1 H2] [H3 H4]]. simpl.
        rewrite length_app. simpl. repeat split; try assumption; lia.
      * apply finalizeTurn_validates.
    + intros _. apply triple_modify. intros w [[Hr _] [Ha Hn]]. cbn [this log].
      split; [|exact Hn]. rewrite Hr. exact Ha.
Qed.
End Validated.

(** no result cached, the pipeline flag down, the setup flag as given, [p] registered *)
Lemma unfinished_preStart (p : Plugin.t) :
  keeps (fun w => hasProcessedPlugins (this w) = false /\
                  executableSchema (this w) = None /\
                  In p (plugins (this w))) preStart.
Proof.
  apply keeps_preStart.
  - intros message w H. exact H.
  - intros f w Hf (H1&H2&H3). simpl.
    rewrite (registrationFrame_hasProcessedPlugins _ _ (Hf (this w))).
    rewrite (registrationFrame_executableSchema _ _ (Hf (this w))).
    repeat split; try assumption.
    apply (registrationFrame_plugins _ _ p (Hf (this w))). exact H3.
  - intros r' w (_&_&H3) He Hk. simpl.
    unfold emptied in He. unfold keptByClear in Hk. decompose [and] He. decompose [and] Hk.
    repeat split; try assumption. congruence.
  - intros pid w H. exact H.
  - intros w H. exact H.
Qed.

Lemma unfinished_processPlugins (p : Plugin.t) (started : bool) :
  triple
    (fun w => hasProcessedPlugins (this w) = false /\
              executableSchema (this w) = None /\
              In p (plugins (this w)) /\
              hasExecutedPreStart (this w) = started)
    processPlugins
    (fun _ w => In p (plugins (this w)) /\ hasExecutedPreStart (this w) = started)
    (fun w => hasProcessedPlugins (this w) = false /\
              executableSchema (this w) = None /\
              In p (plugins (this w)) /\
              hasExecutedPreStart (this w) = started).
Proof.
  apply triple_processPlugins with (ok := fun _ => True).
  - auto.
  - intros f w Hf (H1&H2&H3&H4). simpl.
    rewrite pipelineUpdate_hasProcessedPlugins, pipelineUpdate_executableSchema,
      pipelineUpdate_plugins, pipelineUpdate_hasExecutedPreStart by assumption.
    auto.
  - auto.
  - auto.
  - intros w (H1&_) H2. congruence.
  - intros w (_&_&H3&H4). split; assumption.
Qed.

Lemma first_is_a_hook_call (calls : list Event) :
  Forall (fun e => isHookCall e = true) calls -> calls <> [] ->
  exists call rest, calls = call :: rest /\ isHookCall call = true.
Proof.
  intros H Hne. destruct calls as [|call rest]; [contradiction|].
  inversion H. eauto.
Qed.

(** With the setup done and the pipeline flag down, a finalize operation
    goes through the pipeline: the first thing it does is to call a hook,
    and it returns only if the validation hook of a registered plugin
    accepts the documents of the registry as it leaves it. *)
Lemma finalize_goes_through_the_pipeline (p : Plugin.t)
    (validate : DocumentNode -> DocumentNode -> Outcome unit) (op : Finalize) (w : World) :
  Plugin.validateSchema p = Some validate ->
  In p (plugins (this w)) ->
  hasExecutedPreStart (this w) = true ->
  hasProcessedPlugins (this w) = false ->
  (exists call calls,
     log (snd (finalize op w)) = log w ++ call :: calls /\ isHookCall call = true) /\
  (forall s, fst (finalize op w) = Returns s ->
     validate (getDefinitionsDocument (this (snd (finalize op w))))
       (getExtensionDefinitionsDocument (this (snd (finalize op w)))) = Returns tt).
Proof.
  intros Hv Hp Hstarted Hflag.
  pose proof (finalize_cases op w) as Hcases.
  rewrite (preStart_done w Hstarted) in Hcases.
  pose proof (processPlugins_throws_out_of_a_hook w Hflag w eq_refl) as H1.
  pose proof (processPlugins_validates p validate Hv (List.length (log w)) w
                (conj Hflag (conj Hp (le_n _)))) as H2.
  destruct (processPlugins w) as [[u|e] w2].
  - destruct H1 as (calls&Hlog&Hcalls). destruct H2 as [Ha Hn].
    pose proof Hcases as (Hdocs&Hlog'&_).
    split.
    + rewrite Hlog', Hlog.
      destruct (first_is_a_hook_call calls Hcalls) as (call&rest&Hc&Hh).
      { intros Hnil. subst calls. rewrite Hlog, app_nil_r in Hn. lia. }
      subst calls. eauto.
    + intros s _.
      apply (accepted_same validate w2 (snd (finalize op w))); [exact Hcases|exact Ha].
  - rewrite Hcases. simpl. destruct H1 as (_&calls&call&Hlog&Hcalls&Hcall).
    split; [|discriminate].
    destruct calls as [|c rest].
    + exists call, []. auto.
    + exists c, (rest ++ [call]). inversion Hcalls. auto.
Qed.

(** Registration calls, [clear] among them, neither raise the pipeline flag
    nor lower the setup flag, and a plugin in the list stays there. *)
Lemma registrations_keep_unfinished (p : Plugin.t) (calls : list Call) (w : World) :
  hasProcessedPlugins (this w) = false ->
  hasExecutedPreStart (this w) = true ->
  In p (plugins (this w)) ->
  hasProcessedPlugins (this (afterAll (map register calls) w)) = false /\
  hasExecutedPreStart (this (afterAll (map register calls) w)) = true /\
  In p (plugins (this (afterAll (map register calls) w))).
Proof.
  set (J := fun w' : World =>
              hasProcessedPlugins (this w') = false /\
              hasExecutedPreStart (this w') = true /\
              In p (plugins (this w'))).
  assert (Hstep : forall c, keeps J (perform c)).
  { intros c. apply keeps_perform_any.
    - intros message w' H. exact H.
    - intros f w' Hf (H1&H2&H3). unfold J. simpl.
      rewrite (registrationFrame_hasProcessedPlugins _ _ (Hf (this w'))).
      rewrite (registrationFrame_hasExecutedPreStart _ _ (Hf (this w'))).
      repeat split; try assumption.
      apply (registrationFrame_plugins _ _ p (Hf (this w'))). exact H3.
    - intros r' w' (_&H2&H3) He Hk. unfold J. simpl.
      unfold emptied in He. unfold keptByClear in Hk.
      decompose [and] He. decompose [and] Hk.
      repeat split; try assumption; congruence.
    - intros pid w' H. exact H. }
  revert w. induction calls as [|c calls IH]; intros w H1 H2 H3; [simpl; auto|].
  cbn [map afterAll fold_left].
  pose proof (keeps_run J (perform c) w (Hstep c) (conj H1 (conj H2 H3))) as (K1&K2&K3).
  apply (IH (after (register c) w)); assumption.
Qed.

(** C7. When the validation hook of a registered plugin raises on the
    documents of a run of the fully-executable build (those of the registry
    as the run leaves it, which are what the last loop hands to the
    validation hooks): the hook's error is what its turn throws, nothing
    catches it; the build rejects; the cached artifact is still unset and
    the pipeline flag still down. So the next finalize operation, after
    whatever is registered in between, goes through the pipeline again from
    its first loop: the first thing it does is to call a hook, and it
    returns only if the validation hook now accepts. *)
Theorem validation_failure_leaves_nothing_cached (w : World) (p : Plugin.t)
    (validate : DocumentNode -> DocumentNode -> Outcome unit) (e : string)
    (between : list Call) (op : Finalize) :
  In p (plugins (this w)) ->
  Plugin.validateSchema p = Some validate ->
  fst (preStart w) = Returns tt ->
  hasProcessedPlugins (this w) = false ->
  executableSchema (this w) = None ->
  validate (getDefinitionsDocument (this (snd (getExecutableSchema w))))
    (getExtensionDefinitionsDocument (this (snd (getExecutableSchema w)))) = Throws e ->
  (forall schema extensions w0 e',
      validate schema extensions = Throws e' ->
      fst (finalizeTurn schema extensions p w0) = Throws e') /\
  (exists e', fst (getExecutableSchema w) = Throws e') /\
  executableSchema (this (snd (getExecutableSchema w))) = None /\
  hasProcessedPlugins (this (snd (getExecutableSchema w))) = false /\
  (exists call calls,
     log (snd (finalize op (afterAll (map register between) (snd (getExecutableSchema w)))))
     = log (afterAll (map register between) (snd (getExecutableSchema w))) ++ call :: calls /\
     isHookCall call = true) /\
  (forall s,
     fst (finalize op (afterAll (map register between) (snd (getExecutableSchema w))))
     = Returns s ->
     validate
       (getDefinitionsDocument
          (this (snd (finalize op
                        (afterAll (map register between) (snd (getExecutableSchema w)))))))
       (getExtensionDefinitionsDocument
          (this (snd (finalize op
                        (afterAll (map register between) (snd (getExecutableSchema w)))))))
     = Returns tt).
Proof.
  intros Hp Hv Hpre Hflag Hcache Hrej.
  split; [intros; apply (finalizeTurn_propagates p validate Hv); assumption|].
  pose proof (finalize_cases executable w) as Hcases. cbn [finalize] in Hcases.
  pose proof (preStart_returns_started w Hpre) as Hstarted.
  pose proof (keeps_run _ preStart w (unfinished_preStart p)
                (conj Hflag (conj Hcache Hp))) as (Hflag1&Hcache1&Hp1).
  destruct (preStart w) as [[[]|e0] w1]; [|discriminate]. cbn [fst snd] in *.
  pose proof (unfinished_processPlugins p true w1
                (conj Hflag1 (conj Hcache1 (conj Hp1 Hstarted)))) as Hframe.
  pose proof (processPlugins_validates p validate Hv 0 w1
                (conj Hflag1 (conj Hp1 (Nat.le_0_l _)))) as Hvalid.
  destruct (processPlugins w1) as [[u|e1] w2].
  - exfalso. destruct Hvalid as [Ha _].
    pose proof (accepted_same validate w2 (snd (getExecutableSchema w)) Hcases Ha) as Ha'.
    congruence.
  - rewrite Hcases. cbn [fst snd]. destruct Hframe as (F1&F2&F3&F4).
    split; [eauto|]. split; [exact F2|]. split; [exact F1|].
    destruct (registrations_keep_unfinished p between w2 F1 F4 F3) as (G1&G2&G3).
    apply (finalize_goes_through_the_pipeline p validate op _ Hv G3 G2 G1).
Qed.

Lemma validation_failure_leaves_nothing_cached_witness :
  (exists e', fst (getExecutableSchema (worldWith [requires 1 "strict" "Book"])) = Throws e') /\
  includes
    (names
       (definitions
          (getDefinitionsDocument
             (this (snd (finalize executable
                           (afterAll
                              [register (call_registerType (typesOnly [objectType "Book" ""]))]
                              (snd (getExecutableSchema
                                      (worldWith [requires 1 "strict" "Book"]))))))))))
    "Book"
  = true.
Proof.
  destruct (validation_failure_leaves_nothing_cached
              (worldWith [requires 1 "strict" "Book"])
              ((requires 1 "strict" "Book") <| Plugin.registry := Some 0 |>)
              (fun schema _ =>
                 if includes (names (definitions schema)) "Book" then Returns tt
                 else Throws "type missing")
              "type missing"
              [call_registerType (typesOnly [objectType "Book" ""])]
              executable) as (_&H1&_&_&_&H2).
  - simpl. left. reflexivity.
  - reflexivity.
  - reflexivity.
  - reflexivity.
  - reflexivity.
  - vm_compute. reflexivity.
  - split; [exact H1|].
    destruct (fst (finalize executable
                     (afterAll
                        (map register [call_registerType (typesOnly [objectType "Book" ""])])
                        (snd (getExecutableSchema (worldWith [requires 1 "strict" "Book"]))))))
      as [s|e'] eqn:E; [|vm_compute in E; discriminate].
    specialize (H2 s eq_refl). cbv beta in H2. cbn [map] in H2.
    destruct (includes _ "Book"); [reflexivity|discriminate].
Defined.

(** ** Which documents a hook is handed *)


Lemma names_app (l1 l2 : list Node) : names (l1 ++ l2) = names l1 ++ names l2.
Proof. apply map_app. Qed.

Lemma names_evictAndPush (s : list Node) (d : Node) (n : string) :
  In n (names s) \/ n = name_value d -> In n (names (evictAndPush s d)).
Proof.
  unfold evictAndPush, push. rewrite names_app. simpl. intros [H|H].
  - destruct (String.eqb_spec n (name_value d)) as [E|E];
      [apply in_or_app; right; left; congruence|].
    apply in_or_app. left.
    induction s as [|x s IH]; [destruct H|]. simpl.
    destruct (sameName d x) eqn:Ex.
    + unfold splice. simpl. destruct H as [H|H]; [|exact H].
      unfold sameName in Ex. apply String.eqb_eq in Ex. congruence.
    + destruct H as [H|H].
      * destruct (findIndex (sameName d) s); simpl; unfold splice; simpl; left; exact H.
      * specialize (IH H).
        destruct (findIndex (sameName d) s); simpl in *; unfold splice in *; simpl;
          right; exact IH.
  - apply in_or_app. right. left. congruence.
Qed.

Lemma names_upsertAll (accept : Node -> bool) (incoming s : list Node) (n : string) :
  In n (names s) \/ (exists d, In d incoming /\ accept d = true /\ name_value d = n) ->
  In n (names (upsertAll accept s incoming)).
Proof.
  revert s. induction incoming as [|x l IH]; intros s H; simpl.
  - destruct H as [H|[d [[] _]]]. exact H.
  - apply IH. destruct H as [H|[d [[Hd|Hd] [Ha Hn]]]].
    + left. destruct (accept x); [apply names_evictAndPush; left|]; exact H.
    + left. subst d. rewrite Ha. apply names_evictAndPush. right. congruence.
    + right. exists d. auto.
Qed.






(** Once an earlier plugin has contributed the type [T], every call of the
    global type-add hook of the plugin instance [pid2] is handed a base
    document that has [T]. *)
Section LaterPlugin.
Variables (T : string) (pid2 : nat) (ps : list Plugin.t).

Let notTypeAdd (h : Hook.t) : Prop := h <> Hook.addTypeDefinitions.












End LaterPlugin.




(** ** Direct registration *)

Lemma sets_ret : sets (ret tt) (fun r => r).
Proof. intros w. exists []. destruct w. simpl. rewrite app_nil_r. reflexivity. Qed.

Lemma sets_modify (f : GQLRegistry -> GQLRegistry) : sets (modify f) f.
Proof. intros w. exists []. destruct w. simpl. rewrite app_nil_r. reflexivity. Qed.

Lemma sets_bind (m : M unit) (k : unit -> M unit) (f g : GQLRegistry -> GQLRegistry) :
  sets m f -> sets (k tt) g -> sets (bind m k) (fun r => g (f r)).
Proof.
  intros Hm Hk w. destruct (Hm w) as [w1 H1]. unfold bind. rewrite H1.
  destruct (Hk (mkWorld (f (this w)) (log w ++ map console_warn w1))) as [w2 H2].
  rewrite H2. exists (w1 ++ w2). simpl. rewrite map_app, app_assoc. reflexivity.
Qed.

Lemma sets_ext (m : M unit) (f g : GQLRegistry -> GQLRegistry) :
  sets m f -> (forall r, f r = g r) -> sets m g.
Proof. intros H Hfg w. destruct (H w) as [ws Hw]. exists ws. rewrite <- Hfg. exact Hw. Qed.

Lemma sets_check (accept : Node -> bool) (what : string)
    (sequence : GQLRegistry -> list Node) (incoming : list Node) :
  sets
    (forEach incoming (fun new =>
       if accept new then
         this <- getThis ;; warnIfRegistered what (sequence this) new
       else ret tt))
    (fun r => r).
Proof.
  unfold forEach. induction incoming as [|new l IH]; simpl; [apply sets_ret|].
  apply (sets_bind _ _ (fun r => r) (fun r => r)); [|exact IH].
  destruct (accept new); [|apply sets_ret].
  intros w. unfold bind, getThis, warnIfRegistered.
  destruct (findIndex (sameName new) (sequence (this w))).
  - eexists [_]. destruct w. reflexivity.
  - exists []. destruct w. simpl. rewrite app_nil_r. reflexivity.
Qed.

(** [registerType] warns, merges four times, and assigns the resolvers. *)
Lemma registerType_sets (args : RegisterTypeArgs.t) :
  sets (registerType args) (fun r => assignsOf args (mergeAll (mergesOf args) r)).
Proof.
  unfold registerType.
  assert (Htypes : sets
    match RegisterTypeArgs.typeDefinitions args with
    | Some typeDefinitions =>
        checkForDuplicateTypes (definitions typeDefinitions) ;;
        modify (mergeIncomingTypes (definitions typeDefinitions))
    | None => ret tt
    end
    (merge Type_ match RegisterTypeArgs.typeDefinitions args with
                 | Some typeDefinitions => definitions typeDefinitions
                 | None => []
                 end)).
  { destruct (RegisterTypeArgs.typeDefinitions args); [|apply sets_ret].
    apply (sets_bind _ _ (fun r => r)); [apply sets_check|apply sets_modify]. }
  eapply sets_ext.
  - eapply sets_bind; [exact Htypes|].
    eapply sets_bind; [apply sets_check|].
    eapply sets_bind; [apply (sets_modify (merge Query _))|].
    eapply sets_bind; [apply sets_check|].
    eapply sets_bind; [apply (sets_modify (merge Mutation _))|].
    eapply sets_bind; [apply sets_check|].
    eapply sets_bind; [apply (sets_modify (merge Subscription _))|].
    eapply sets_bind; [apply sets_modify|].
    eapply sets_bind; [apply sets_modify|].
    eapply sets_bind; [apply sets_modify|].
    apply sets_modify.
  - intros r. reflexivity.
Qed.

Lemma store_assignsOf (c' : Category) (args : RegisterTypeArgs.t) (r : GQLRegistry) :
  store c' (assignsOf args r) = store c' r.
Proof. destruct c'; reflexivity. Qed.

Lemma registerType_returns (args : RegisterTypeArgs.t) (w : World) :
  fst (registerType args w) = Returns tt /\
  this (snd (registerType args w)) = assignsOf args (mergeAll (mergesOf args) (this w)).
Proof. destruct (registerType_sets args w) as [ws H]. rewrite H. split; reflexivity. Qed.

Lemma registerType_store (c' : Category) (args : RegisterTypeArgs.t) (w : World) :
  store c' (this (snd (registerType args w))) = store c' (mergeAll (mergesOf args) (this w)).
Proof.
  destruct (registerType_returns args w) as [_ H]. rewrite H. apply store_assignsOf.
Qed.

Lemma store_mergeAll (c' : Category) (merges : list (Category * list Node))
    (a : list Node) (r : GQLRegistry) :
  store c' r = keepLast a ->
  store c' (mergeAll merges r) = keepLast (a ++ arrivals c' merges).
Proof.
  unfold mergeAll, arrivals. revert a r.
  induction merges as [|[c incoming] merges IH]; intros a r H; simpl.
  - rewrite app_nil_r. exact H.
  - rewrite app_assoc. apply IH.
    rewrite store_merge, H. apply upsertAll_keepLast.
Qed.

(** C3. In every declaration sequence whose names are unique: a merge of an
    accepted declaration removes the entry of that name, if there is one,
    and appends the incoming one at the end; after any sequence of merges the
    names are unique still, and the sequence holds, of all the entries that
    were there or arrived, the last of each name, in the order of those last
    arrivals. Direct registration and the pipeline change the sequences by
    such merges only. *)
Theorem merges_keep_names_unique (r : GQLRegistry) (c' : Category) :
  NoDup (names (store c' r)) ->
  (forall c d, routes c c' d = true ->
     store c' (merge c [d] r)
     = filter (fun x => negb (sameName d x)) (store c' r) ++ [d]) /\
  (forall merges,
     NoDup (names (store c' (mergeAll merges r))) /\
     store c' (mergeAll merges r) = keepLast (store c' r ++ arrivals c' merges)) /\
  (forall args l,
     store c' (this (snd (registerType args (mkWorld r l))))
     = store c' (mergeAll (mergesOf args) r)) /\
  (forall f, pipelineUpdate f ->
     NoDup (names (store c' (f r))) /\
     (store c' (f r) = store c' r \/
      exists c incoming, store c' (f r) = store c' (mergeAll [(c, incoming)] r))).
Proof.
  intros ND.
  assert (Hall : forall merges,
            store c' (mergeAll merges r) = keepLast (store c' r ++ arrivals c' merges)).
  { intros merges. apply store_mergeAll. symmetry. apply keepLast_NoDup. exact ND. }
  split; [|split; [|split]].
  - intros c d Hd. rewrite store_merge_one, Hd. apply evictAndPush_filter. exact ND.
  - intros merges. rewrite Hall. split; [apply NoDup_keepLast|reflexivity].
  - intros args l. apply (registerType_store c' args (mkWorld r l)).
  - intros f Hf. destruct Hf.
    + change (merge c incoming r) with (mergeAll [(c, incoming)] r).
      split; [rewrite Hall; apply NoDup_keepLast|].
      right. exists c, incoming. reflexivity.
    + split; [|left]; destruct c'; try exact ND; reflexivity.
    + split; [|left]; destruct c'; try exact ND; reflexivity.
    + split; [|left]; destruct c'; try exact ND; reflexivity.
    + split; [|left]; destruct c'; try exact ND; reflexivity.
    + split; [|left]; destruct c'; try exact ND; reflexivity.
    + split; [|left]; destruct c'; try exact ND; reflexivity.
    + split; [|left]; destruct c'; try exact ND; reflexivity.
    + split; [|left]; destruct c'; try exact ND; reflexivity.
    + split; [|left]; destruct c'; try exact ND; reflexivity.
Qed.

Lemma merges_keep_names_unique_witness :
  names (store Type_
           (mergeAll [(Type_, [objectType "Book" "v1"; objectType "Author" ""]);
                      (ExtensionType, [objectType "Book" "v2"])]
              (new_GQLRegistry 0)))
  = ["Author"; "Book"].
Proof.
  destruct (merges_keep_names_unique (new_GQLRegistry 0) Type_) as (_&H&_).
  - simpl. constructor.
  - rewrite (proj2 (H _)). reflexivity.
Defined.

(** ** Re-registration *)

Lemma filter_filter_and {A : Type} (p q : A -> bool) (l : list A) :
  filter p (filter q l) = filter (fun x => q x && p x) l.
Proof.
  induction l as [|x l IH]; simpl; [reflexivity|].
  destruct (q x); simpl; [destruct (p x)|]; rewrite IH; reflexivity.
Qed.

Lemma typeDefinitions_after_registerTypes (x : Node) (w : World) :
  isTypeDefinitionNode x = true ->
  typeDefinitions (this (after (registerTypes [x]) w))
  = evictAndPush (typeDefinitions (this w)) x.
Proof.
  intros Hx. unfold registerTypes, after, perform.
  change (store Type_ (this (snd (registerType (typesOnly [x]) w)))
          = evictAndPush (store Type_ (this w)) x).
  rewrite registerType_store.
  change (mergeAll (mergesOf (typesOnly [x])) (this w)) with (merge Type_ [x] (this w)).
  rewrite store_merge_one. cbn [routes]. rewrite Hx. reflexivity.
Qed.

Lemma sameName_same (a a' : Node) :
  name_value a' = name_value a -> forall x, sameName a' x = sameName a x.
Proof. intros H x. unfold sameName. rewrite H. reflexivity. Qed.

Lemma NoDup_evictAndPush (s : list Node) (d : Node) :
  NoDup (names s) -> NoDup (names (evictAndPush s d)).
Proof.
  intros ND. rewrite <- (keepLast_NoDup s ND).
  rewrite evictAndPush_filter by apply NoDup_keepLast.
  rewrite <- keepLast_snoc. apply NoDup_keepLast.
Qed.

(** C4, as the code has it. Registering type [A], then [A] again, then type
    [B] leaves the type sequence ending [..., A, B]: the re-registration of
    [A] takes its entry out and appends the new one at what is then the
    tail, and [B] is appended after it. It is registering [A], then [B], then
    [A] again that leaves [..., B, A]: the entry is moved, not updated in
    place. *)
Theorem reregistration_moves_to_the_tail (w : World) (A A' B : Node) :
  isTypeDefinitionNode A = true -> isTypeDefinitionNode A' = true ->
  isTypeDefinitionNode B = true ->
  name_value A' = name_value A -> name_value B <> name_value A ->
  NoDup (names (typeDefinitions (this w))) ->
  typeDefinitions
    (this (afterAll [registerTypes [A]; registerTypes [A']; registerTypes [B]] w))
  = filter (fun x => negb (sameName A x) && negb (sameName B x)) (typeDefinitions (this w))
    ++ [A'; B] /\
  typeDefinitions
    (this (afterAll [registerTypes [A]; registerTypes [B]; registerTypes [A']] w))
  = filter (fun x => negb (sameName A x) && negb (sameName B x)) (typeDefinitions (this w))
    ++ [B; A'].
Proof.
  intros HA HA' HB Hsame Hdiff ND.
  assert (HBA : sameName B A = false).
  { unfold sameName. apply String.eqb_neq. congruence. }
  assert (HAB : sameName A B = false) by (rewrite sameName_sym; exact HBA).
  assert (HBA' : sameName B A' = false).
  { unfold sameName. apply String.eqb_neq. congruence. }
  assert (HA'B : sameName A' B = false) by (rewrite sameName_sym; exact HBA').
  assert (HA'A : sameName A' A = true).
  { unfold sameName. apply String.eqb_eq. congruence. }
  set (s := typeDefinitions (this w)) in *.
  assert (H1 : evictAndPush s A = filter (fun x => negb (sameName A x)) s ++ [A])
    by (apply evictAndPush_filter; exact ND).
  pose proof (NoDup_evictAndPush s A ND) as ND1.
  unfold afterAll. cbn [fold_left].
  rewrite !typeDefinitions_after_registerTypes by assumption.
  fold s. split.
  - pose proof (NoDup_evictAndPush _ A' ND1) as ND2.
    rewrite (evictAndPush_filter _ B ND2), (evictAndPush_filter _ A' ND1), H1.
    rewrite !filter_app. cbn [filter]. rewrite HA'A. cbn [negb filter].
    rewrite HBA'. cbn [negb].
    rewrite !app_nil_r, !filter_filter_and, <- app_assoc. cbn [app]. f_equal.
    apply filter_ext. intros x. rewrite (sameName_same A A' Hsame).
    destruct (sameName A x); reflexivity.
  - pose proof (NoDup_evictAndPush _ B ND1) as ND2.
    rewrite (evictAndPush_filter _ A' ND2), (evictAndPush_filter _ B ND1), H1.
    rewrite !filter_app. cbn [filter]. rewrite HBA. cbn [negb filter].
    rewrite HA'A, HA'B. cbn [negb].
    rewrite !app_nil_r, !filter_filter_and, <- app_assoc. cbn [app]. f_equal.
    apply filter_ext. intros x. rewrite (sameName_same A A' Hsame).
    destruct (sameName A x), (sameName B x); reflexivity.
Qed.

Lemma reregistration_moves_to_the_tail_witness :
  typeDefinitions
    (this (afterAll [registerTypes [objectType "A" "v1"]; registerTypes [objectType "B" ""];
                     registerTypes [objectType "A" "v2"]]
             (worldWith [])))
  = [objectType "B" ""; objectType "A" "v2"].
Proof.
  refine (proj2 (reregistration_moves_to_the_tail (worldWith [])
                   (objectType "A" "v1") (objectType "A" "v2") (objectType "B" "")
                   _ _ _ _ _ _)).
  - reflexivity.
  - reflexivity.
  - reflexivity.
  - reflexivity.
  - simpl. discriminate.
  - simpl. constructor.
Defined.

(** C4 as stated fails: after [A], [A] again, [B] the order is [A, B]. *)
Lemma A_A_B_ends_A_B :
  names (typeDefinitions
           (this (afterAll [registerTypes [objectType "A" "v1"];
                            registerTypes [objectType "A" "v2"];
                            registerTypes [objectType "B" ""]]
                    (worldWith []))))
  = ["A"; "B"] /\
  names (typeDefinitions
           (this (afterAll [registerTypes [objectType "A" "v1"];
                            registerTypes [objectType "A" "v2"];
                            registerTypes [objectType "B" ""]]
                    (worldWith []))))
  <> ["B"; "A"].
Proof. vm_compute. split; [reflexivity|discriminate]. Qed.

(** ** Which fields [registerType] stores *)

Lemma upsertAll_reject (accept : Node -> bool) (s incoming : list Node) :
  (forall d, accept d = false) -> upsertAll accept s incoming = s.
Proof.
  intros H. revert s. induction incoming as [|d l IH]; intros s; simpl; [reflexivity|].
  rewrite H. apply IH.
Qed.

Lemma store_merge_other (c c' : Category) (incoming : list Node) (r : GQLRegistry) :
  (forall d, routes c c' d = false) -> store c' (merge c incoming r) = store c' r.
Proof. intros H. rewrite store_merge. apply upsertAll_reject. exact H. Qed.

Lemma find_filter {A : Type} (p : A -> bool) (l : list A) :
  find_ p (filter p l) = find_ p l.
Proof.
  induction l as [|x l IH]; simpl; [reflexivity|].
  destruct (p x) eqn:E; simpl; [rewrite E; reflexivity|exact IH].
Qed.

Lemma find_In {A : Type} (p : A -> bool) (l : list A) (x : A) :
  find_ p l = Some x -> In x l /\ p x = true.
Proof.
  induction l as [|y l IH]; simpl; [discriminate|].
  destruct (p y) eqn:E.
  - intros H. inversion H. subst. auto.
  - intros H. destruct (IH H). auto.
Qed.

Lemma find_none {A : Type} (p : A -> bool) (l : list A) :
  existsb p l = false -> find_ p l = None.
Proof.
  induction l as [|y l IH]; simpl; [reflexivity|].
  destruct (p y); simpl; [discriminate|exact IH].
Qed.

Lemma rootFields_from_root (root : string) (doc : option DocumentNode) (f : Node) :
  In f (rootFields root doc) ->
  exists document object fs,
    doc = Some document /\ In object (definitions document) /\
    kind object = Kind.OBJECT_TYPE_DEFINITION /\ name_value object = root /\
    fields object = Some fs /\ In f fs.
Proof.
  unfold rootFields. destruct doc as [document|]; [|intros []].
  destruct (find_ _ (definitions document)) as [object|] eqn:E; [|intros []].
  destruct (fields object) as [fs|] eqn:Ef; [|intros []].
  intros Hf. apply find_In in E. destruct E as [Hin Hroot].
  apply andb_prop in Hroot. destruct Hroot as [Hk Hn].
  apply String.eqb_eq in Hk. apply String.eqb_eq in Hn.
  exists document, object, fs. auto 10.
Qed.

Lemma rootFields_without_root (root : string) (doc : option DocumentNode) :
  hasRoot root doc = false -> rootFields root doc = [].
Proof.
  unfold hasRoot, rootFields. destruct doc as [document|]; [|reflexivity].
  intros H. fold (isRootObject root). rewrite (find_none _ _ H). reflexivity.
Qed.

Lemma rootFields_onlyRoot (root : string) (document : DocumentNode) :
  rootFields root (Some (onlyRoot root document)) = rootFields root (Some document).
Proof.
  unfold rootFields, onlyRoot. simpl. fold (isRootObject root).
  rewrite find_filter. reflexivity.
Qed.

Lemma registerType_fields (args : RegisterTypeArgs.t) (w : World) :
  queryDefinitions (this (snd (registerType args w)))
  = queryDefinitions
      (mergeIncomingQueries
         (rootFields "Query" (RegisterTypeArgs.queryDefinitions args)) (this w)) /\
  mutationDefinitions (this (snd (registerType args w)))
  = mutationDefinitions
      (mergeIncomingMutations
         (rootFields "Mutation" (RegisterTypeArgs.mutationDefinitions args)) (this w)) /\
  subscriptionDefinitions (this (snd (registerType args w)))
  = subscriptionDefinitions
      (mergeIncomingSubscriptions
         (rootFields "Subscription" (RegisterTypeArgs.subscriptionDefinitions args))
         (this w)).
Proof.
  pose proof (registerType_store Query args w) as Hq.
  pose proof (registerType_store Mutation args w) as Hm.
  pose proof (registerType_store Subscription args w) as Hs.
  unfold mergeAll, mergesOf in *. cbn [fold_left fst snd] in *.
  repeat split.
  - change (store Query (this (snd (registerType args w)))
            = store Query (merge Query (rootFields "Query"
                             (RegisterTypeArgs.queryDefinitions args)) (this w))).
    rewrite Hq.
    rewrite (store_merge_other Subscription Query) by reflexivity.
    rewrite (store_merge_other Mutation Query) by reflexivity.
    rewrite !(store_merge Query Query).
    rewrite (store_merge_other Type_ Query) by reflexivity. reflexivity.
  - change (store Mutation (this (snd (registerType args w)))
            = store Mutation (merge Mutation (rootFields "Mutation"
                                (RegisterTypeArgs.mutationDefinitions args)) (this w))).
    rewrite Hm.
    rewrite (store_merge_other Subscription Mutation) by reflexivity.
    rewrite !(store_merge Mutation Mutation).
    rewrite (store_merge_other Query Mutation) by reflexivity.
    rewrite (store_merge_other Type_ Mutation) by reflexivity. reflexivity.
  - change (store Subscription (this (snd (registerType args w)))
            = store Subscription (merge Subscription (rootFields "Subscription"
                                    (RegisterTypeArgs.subscriptionDefinitions args))
                                    (this w))).
    rewrite Hs.
    rewrite !(store_merge Subscription Subscription).
    rewrite (store_merge_other Mutation Subscription) by reflexivity.
    rewrite (store_merge_other Query Subscription) by reflexivity.
    rewrite (store_merge_other Type_ Subscription) by reflexivity. reflexivity.
Qed.

(** C10. What [registerType] stores as query, mutation and subscription
    fields is what its merge makes of the fields of the object type named
    [Query] ([Mutation], [Subscription]) that [find] returns from the
    corresponding document, and of nothing else: every such field sits in an
    object type definition of that name in that document; the other
    definitions of the document make no difference, to the registry or to
    the log; and without such an object type the sequence is left as it was. *)
Theorem registerType_takes_root_fields_only (args : RegisterTypeArgs.t) (w : World) :
  (queryDefinitions (this (snd (registerType args w)))
   = queryDefinitions
       (mergeIncomingQueries
          (rootFields "Query" (RegisterTypeArgs.queryDefinitions args)) (this w)) /\
   mutationDefinitions (this (snd (registerType args w)))
   = mutationDefinitions
       (mergeIncomingMutations
          (rootFields "Mutation" (RegisterTypeArgs.mutationDefinitions args)) (this w)) /\
   subscriptionDefinitions (this (snd (registerType args w)))
   = subscriptionDefinitions
       (mergeIncomingSubscriptions
          (rootFields "Subscription" (RegisterTypeArgs.subscriptionDefinitions args))
          (this w))) /\
  (forall root doc f,
      In f (rootFields root doc) ->
      exists document object fs,
        doc = Some document /\ In object (definitions document) /\
        kind object = Kind.OBJECT_TYPE_DEFINITION /\ name_value object = root /\
        fields object = Some fs /\ In f fs) /\
  (forall q m s,
      RegisterTypeArgs.queryDefinitions args = Some q ->
      RegisterTypeArgs.mutationDefinitions args = Some m ->
      RegisterTypeArgs.subscriptionDefinitions args = Some s ->
      registerType
        (RegisterTypeArgs.mk (RegisterTypeArgs.typeDefinitions args)
           (Some (onlyRoot "Query" q)) (Some (onlyRoot "Mutation" m))
           (Some (onlyRoot "Subscription" s))
           (RegisterTypeArgs.typeResolvers args) (RegisterTypeArgs.queryResolvers args)
           (RegisterTypeArgs.mutationResolvers args)
           (RegisterTypeArgs.subscriptionResolvers args)) w
      = registerType args w) /\
  (hasRoot "Query" (RegisterTypeArgs.queryDefinitions args) = false ->
   queryDefinitions (this (snd (registerType args w))) = queryDefinitions (this w)) /\
  (hasRoot "Mutation" (RegisterTypeArgs.mutationDefinitions args) = false ->
   mutationDefinitions (this (snd (registerType args w))) = mutationDefinitions (this w)) /\
  (hasRoot "Subscription" (RegisterTypeArgs.subscriptionDefinitions args) = false ->
   subscriptionDefinitions (this (snd (registerType args w)))
   = subscriptionDefinitions (this w)).
Proof.
  pose proof (registerType_fields args w) as (Hq&Hm&Hs).
  split; [auto|]. split; [apply rootFields_from_root|]. split; [|repeat split].
  - intros q m s Eq Em Es. unfold registerType. cbn [RegisterTypeArgs.typeDefinitions
      RegisterTypeArgs.queryDefinitions RegisterTypeArgs.mutationDefinitions
      RegisterTypeArgs.subscriptionDefinitions RegisterTypeArgs.typeResolvers
      RegisterTypeArgs.queryResolvers RegisterTypeArgs.mutationResolvers
      RegisterTypeArgs.subscriptionResolvers].
    rewrite Eq, Em, Es, !rootFields_onlyRoot. reflexivity.
  - intros H. rewrite Hq, (rootFields_without_root _ _ H). reflexivity.
  - intros H. rewrite Hm, (rootFields_without_root _ _ H). reflexivity.
  - intros H. rewrite Hs, (rootFields_without_root _ _ H). reflexivity.
Qed.

(** ** The document assembler *)

(** C9. An assembled document is the stored type declarations, the stored
    directive declarations, and then one container for each of Query,
    Mutation, Subscription whose field sequence is not empty, in that order:
    a container of a category is there exactly when the category has a
    field. This holds of the base document and of the extension document. *)
Theorem containers_only_for_fields (r : GQLRegistry) :
  definitions (getDefinitionsDocument r)
  = typeDefinitions r ++ directiveDefinitions r
    ++ containers Kind.OBJECT_TYPE_DEFINITION (baseFields r) /\
  definitions (getExtensionDefinitionsDocument r)
  = extensionTypeDefinitions r ++ directiveDefinitions r
    ++ containers Kind.OBJECT_TYPE_EXTENSION (extensionFields r) /\
  (forall kind categories container,
      In container (containers kind categories) <->
      exists name fs,
        In (name, fs) categories /\ fs <> [] /\ container = mkNode kind name (Some fs) "").
Proof.
  split; [|split].
  - unfold getDefinitionsDocument, containers, baseFields, push.
    destruct (queryDefinitions r), (mutationDefinitions r), (subscriptionDefinitions r);
      simpl; rewrite <- ?app_assoc; rewrite ?app_nil_r; reflexivity.
  - unfold getExtensionDefinitionsDocument, containers, extensionFields, push.
    destruct (extensionQueryDefinitions r), (extensionMutationDefinitions r),
      (extensionSubscriptionDefinitions r);
      simpl; rewrite <- ?app_assoc; rewrite ?app_nil_r; reflexivity.
  - intros kind_ categories container. unfold containers.
    rewrite in_map_iff. split.
    + intros [[name fs] [Hc Hin]]. apply filter_In in Hin. destruct Hin as [Hin Hne].
      simpl in *. exists name, fs. repeat split; auto.
      intros E. subst fs. discriminate.
    + intros [name [fs [Hin [Hne Hc]]]]. exists (name, fs). split; [auto|].
      apply filter_In. split; [exact Hin|]. simpl. destruct fs; [congruence|reflexivity].
Qed.

(** ** Clearing *)

Lemma foldM_cons_run {A B : Type} (x : A) (l : list A) (acc : B) (body : B -> A -> M B)
    (w : World) :
  foldM (x :: l) acc body w
  = match body acc x w with
    | (Returns acc', w') => foldM l acc' body w'
    | (Throws e, w') => (Throws e, w')
    end.
Proof. reflexivity. Qed.

Lemma notify_clear_run (plu : Plugin.t) (w : World) :
  (invoke plu Hook.clear None None (Plugin.clear plu) ;; ret tt) w
  = match Plugin.clear plu with
    | None => (Returns tt, w)
    | Some (Returns u) =>
        (Returns tt,
         mkWorld (this w) (log w ++ [hook_called (Plugin.self plu) Hook.clear None None]))
    | Some (Throws e) =>
        (Throws e,
         mkWorld (this w) (log w ++ [hook_called (Plugin.self plu) Hook.clear None None]))
    end.
Proof. destruct w. unfold invoke. destruct (Plugin.clear plu) as [[u|e]|]; reflexivity. Qed.

Lemma clear_hooks_run (ps : list Plugin.t) (w : World) :
  this (snd (forEach ps (fun plu =>
               invoke plu Hook.clear None None (Plugin.clear plu) ;; ret tt) w))
  = this w /\
  (fst (forEach ps (fun plu =>
          invoke plu Hook.clear None None (Plugin.clear plu) ;; ret tt) w) = Returns tt ->
   log (snd (forEach ps (fun plu =>
               invoke plu Hook.clear None None (Plugin.clear plu) ;; ret tt) w))
   = log w ++ clearCalls ps).
Proof.
  unfold forEach. revert w. induction ps as [|plu ps IH]; intros w.
  - simpl. split; [reflexivity|]. intros _. symmetry. apply app_nil_r.
  - rewrite foldM_cons_run, notify_clear_run. cbn [clearCalls flat_map].
    destruct (Plugin.clear plu) as [[u|e]|].
    + destruct (IH (mkWorld (this w)
                      (log w ++ [hook_called (Plugin.self plu) Hook.clear None None])))
        as [H1 H2].
      cbn [this log] in *. split; [exact H1|]. intros Hret.
      etransitivity; [exact (H2 Hret)|]. rewrite <- app_assoc. reflexivity.
    + split; [reflexivity|discriminate].
    + apply IH.
Qed.

(** A [clear] hook that throws ends the loop: the plugins after it are not
    notified. *)
Lemma clear_hooks_throw (ps : list Plugin.t) (w : World) (e : string) :
  fst (forEach ps (fun plu =>
         invoke plu Hook.clear None None (Plugin.clear plu) ;; ret tt) w) = Throws e ->
  exists notified plu rest,
    ps = notified ++ plu :: rest /\
    Plugin.clear plu = Some (Throws e) /\
    log (snd (forEach ps (fun plu =>
                invoke plu Hook.clear None None (Plugin.clear plu) ;; ret tt) w))
    = log w ++ clearCalls (notified ++ [plu]).
Proof.
  unfold forEach. revert w. induction ps as [|plu ps IH]; intros w; [discriminate|].
  rewrite foldM_cons_run, notify_clear_run.
  destruct (Plugin.clear plu) as [[u|e']|] eqn:Hplu.
  - intros H. destruct (IH _ H) as (notified&q&rest&H1&H2&H3).
    exists (plu :: notified), q, rest. split; [rewrite H1; reflexivity|].
    split; [exact H2|]. rewrite H3. cbn [this log app clearCalls flat_map].
    rewrite Hplu, <- app_assoc. reflexivity.
  - intros H. simpl in H. inversion H. subst e'.
    exists [], plu, ps. split; [reflexivity|]. split; [exact Hplu|].
    cbn [snd log app clearCalls flat_map]. rewrite Hplu, app_nil_r. reflexivity.
  - intros H. destruct (IH _ H) as (notified&q&rest&H1&H2&H3).
    exists (plu :: notified), q, rest. split; [rewrite H1; reflexivity|].
    split; [exact H2|]. rewrite H3. cbn [app clearCalls flat_map].
    rewrite Hplu. reflexivity.
Qed.

(** C5, as the code has it. [clear] first empties the declaration sequences,
    the resolver maps, the remote-schema descriptors, the internal values and
    the data sources, drops the cached executable schema and lowers the
    pipeline flag; it assigns neither the setup callbacks, nor the setup
    flag, nor the plugin list. Then, as its last statement, it calls the
    [clear] hook of every plugin that has one, in registration order, until
    one throws. The hooks are called on the emptied registry, and what
    [clear] leaves is what they leave of it: with hooks that do not call back
    into the registry, the emptied registry, setup callbacks, setup flag and
    plugins as before. *)
Theorem clear_keeps_setup (w : World) :
  exists emptiedRegistry,
    emptied emptiedRegistry /\
    keptByClear (this w) emptiedRegistry /\
    clear w
    = forEach (plugins (this w)) (fun plu =>
        invoke plu Hook.clear None None (Plugin.clear plu) ;; ret tt)
        (mkWorld emptiedRegistry (log w)) /\
    this (snd (clear w)) = emptiedRegistry /\
    (fst (clear w) = Returns tt ->
     log (snd (clear w)) = log w ++ clearCalls (plugins (this w))) /\
    (forall e, fst (clear w) = Throws e ->
     exists notified plu rest,
       plugins (this w) = notified ++ plu :: rest /\
       Plugin.clear plu = Some (Throws e) /\
       log (snd (clear w)) = log w ++ clearCalls (notified ++ [plu])).
Proof.
  destruct w as [r l].
  assert (H : exists r',
    clear (mkWorld r l)
    = forEach (plugins r) (fun plu =>
        invoke plu Hook.clear None None (Plugin.clear plu) ;; ret tt) (mkWorld r' l) /\
    emptied r' /\ keptByClear r r').
  { eexists. split; [reflexivity|]. split.
    - unfold emptied. repeat split; reflexivity.
    - unfold keptByClear. repeat split; reflexivity. }
  destruct H as [r' [Hrun [He Hk]]]. exists r'. cbn [this log].
  split; [exact He|]. split; [exact Hk|]. split; [exact Hrun|]. rewrite Hrun.
  destruct (clear_hooks_run (plugins r) (mkWorld r' l)) as [H1 H2].
  cbn [this log] in *. split; [exact H1|]. split; [exact H2|].
  intros e Hthrow. apply (clear_hooks_throw (plugins r) (mkWorld r' l) e Hthrow).
Qed.

Lemma clear_keeps_setup_witness :
  log (snd (clear startedWorld))
  = log startedWorld ++ clearCalls (plugins (this startedWorld)).
Proof.
  destruct (clear_keeps_setup startedWorld) as (r0&_&_&_&_&H&_).
  apply H. vm_compute. reflexivity.
Defined.

(** C5 as stated fails: after [clear] the setup callback is still
    registered and the setup flag is still up. *)
Lemma clear_leaves_setup_flag_up :
  fst (clear startedWorld) = Returns tt /\
  hasExecutedPreStart (this (snd (clear startedWorld))) = true /\
  preStartFunctions (this (snd (clear startedWorld))) = [mkPreStartFunction [] (Returns tt)].
Proof. vm_compute. repeat split; reflexivity. Qed.

(** ** Descriptors of remote sources *)

Lemma obj_get_set_eq {V : Type} (o : Obj V) (k : string) (v : V) :
  obj_get (obj_set o k v) k = Some v.
Proof.
  induction o as [|[k' v'] o IH]; simpl.
  - rewrite String.eqb_refl. reflexivity.
  - destruct (String.eqb_spec k' k) as [E|E]; simpl.
    + subst. rewrite String.eqb_refl. reflexivity.
    + apply String.eqb_neq in E. rewrite E. exact IH.
Qed.

Lemma obj_get_set_neq {V : Type} (o : Obj V) (k k' : string) (v : V) :
  k' <> k -> obj_get (obj_set o k v) k' = obj_get o k'.
Proof.
  intros Hk. induction o as [|[k0 v0] o IH]; simpl.
  - apply not_eq_sym in Hk. apply String.eqb_neq in Hk. rewrite Hk. reflexivity.
  - destruct (String.eqb_spec k0 k) as [E|E]; simpl.
    + subst k0. apply not_eq_sym in Hk. apply String.eqb_neq in Hk. rewrite Hk. reflexivity.
    + rewrite IH. reflexivity.
Qed.

Lemma remoteSchemas_set (r : GQLRegistry) (v : Obj RegisterRemoteSchemaArgs.t) :
  remoteSchemas (r <| remoteSchemas := v |>) = v.
Proof. reflexivity. Qed.

(** ** JavaScript objects *)

Lemma obj_get_none {V : Type} (o : Obj V) (k : string) :
  obj_get o k = None <-> ~ In k (keys o).
Proof.
  induction o as [|[k' v'] o IH]; simpl; [tauto|].
  destruct (String.eqb_spec k' k) as [E|E].
  - split; [discriminate|]. intros H. exfalso. apply H. left. exact E.
  - rewrite IH. tauto.
Qed.

Lemma obj_get_In {V : Type} (o : Obj V) (k : string) (v : V) :
  obj_get o k = Some v -> In (k, v) o.
Proof.
  induction o as [|[k' v'] o IH]; simpl; [discriminate|].
  destruct (String.eqb_spec k' k) as [E|E].
  - intros H. inversion H. subst. left. reflexivity.
  - intros H. right. exact (IH H).
Qed.

Lemma In_obj_get {V : Type} (o : Obj V) (k : string) (v : V) :
  NoDup (keys o) -> In (k, v) o -> obj_get o k = Some v.
Proof.
  induction o as [|[k' v'] o IH]; simpl; intros ND Hin; [destruct Hin|].
  inversion ND as [|? ? Hk ND']; subst.
  destruct Hin as [Hin|Hin].
  - inversion Hin. subst. rewrite String.eqb_refl. reflexivity.
  - destruct (String.eqb_spec k' k) as [E|E]; [|exact (IH ND' Hin)].
    exfalso. apply Hk. subst k'. apply (in_map fst) in Hin. exact Hin.
Qed.

Lemma obj_set_fresh {V : Type} (o : Obj V) (k : string) (v : V) :
  ~ In k (keys o) -> obj_set o k v = o ++ [(k, v)].
Proof.
  induction o as [|[k' v'] o IH]; simpl; intros H; [reflexivity|].
  destruct (String.eqb_spec k' k) as [E|E]; [exfalso; apply H; left; exact E|].
  rewrite IH; [reflexivity|]. intros HI. apply H. right. exact HI.
Qed.

Lemma keys_obj_set_taken {V : Type} (o : Obj V) (k : string) (v : V) :
  In k (keys o) -> keys (obj_set o k v) = keys o.
Proof.
  induction o as [|[k' v'] o IH]; simpl; intros H; [destruct H|].
  destruct (String.eqb_spec k' k) as [E|E]; [reflexivity|]. simpl.
  rewrite IH; [reflexivity|]. destruct H as [H|H]; [contradiction|exact H].
Qed.

Lemma keys_app {V : Type} (a b : Obj V) : keys (a ++ b) = keys a ++ keys b.
Proof. apply map_app. Qed.

Lemma NoDup_snoc {A : Type} (l : list A) (x : A) :
  NoDup l -> ~ In x l -> NoDup (l ++ [x]).
Proof.
  intros ND Hx. induction l as [|y l IH]; simpl; [constructor; [intros []|constructor]|].
  inversion ND as [|? ? Hy ND']; subst. constructor.
  - intros H. apply in_app_or in H. destruct H as [H|[H|[]]]; [contradiction|].
    apply Hx. left. symmetry. exact H.
  - apply IH; [exact ND'|]. intros H. apply Hx. right. exact H.
Qed.

Lemma NoDup_keys_obj_set {V : Type} (o : Obj V) (k : string) (v : V) :
  NoDup (keys o) -> NoDup (keys (obj_set o k v)).
Proof.
  intros ND. destruct (in_dec string_dec k (keys o)) as [H|H].
  - rewrite keys_obj_set_taken; assumption.
  - rewrite obj_set_fresh, keys_app by exact H. apply NoDup_snoc; assumption.
Qed.

Lemma NoDup_keys_obj_assign {V : Type} (target source : Obj V) :
  NoDup (keys target) -> NoDup (keys (obj_assign target source)).
Proof.
  unfold obj_assign. revert target.
  induction source as [|[k v] s IH]; intros t ND; simpl; [exact ND|].
  apply IH. apply NoDup_keys_obj_set. exact ND.
Qed.

Lemma NoDup_keys_spread {V : Type} (a b : Obj V) : NoDup (keys (spread a b)).
Proof. unfold spread. repeat apply NoDup_keys_obj_assign. constructor. Qed.

(** [target[k]] after the assignment of the members of [source]: the
    source's member when it has one, the target's own otherwise. *)
Lemma obj_get_assign {V : Type} (target source : Obj V) (k : string) :
  NoDup (keys source) ->
  obj_get (obj_assign target source) k
  = match obj_get source k with
    | Some v => Some v
    | None => obj_get target k
    end.
Proof.
  unfold obj_assign. revert target.
  induction source as [|[k0 v0] s IH]; intros t ND; simpl; [reflexivity|].
  inversion ND as [|? ? Hk ND']; subst. rewrite (IH _ ND').
  destruct (String.eqb_spec k0 k) as [E|E].
  - subst k0. apply obj_get_none in Hk. rewrite Hk. apply obj_get_set_eq.
  - destruct (obj_get s k); [reflexivity|]. apply obj_get_set_neq. congruence.
Qed.

Lemma obj_assign_fresh {V : Type} (target source : Obj V) :
  NoDup (keys (target ++ source)) -> obj_assign target source = target ++ source.
Proof.
  unfold obj_assign. revert target.
  induction source as [|[k v] s IH]; intros t ND; simpl; [symmetry; apply app_nil_r|].
  rewrite obj_set_fresh.
  - rewrite IH; rewrite <- app_assoc; [reflexivity|exact ND].
  - rewrite keys_app in ND. simpl in ND. apply NoDup_remove_2 in ND.
    intros H. apply ND. apply in_or_app. left. exact H.
Qed.

(** [{ ...a }] is [a], member for member and in the same order. *)
Lemma spread_copy {V : Type} (a : Obj V) : NoDup (keys a) -> spread a [] = a.
Proof. intros ND. unfold spread. simpl. apply (obj_assign_fresh [] a). exact ND. Qed.

Lemma spread_assign {V : Type} (a b : Obj V) :
  NoDup (keys a) -> spread a b = obj_assign a b.
Proof.
  intros ND. unfold spread. rewrite (obj_assign_fresh [] a); [reflexivity|exact ND].
Qed.

Lemma obj_get_spread {V : Type} (a b : Obj V) (k : string) :
  NoDup (keys a) -> NoDup (keys b) ->
  obj_get (spread a b) k
  = match obj_get b k with
    | Some v => Some v
    | None => obj_get a k
    end.
Proof. intros Ha Hb. rewrite spread_assign by exact Ha. apply obj_get_assign. exact Hb. Qed.

(** ** Remote descriptors and data sources *)

(** X1. Remote descriptors are registered first come, first served: a
    registration under a name that is taken changes nothing, whatever it
    carries; under a free name it stores the name, the supplier, the eager
    schema, the executor and the transforms it was given, and no wrapped form;
    the descriptors of other names are left alone. A name is taken when the
    descriptor object finds anything under it: a descriptor of its own, or a
    member that every plain object inherits (under [constructor] or
    [toString] nothing is ever registered). *)
Theorem registerRemoteSchema_first_wins (first second : RegisterRemoteSchemaArgs.t)
    (r : GQLRegistry) :
  RegisterRemoteSchemaArgs.name second = RegisterRemoteSchemaArgs.name first ->
  registerRemoteSchema second (registerRemoteSchema first r) = registerRemoteSchema first r /\
  (getRemoteSchema (RegisterRemoteSchemaArgs.name first) r = None ->
   getRemoteSchema (RegisterRemoteSchemaArgs.name first) (registerRemoteSchema first r)
   = Some (own (descriptorOf first)) /\
   getExecutor (RegisterRemoteSchemaArgs.name first) (registerRemoteSchema first r)
   = Some (RegisterRemoteSchemaArgs.executor first)) /\
  (forall found,
     getRemoteSchema (RegisterRemoteSchemaArgs.name first) r = Some found ->
     registerRemoteSchema first r = r) /\
  (inherited (RegisterRemoteSchemaArgs.name first) = true ->
   registerRemoteSchema first r = r /\
   getExecutor (RegisterRemoteSchemaArgs.name first) r
   = option_map RegisterRemoteSchemaArgs.executor
       (obj_get (remoteSchemas r) (RegisterRemoteSchemaArgs.name first))) /\
  (forall other, other <> RegisterRemoteSchemaArgs.name first ->
     getRemoteSchema other (registerRemoteSchema first r) = getRemoteSchema other r).
Proof.
  intros Hname.
  assert (Hfree : getRemoteSchema (RegisterRemoteSchemaArgs.name first) r = None ->
            obj_get (remoteSchemas (registerRemoteSchema first r))
              (RegisterRemoteSchemaArgs.name first)
            = Some (descriptorOf first)).
  { unfold getRemoteSchema, registerRemoteSchema. intros H. rewrite H.
    rewrite remoteSchemas_set. apply obj_get_set_eq. }
  assert (Htaken : forall found,
            getRemoteSchema (RegisterRemoteSchemaArgs.name first) r = Some found ->
            registerRemoteSchema first r = r).
  { unfold getRemoteSchema, registerRemoteSchema. intros found H. rewrite H. reflexivity. }
  split; [|split; [|split; [|split]]].
  - unfold registerRemoteSchema at 1. rewrite Hname.
    destruct (getRemoteSchema (RegisterRemoteSchemaArgs.name first) r) as [found|] eqn:E.
    + rewrite (Htaken found eq_refl). unfold getRemoteSchema in E. rewrite E. reflexivity.
    + specialize (Hfree eq_refl). unfold member. rewrite Hfree. reflexivity.
  - intros H. specialize (Hfree H). unfold getRemoteSchema, getExecutor, member.
    rewrite Hfree. split; reflexivity.
  - exact Htaken.
  - intros H. unfold getExecutor, registerRemoteSchema, member.
    destruct (obj_get (remoteSchemas r) (RegisterRemoteSchemaArgs.name first)) as [d|];
      [split; reflexivity|].
    rewrite H. split; reflexivity.
  - intros other Hother. unfold getRemoteSchema, registerRemoteSchema.
    destruct (member (remoteSchemas r) (RegisterRemoteSchemaArgs.name first));
      [reflexivity|].
    unfold member. rewrite remoteSchemas_set, obj_get_set_neq by exact Hother. reflexivity.
Qed.

Lemma registerRemoteSchema_first_wins_witness :
  getExecutor "users"
    (registerRemoteSchema eagerUsers (registerRemoteSchema lazyUsers (new_GQLRegistry 0)))
  = Some "http".
Proof.
  destruct (registerRemoteSchema_first_wins lazyUsers eagerUsers (new_GQLRegistry 0))
    as (H1&H2&_).
  - reflexivity.
  - rewrite H1. apply H2. reflexivity.
Defined.

(** ** Looking a plugin up *)

Lemma find_name_none (name : string) (ps : list Plugin.t) :
  find_ (fun plu => Plugin.name plu =? name) ps = None <-> ~ In name (map Plugin.name ps).
Proof.
  induction ps as [|p ps IH]; simpl; [tauto|].
  destruct (String.eqb_spec (Plugin.name p) name) as [E|E].
  - split; [discriminate|]. intros H. exfalso. apply H. left. exact E.
  - rewrite IH. tauto.
Qed.

Lemma find_app_none {A : Type} (p : A -> bool) (l1 l2 : list A) :
  find_ p l1 = None -> find_ p (l1 ++ l2) = find_ p l2.
Proof.
  induction l1 as [|y l1 IH]; simpl; [reflexivity|].
  destruct (p y); [discriminate|exact IH].
Qed.

Lemma plugins_set (r : GQLRegistry) (v : list Plugin.t) : plugins (r <| plugins := v |>) = v.
Proof. reflexivity. Qed.

(** X3. [getPlugin] returns a registered plugin of the name asked for, the
    first one in registration order, and throws ("Cannot find registry plugin
    with name ...") exactly when no plugin of that name is registered. After
    [registerPlugin] the plugin's name is served: by the plugin registered
    earlier under that name if there is one, else by the plugin just
    registered, with its back-reference set to this registry. *)
Theorem getPlugin_serves_the_registered (name : string) (plugin : Plugin.t)
    (r : GQLRegistry) :
  (forall found, getPlugin name r = Returns found ->
     In found (plugins r) /\ Plugin.name found = name) /\
  (In name (pluginNames r) <-> exists found, getPlugin name r = Returns found) /\
  (~ In name (pluginNames r) <->
   getPlugin name r = Throws ("Cannot find registry plugin with name " ++ name)%string) /\
  getPlugin (Plugin.name plugin) (fst (registerPlugin plugin r))
  = match getPlugin (Plugin.name plugin) r with
    | Returns earlier => Returns earlier
    | Throws _ => Returns (plugin <| Plugin.registry := Some (instance r) |>)
    end.
Proof.
  unfold getPlugin, pluginNames. split; [|split; [|split]].
  - intros found.
    destruct (find_ (fun plu => Plugin.name plu =? name) (plugins r)) as [p|] eqn:E;
      [|discriminate].
    intros H. inversion H. subst p. apply find_In in E. destruct E as [Hin Hn].
    apply String.eqb_eq in Hn. auto.
  - destruct (find_ (fun plu => Plugin.name plu =? name) (plugins r)) as [p|] eqn:E.
    + split; [eauto|]. intros _.
      destruct (in_dec string_dec name (map Plugin.name (plugins r))) as [H|H];
        [exact H|].
      apply find_name_none in H. congruence.
    + apply find_name_none in E. split; [contradiction|]. intros [found H]. discriminate.
  - destruct (find_ (fun plu => Plugin.name plu =? name) (plugins r)) as [p|] eqn:E.
    + split; [|discriminate]. intros H. apply find_name_none in H. congruence.
    + apply find_name_none in E. tauto.
  - unfold registerPlugin.
    destruct (find_ (fun registeredPlugin => Plugin.name registeredPlugin =? Plugin.name plugin)
                (plugins r)) as [p|] eqn:E; cbn [fst].
    + rewrite E. reflexivity.
    + rewrite plugins_set. unfold push. rewrite (find_app_none _ _ _ E). simpl.
      rewrite String.eqb_refl. reflexivity.
Qed.

(** ** What holds of every registry that can be reached

    A property of the registry that survives every assignment the methods
    make holds after every use of the public surface, however the use ends. *)

Section Reachable.
Variable J : GQLRegistry -> Prop.
Hypothesis J_assigns : forall f r, Assigns f -> J r -> J (f r).
Hypothesis J_cleared : forall r r', J r -> emptied r' -> keptByClear r r' -> J r'.

Let Jw (w : World) : Prop := J (this w).

Lemma Jw_modify (f : GQLRegistry -> GQLRegistry) : Assigns f -> keeps Jw (modify f).
Proof. intros Hf. apply triple_modify. intros w Hw. apply J_assigns; assumption. Qed.

Lemma Jw_check (accept : Node -> bool) (what : string)
    (sequence : GQLRegistry -> list Node) (incoming : list Node) :
  keeps Jw
    (forEach incoming (fun new =>
       if accept new then
         this <- getThis ;; warnIfRegistered what (sequence this) new
       else ret tt)).
Proof. apply keeps_check. intros message w Hw. exact Hw. Qed.

Lemma Jw_registerDirectives (args : RegisterDirectiveArgs.t) :
  keeps Jw (registerDirectives args).
Proof.
  unfold registerDirectives. apply keeps_bind.
  { destruct (RegisterDirectiveArgs.directiveDefinition args) as [d|]; [|apply keeps_ret].
    apply keeps_bind; [apply Jw_check|]. intros _.
    apply (Jw_modify (merge Directive (definitions d))). constructor. }
  intros _. apply keeps_if; [|apply keeps_ret].
  apply Jw_modify. apply assigns_directiveResolvers.
Qed.

Lemma Jw_registerType (args : RegisterTypeArgs.t) : keeps Jw (registerType args).
Proof.
  unfold registerType. apply keeps_bind.
  { destruct (RegisterTypeArgs.typeDefinitions args) as [d|]; [|apply keeps_ret].
    apply keeps_bind; [apply Jw_check|]. intros _.
    apply (Jw_modify (merge Type_ (definitions d))). constructor. }
  intros _.
  apply keeps_bind; [apply Jw_check|]. intros _.
  apply keeps_bind; [apply (Jw_modify (merge Query _)); constructor|]. intros _.
  apply keeps_bind; [apply Jw_check|]. intros _.
  apply keeps_bind; [apply (Jw_modify (merge Mutation _)); constructor|]. intros _.
  apply keeps_bind; [apply Jw_check|]. intros _.
  apply keeps_bind; [apply (Jw_modify (merge Subscription _)); constructor|]. intros _.
  apply keeps_bind; [apply Jw_modify; apply assigns_typeResolvers|]. intros _.
  apply keeps_bind; [apply Jw_modify; apply assigns_queryResolvers|]. intros _.
  apply keeps_bind; [apply Jw_modify; apply assigns_mutationResolvers|]. intros _.
  apply Jw_modify. apply assigns_subscriptionResolvers.
Qed.

Lemma Jw_clear : keeps Jw clear.
Proof.
  apply keeps_clear.
  - intros r' w Hw He Hk. exact (J_cleared (this w) r' Hw He Hk).
  - intros pid w Hw. exact Hw.
Qed.

Lemma Jw_perform_other (c : Call) : c <> call_clear -> keeps Jw (perform c).
Proof.
  intros Hc. destruct c; simpl.
  - apply Jw_modify. constructor.
  - apply Jw_modify. constructor.
  - apply Jw_registerDirectives.
  - apply Jw_registerType.
  - apply Jw_modify. constructor.
  - apply Jw_modify. constructor.
  - apply Jw_modify. apply assigns_plugin.
  - destruct (Hc eq_refl).
Qed.

Lemma Jw_perform (c : Call) : keeps Jw (perform c).
Proof.
  destruct c; try (apply Jw_perform_other; discriminate). apply Jw_clear.
Qed.

Lemma Jw_preStart : keeps Jw preStart.
Proof.
  unfold preStart. apply keeps_bind; [apply keeps_getThis|]. intros r.
  apply keeps_if; [apply keeps_ret|].
  apply keeps_bind.
  { apply keeps_forEach. intros f _.
    apply keeps_bind; [|intros; apply keeps_settle].
    apply keeps_forEach. intros c _. apply Jw_perform. }
  intros _. apply Jw_modify. apply assigns_started.
Qed.

Lemma Jw_processPlugins : keeps Jw processPlugins.
Proof.
  apply (triple_processPlugins Jw (fun _ => True)).
  - intros e w _ Hw. exact Hw.
  - intros f w Hf Hw. apply J_assigns; [apply assigns_pipeline; exact Hf|exact Hw].
  - auto.
  - auto.
  - auto.
  - intros w Hw. apply (J_assigns _ _ assigns_processed Hw).
Qed.

Lemma Jw_wrapRemoteSchemas : keeps Jw wrapRemoteSchemas.
Proof.
  unfold wrapRemoteSchemas. apply keeps_bind; [apply keeps_getThis|]. intros r.
  apply keeps_foldM. intros acc name _.
  apply keeps_bind; [apply keeps_getThis|]. intros r'.
  destruct (obj_get (remoteSchemas r') name) as [remote|]; [|apply keeps_ret].
  apply keeps_bind.
  { destruct (RegisterRemoteSchemaArgs.asyncSchema remote);
      [apply keeps_settle|apply keeps_ret]. }
  intros resolved. destruct resolved as [schema|]; [|apply keeps_ret].
  apply keeps_bind; [|intros; apply keeps_ret].
  apply Jw_modify. apply assigns_wrapped.
Qed.

Lemma Jw_finalize (op : Finalize) : keeps Jw (finalize op).
Proof.
  destruct op; simpl; unfold getFederatableSchema, getSchema, getExecutableSchema;
    (apply keeps_bind; [apply Jw_preStart|]); intros _;
    (apply keeps_bind; [apply Jw_processPlugins|]); intros _;
    (apply keeps_bind; [apply keeps_getThis|]); intros r.
  - apply keeps_ret.
  - apply keeps_bind; [apply Jw_wrapRemoteSchemas|]. intros remotes.
    apply keeps_bind; [apply keeps_getThis|]. intros r'. apply keeps_ret.
  - destruct (executableSchema r); [apply keeps_ret|].
    apply keeps_bind; [apply Jw_wrapRemoteSchemas|]. intros remotes.
    apply keeps_bind; [apply keeps_getThis|]. intros r'.
    apply keeps_bind; [|intros; apply keeps_ret].
    apply Jw_modify. apply assigns_cached.
Qed.

Lemma Jw_afterUse (u : Use) (w : World) : Jw w -> Jw (afterUse u w).
Proof.
  intros Hw. destruct u as [[op|c]|f|c incoming|]; simpl.
  - apply keeps_run; [apply Jw_finalize|exact Hw].
  - apply keeps_run; [apply Jw_perform|exact Hw].
  - apply J_assigns; [constructor|exact Hw].
  - apply J_assigns; [constructor|exact Hw].
  - apply keeps_run; [apply Jw_processPlugins|exact Hw].
Qed.

Lemma reached (l : list Use) (w : World) : J (this w) -> J (this (afterUses l w)).
Proof.
  unfold afterUses. revert w. induction l as [|u l IH]; intros w Hw; [exact Hw|].
  simpl. apply IH. apply Jw_afterUse. exact Hw.
Qed.
End Reachable.

(** ** Invariants of the registry *)

Lemma merge_plugins (c : Category) (incoming : list Node) (r : GQLRegistry) :
  plugins (merge c incoming r) = plugins r.
Proof. apply (merge_outsideStores c incoming r). Qed.

Lemma merge_instance (c : Category) (incoming : list Node) (r : GQLRegistry) :
  instance (merge c incoming r) = instance r.
Proof. apply (merge_outsideStores c incoming r). Qed.

Lemma registerTypeExtension_merges (args : RegisterTypeExtensionArgs.t) (r : GQLRegistry) :
  (forall c, store c (registerTypeExtension args r)
             = store c (mergeAll (extensionMergesOf args) r)) /\
  plugins (registerTypeExtension args r) = plugins (mergeAll (extensionMergesOf args) r) /\
  instance (registerTypeExtension args r) = instance (mergeAll (extensionMergesOf args) r).
Proof.
  unfold registerTypeExtension, mergeAll, extensionMergesOf. cbn [fold_left fst snd merge].
  destruct (RegisterTypeExtensionArgs.extensionTypeDefinitions args);
    (split; [intros c; destruct c; reflexivity|split; reflexivity]).
Qed.

Lemma mergeAll_plugins (merges : list (Category * list Node)) (r : GQLRegistry) :
  plugins (mergeAll merges r) = plugins r /\ instance (mergeAll merges r) = instance r.
Proof.
  unfold mergeAll. revert r. induction merges as [|[c l] merges IH]; intros r; simpl; [auto|].
  destruct (IH (merge c l r)) as [H1 H2]. rewrite H1, H2, merge_plugins, merge_instance. auto.
Qed.

(** No method but [registerPlugin] changes the plugin list, and none changes
    the identity of the registry. *)
Lemma assigns_plugins (f : GQLRegistry -> GQLRegistry) (r : GQLRegistry) :
  Assigns f ->
  instance (f r) = instance r /\
  (plugins (f r) = plugins r \/ exists plugin, f r = fst (registerPlugin plugin r)).
Proof.
  intros Hf. destruct Hf.
  - split; [apply merge_instance|left; apply merge_plugins].
  - split; [|left]; reflexivity.
  - unfold registerRemoteSchema. destruct (member _ _); (split; [|left]; reflexivity).
  - split; [|left]; reflexivity.
  - split; [|left]; reflexivity.
  - split; [|left]; reflexivity.
  - split; [|left]; reflexivity.
  - split; [|left]; reflexivity.
  - destruct (registerTypeExtension_merges args r) as (_&H1&H2).
    destruct (mergeAll_plugins (extensionMergesOf args) r) as [H3 H4].
    split; [|left]; congruence.
  - split; [|left]; reflexivity.
  - split; [|left]; reflexivity.
  - split; [|right; exists plugin; reflexivity].
    unfold registerPlugin. destruct (find_ _ _); reflexivity.
  - split; [|left]; reflexivity.
  - split; [|left]; apply (pipelineUpdate_outsideStores f r H).
  - split; [|left]; reflexivity.
  - split; [|left]; reflexivity.
  - split; [|left]; reflexivity.
Qed.

Lemma NoDup_upsertAll (accept : Node -> bool) (s incoming : list Node) :
  NoDup (names s) -> NoDup (names (upsertAll accept s incoming)).
Proof.
  intros ND. rewrite <- (keepLast_NoDup s ND), upsertAll_keepLast. apply NoDup_keepLast.
Qed.

Lemma uniqueNames_mergeAll (merges : list (Category * list Node)) (r : GQLRegistry) :
  uniqueNames r -> uniqueNames (mergeAll merges r).
Proof.
  unfold mergeAll. revert r. induction merges as [|[c l] merges IH]; intros r H; [exact H|].
  simpl. apply IH. intros c'. rewrite store_merge. apply NoDup_upsertAll. apply H.
Qed.

Lemma uniqueNames_assigns (f : GQLRegistry -> GQLRegistry) (r : GQLRegistry) :
  Assigns f -> uniqueNames r -> uniqueNames (f r).
Proof.
  intros Hf H. destruct Hf;
    try (intros c'; pose proof (H c') as Hc; destruct c'; exact Hc).
  - apply (uniqueNames_mergeAll [(c, incoming)]). exact H.
  - unfold registerRemoteSchema. destruct (member _ _); [exact H|].
    intros c'. pose proof (H c') as Hc. destruct c'; exact Hc.
  - intros c'. rewrite (proj1 (registerTypeExtension_merges args r)).
    apply uniqueNames_mergeAll. exact H.
  - unfold registerPlugin. destruct (find_ _ _); [exact H|].
    intros c'. pose proof (H c') as Hc. destruct c'; exact Hc.
  - destruct H0;
      try (intros c'; pose proof (H c') as Hc; destruct c'; exact Hc).
    apply (uniqueNames_mergeAll [(c, incoming)]). exact H.
Qed.

Lemma uniqueNames_cleared (r r' : GQLRegistry) :
  uniqueNames r -> emptied r' -> keptByClear r r' -> uniqueNames r'.
Proof.
  intros _ He _ c. unfold emptied in He. decompose [and] He.
  destruct c; cbn [store];
    match goal with
    | E : ?s = [] |- NoDup (names ?s) => rewrite E; constructor
    end.
Qed.

(** X4. Names stay unique: from a registry in whose nine declaration
    sequences no name occurs twice, no use of the public surface (the
    registration calls, [clear], the merge methods, the pipeline, the three
    builds, with whatever the setup callbacks and the plugins do) leads to a
    registry in which a sequence has two entries of one name. *)
Theorem declaration_names_stay_unique (r : GQLRegistry) (l : list Event)
    (uses : list Use) (c : Category) :
  uniqueNames r ->
  NoDup (names (store c (this (afterUses uses (mkWorld r l))))).
Proof.
  intros H.
  apply (reached uniqueNames uniqueNames_assigns uniqueNames_cleared uses (mkWorld r l) H).
Qed.

Lemma declaration_names_stay_unique_witness :
  NoDup (names (store Type_ (this (afterUses busyUses (mkWorld (new_GQLRegistry 0) []))))).
Proof.
  apply (declaration_names_stay_unique (new_GQLRegistry 0) [] busyUses Type_).
  intros c. destruct c; constructor.
Defined.

Lemma pluginNames_registerPlugin (plugin : Plugin.t) (r : GQLRegistry) :
  pluginNames (fst (registerPlugin plugin r))
  = if existsb (String.eqb (Plugin.name plugin)) (pluginNames r)
    then pluginNames r
    else pluginNames r ++ [Plugin.name plugin].
Proof.
  unfold registerPlugin, pluginNames.
  destruct (find_ _ (plugins r)) as [p|] eqn:E; cbn [fst].
  - apply find_In in E. destruct E as [Hin Hn]. apply String.eqb_eq in Hn.
    assert (H : existsb (String.eqb (Plugin.name plugin)) (map Plugin.name (plugins r))
                = true).
    { apply existsb_exists. exists (Plugin.name p). split.
      - apply in_map. exact Hin.
      - rewrite Hn. apply String.eqb_refl. }
    rewrite H. reflexivity.
  - apply find_name_none in E.
    assert (H : existsb (String.eqb (Plugin.name plugin)) (map Plugin.name (plugins r))
                = false).
    { destruct (existsb _ _) eqn:Ex; [|reflexivity]. exfalso. apply E.
      apply existsb_exists in Ex. destruct Ex as [n [Hn1 Hn2]].
      apply String.eqb_eq in Hn2. subst n. exact Hn1. }
    rewrite H, plugins_set. unfold push. rewrite map_app. reflexivity.
Qed.

Lemma pluginNames_assigns (f : GQLRegistry -> GQLRegistry) (r : GQLRegistry) :
  Assigns f -> NoDup (pluginNames r) -> NoDup (pluginNames (f r)).
Proof.
  intros Hf H. destruct (assigns_plugins f r Hf) as [_ [Hp|[plugin Hp]]].
  - unfold pluginNames. rewrite Hp. exact H.
  - rewrite Hp, pluginNames_registerPlugin.
    destruct (existsb _ _) eqn:E; [exact H|].
    apply NoDup_snoc; [exact H|]. intros Hin.
    assert (Ht : existsb (String.eqb (Plugin.name plugin)) (pluginNames r) = true).
    { apply existsb_exists. exists (Plugin.name plugin). split; [exact Hin|].
      apply String.eqb_refl. }
    congruence.
Qed.

Lemma pluginNames_cleared (r r' : GQLRegistry) :
  NoDup (pluginNames r) -> emptied r' -> keptByClear r r' -> NoDup (pluginNames r').
Proof.
  intros H _ Hk. unfold pluginNames. destruct Hk as (_&_&_&Hp). rewrite Hp. exact H.
Qed.

(** X5. Plugin names stay unique: from a registry whose plugins have
    different names, no use of the public surface leads to a registry with two
    plugins of one name; so the plugin [getPlugin] returns for a name is the
    only one of that name. *)
Theorem plugin_names_stay_unique (r : GQLRegistry) (l : list Event) (uses : list Use) :
  NoDup (pluginNames r) ->
  NoDup (pluginNames (this (afterUses uses (mkWorld r l)))) /\
  (forall name found other,
     getPlugin name (this (afterUses uses (mkWorld r l))) = Returns found ->
     In other (plugins (this (afterUses uses (mkWorld r l)))) ->
     Plugin.name other = name -> other = found).
Proof.
  intros H.
  assert (ND : NoDup (pluginNames (this (afterUses uses (mkWorld r l))))).
  { apply (reached (fun r => NoDup (pluginNames r)) pluginNames_assigns pluginNames_cleared
             uses (mkWorld r l) H). }
  split; [exact ND|].
  intros name found other Hget Hin Hname.
  unfold getPlugin in Hget. unfold pluginNames in ND.
  destruct (find_ _ _) as [p|] eqn:E; [|discriminate].
  inversion Hget. subst p. clear Hget.
  induction (plugins (this (afterUses uses (mkWorld r l)))) as [|q qs IH];
    [destruct Hin|].
  simpl in E, ND. inversion ND as [|? ? Hq ND']; subst.
  destruct (String.eqb_spec (Plugin.name q) (Plugin.name other)) as [Eq|Eq].
  - inversion E. subst q. destruct Hin as [Hin|Hin]; [symmetry; exact Hin|].
    exfalso. apply Hq. rewrite Eq. apply in_map. exact Hin.
  - destruct Hin as [Hin|Hin]; [subst q; congruence|]. exact (IH ND' E Hin).
Qed.

Lemma plugin_names_stay_unique_witness :
  NoDup (pluginNames (this (afterUses busyUses (mkWorld (new_GQLRegistry 0) [])))).
Proof.
  refine (proj1 (plugin_names_stay_unique (new_GQLRegistry 0) [] busyUses _)).
  constructor.
Defined.

Lemma pointBack_assigns (f : GQLRegistry -> GQLRegistry) (r : GQLRegistry) :
  Assigns f -> pointBack r -> pointBack (f r).
Proof.
  intros Hf H. unfold pointBack in *.
  destruct (assigns_plugins f r Hf) as [Hi [Hp|[plugin Hp]]].
  - rewrite Hi, Hp. exact H.
  - rewrite Hi, Hp. unfold registerPlugin.
    destruct (find_ _ _); cbn [fst]; [exact H|].
    rewrite plugins_set. unfold push. apply Forall_app. split; [exact H|].
    constructor; [reflexivity|constructor].
Qed.

Lemma pointBack_cleared (r r' : GQLRegistry) :
  pointBack r -> emptied r' -> keptByClear r r' -> pointBack r'.
Proof.
  intros H _ Hk. unfold pointBack. destruct Hk as (Hi&_&_&Hp). rewrite Hi, Hp. exact H.
Qed.

(** X6. Back-references stay right: the identity of a registry never
    changes, and from a registry each of whose plugins refers back to it, no
    use of the public surface leads to a registry with a plugin in its list
    whose back-reference is unset or is another registry's. *)
Theorem plugins_point_back (r : GQLRegistry) (l : list Event) (uses : list Use) :
  pointBack r ->
  instance (this (afterUses uses (mkWorld r l))) = instance r /\
  forall plugin, In plugin (plugins (this (afterUses uses (mkWorld r l)))) ->
    Plugin.registry plugin = Some (instance r).
Proof.
  intros H.
  assert (Hi : instance (this (afterUses uses (mkWorld r l))) = instance r).
  { apply (reached (fun r' => instance r' = instance r)); [| |reflexivity].
    - intros f r' Hf Hr'. rewrite (proj1 (assigns_plugins f r' Hf)). exact Hr'.
    - intros r1 r2 H1 _ Hk. destruct Hk as (Hk&_). congruence. }
  split; [exact Hi|]. intros plugin Hin.
  pose proof (reached pointBack pointBack_assigns pointBack_cleared uses (mkWorld r l) H)
    as Hall.
  unfold pointBack in Hall. rewrite Forall_forall in Hall. rewrite <- Hi. apply Hall.
  exact Hin.
Qed.

Lemma plugins_point_back_witness :
  instance (this (afterUses busyUses (mkWorld (new_GQLRegistry 7) [])))
  = instance (new_GQLRegistry 7).
Proof.
  refine (proj1 (plugins_point_back (new_GQLRegistry 7) [] busyUses _)).
  constructor.
Defined.

(** ** Merging again *)

Lemma keepLast_app (a b : list Node) :
  keepLast (a ++ b)
  = filter (fun x => negb (existsb (sameName x) b)) (keepLast a) ++ keepLast b.
Proof.
  induction a as [|x a IH]; simpl; [reflexivity|].
  rewrite existsb_app.
  destruct (existsb (sameName x) a) eqn:Ea; simpl; [exact IH|].
  destruct (existsb (sameName x) b) eqn:Eb; simpl; [exact IH|].
  f_equal. exact IH.
Qed.

Lemma keepLast_subset (l : list Node) (x : Node) : In x (keepLast l) -> In x l.
Proof.
  induction l as [|y l IH]; simpl; [tauto|].
  destruct (existsb (sameName y) l); simpl; intuition.
Qed.

Lemma keepLast_keepLast (l : list Node) : keepLast (keepLast l) = keepLast l.
Proof. apply keepLast_NoDup, NoDup_keepLast. Qed.

Lemma filter_none {A : Type} (p : A -> bool) (l : list A) :
  (forall x, In x l -> p x = false) -> filter p l = [].
Proof.
  induction l as [|x l IH]; simpl; intros H; [reflexivity|].
  rewrite (H x) by (left; reflexivity). apply IH. intros y Hy. apply H. right. exact Hy.
Qed.

Lemma sameName_refl (x : Node) : sameName x x = true.
Proof. unfold sameName. apply String.eqb_refl. Qed.

Lemma keepLast_twice (a b : list Node) : keepLast (keepLast (a ++ b) ++ b) = keepLast (a ++ b).
Proof.
  rewrite (keepLast_app (keepLast (a ++ b)) b), keepLast_keepLast.
  rewrite (keepLast_app a b) at 1. rewrite filter_app.
  rewrite (filter_none _ (keepLast b)).
  - rewrite app_nil_r, filter_filter_and, keepLast_app. f_equal.
    apply filter_ext. intros x. apply andb_diag.
  - intros x Hx. apply keepLast_subset in Hx.
    assert (H : existsb (sameName x) b = true).
    { apply existsb_exists. exists x. split; [exact Hx|apply sameName_refl]. }
    rewrite H. reflexivity.
Qed.

Lemma keepLast_absorb (a b : list Node) : keepLast (keepLast a ++ b) = keepLast (a ++ b).
Proof. rewrite !keepLast_app, keepLast_keepLast. reflexivity. Qed.

Lemma keepLast_again (a b : list Node) : keepLast ((a ++ b) ++ b) = keepLast (a ++ b).
Proof. rewrite <- keepLast_absorb. apply keepLast_twice. Qed.

(** X7. Merging is idempotent: on a sequence with unique names, a merge
    method run a second time on the same incoming declarations leaves every
    sequence as the first run left it; and so does [registerType] called a
    second time with the same arguments. *)
Theorem merging_again_changes_nothing (r : GQLRegistry) (c' : Category) :
  NoDup (names (store c' r)) ->
  (forall c incoming,
     store c' (merge c incoming (merge c incoming r)) = store c' (merge c incoming r)) /\
  (forall args l,
     store c' (this (snd (registerType args (snd (registerType args (mkWorld r l))))))
     = store c' (this (snd (registerType args (mkWorld r l))))).
Proof.
  intros ND.
  assert (H : forall merges,
            store c' (mergeAll merges (mergeAll merges r)) = store c' (mergeAll merges r)).
  { intros merges.
    assert (H1 : store c' (mergeAll merges r) = keepLast (store c' r ++ arrivals c' merges)).
    { apply store_mergeAll. symmetry. apply keepLast_NoDup. exact ND. }
    rewrite (store_mergeAll c' merges _ _ H1). rewrite H1. apply keepLast_again. }
  split.
  - intros c incoming. apply (H [(c, incoming)]).
  - intros args l. rewrite !registerType_store.
    destruct (registerType_returns args (mkWorld r l)) as [_ Hr]. rewrite Hr.
    cbn [this].
    assert (Hs : store c' (mergeAll (mergesOf args)
                             (assignsOf args (mergeAll (mergesOf args) r)))
                 = store c' (mergeAll (mergesOf args) (mergeAll (mergesOf args) r))).
    { assert (H1 : store c' (mergeAll (mergesOf args) r)
                   = keepLast (store c' r ++ arrivals c' (mergesOf args))).
      { apply store_mergeAll. symmetry. apply keepLast_NoDup. exact ND. }
      rewrite (store_mergeAll c' (mergesOf args) _ (mergeAll (mergesOf args) r) H1).
      apply store_mergeAll. rewrite store_assignsOf. exact H1. }
    rewrite Hs. apply H.
Qed.

Lemma merging_again_changes_nothing_witness :
  store Type_
    (merge Type_ [objectType "Book" "v1"; objectType "Author" ""; objectType "Book" "v2"]
       (merge Type_ [objectType "Book" "v1"; objectType "Author" ""; objectType "Book" "v2"]
          (new_GQLRegistry 0)))
  = store Type_
      (merge Type_ [objectType "Book" "v1"; objectType "Author" ""; objectType "Book" "v2"]
         (new_GQLRegistry 0)).
Proof.
  refine (proj1 (merging_again_changes_nothing (new_GQLRegistry 0) Type_ _) Type_ _).
  constructor.
Defined.

(** ** What the duplicate checks print *)

Lemma says_ret : says (ret tt) (fun r => r) (fun _ => []).
Proof. intros w. destruct w. simpl. rewrite app_nil_r. reflexivity. Qed.

Lemma says_modify (f : GQLRegistry -> GQLRegistry) : says (modify f) f (fun _ => []).
Proof. intros w. destruct w. simpl. rewrite app_nil_r. reflexivity. Qed.

Lemma says_bind (m : M unit) (k : unit -> M unit) (f g : GQLRegistry -> GQLRegistry)
    (e1 e2 : GQLRegistry -> list Event) :
  says m f e1 -> says (k tt) g e2 ->
  says (bind m k) (fun r => g (f r)) (fun r => e1 r ++ e2 (f r)).
Proof.
  intros Hm Hk w. unfold bind. rewrite (Hm w), (Hk _). simpl.
  rewrite app_assoc. reflexivity.
Qed.

Lemma says_ext (m : M unit) (f g : GQLRegistry -> GQLRegistry)
    (e1 e2 : GQLRegistry -> list Event) :
  says m f e1 -> (forall r, f r = g r) -> (forall r, e1 r = e2 r) -> says m g e2.
Proof. intros H Hf He w. rewrite (H w), Hf, He. reflexivity. Qed.

Lemma findIndex_existsb {A : Type} (p : A -> bool) (l : list A) :
  match findIndex p l with Some _ => true | None => false end = existsb p l.
Proof.
  induction l as [|x l IH]; simpl; [reflexivity|].
  destruct (p x); [reflexivity|]. simpl. rewrite <- IH.
  destruct (findIndex p l); reflexivity.
Qed.

Lemma says_check (accept : Node -> bool) (what : string)
    (sequence : GQLRegistry -> list Node) (incoming : list Node) :
  says
    (forEach incoming (fun new =>
       if accept new then
         this <- getThis ;; warnIfRegistered what (sequence this) new
       else ret tt))
    (fun r => r)
    (fun r => duplicateWarnings what accept (sequence r) incoming).
Proof.
  unfold forEach. induction incoming as [|new l IH]; simpl; [apply says_ret|].
  eapply says_ext.
  - eapply says_bind; [|exact IH].
    instantiate (1 := fun r =>
      if accept new && existsb (sameName new) (sequence r)
      then [console_warn
              ("WARNING: " ++ what ++ " with name " ++ name_value new
               ++ " already registered")%string]
      else []).
    instantiate (1 := fun r => r).
    intros w. destruct (accept new); simpl.
    + unfold bind, getThis, warnIfRegistered.
      rewrite <- (findIndex_existsb (sameName new) (sequence (this w))).
      destruct (findIndex (sameName new) (sequence (this w))); destruct w; simpl;
        rewrite ?app_nil_r; reflexivity.
    + destruct w. simpl. rewrite app_nil_r. reflexivity.
  - reflexivity.
  - intros r. unfold duplicateWarnings. simpl.
    destruct (accept new && existsb (sameName new) (sequence r)); reflexivity.
Qed.

(** X8. What [registerType] prints: for the type document, and for the
    fields of the Query, Mutation and Subscription objects, one warning for
    each incoming declaration of an accepted kind whose name was registered
    in its sequence before the call, in the order of the documents. The
    checks read the sequences as the call found them: a name that only
    occurs twice within the incoming document is not warned about. It
    always returns. *)
Theorem registerType_warns_of_taken_names (args : RegisterTypeArgs.t) (w : World) :
  fst (registerType args w) = Returns tt /\
  log (snd (registerType args w))
  = log w
    ++ duplicateWarnings "Type" isTypeDefinitionNode (typeDefinitions (this w))
         (definitionsOf (RegisterTypeArgs.typeDefinitions args))
    ++ duplicateWarnings "Query" isFieldDefinition (queryDefinitions (this w))
         (rootFields "Query" (RegisterTypeArgs.queryDefinitions args))
    ++ duplicateWarnings "Mutation" isFieldDefinition (mutationDefinitions (this w))
         (rootFields "Mutation" (RegisterTypeArgs.mutationDefinitions args))
    ++ duplicateWarnings "Subscription" isFieldDefinition (subscriptionDefinitions (this w))
         (rootFields "Subscription" (RegisterTypeArgs.subscriptionDefinitions args)).
Proof.
  assert (Htypes : says
    match RegisterTypeArgs.typeDefinitions args with
    | Some typeDefinitions =>
        checkForDuplicateTypes (definitions typeDefinitions) ;;
        modify (mergeIncomingTypes (definitions typeDefinitions))
    | None => ret tt
    end
    (merge Type_ (definitionsOf (RegisterTypeArgs.typeDefinitions args)))
    (fun r => duplicateWarnings "Type" isTypeDefinitionNode (typeDefinitions r)
                (definitionsOf (RegisterTypeArgs.typeDefinitions args)))).
  { destruct (RegisterTypeArgs.typeDefinitions args) as [d|]; [|apply says_ret].
    eapply says_ext.
    - eapply says_bind; [apply (says_check isTypeDefinitionNode "Type" typeDefinitions)|].
      apply says_modify.
    - reflexivity.
    - intros r. apply app_nil_r. }
  assert (H : says (registerType args)
    (fun r => assignsOf args (mergeAll (mergesOf args) r))
    (fun r =>
       duplicateWarnings "Type" isTypeDefinitionNode (typeDefinitions r)
         (definitionsOf (RegisterTypeArgs.typeDefinitions args))
       ++ duplicateWarnings "Query" isFieldDefinition (queryDefinitions r)
            (rootFields "Query" (RegisterTypeArgs.queryDefinitions args))
       ++ duplicateWarnings "Mutation" isFieldDefinition (mutationDefinitions r)
            (rootFields "Mutation" (RegisterTypeArgs.mutationDefinitions args))
       ++ duplicateWarnings "Subscription" isFieldDefinition (subscriptionDefinitions r)
            (rootFields "Subscription" (RegisterTypeArgs.subscriptionDefinitions args)))).
  { unfold registerType. eapply says_ext.
    - eapply says_bind; [exact Htypes|].
      eapply says_bind;
        [apply (says_check isFieldDefinition "Query" queryDefinitions)|].
      eapply says_bind; [apply (says_modify (merge Query _))|].
      eapply says_bind;
        [apply (says_check isFieldDefinition "Mutation" mutationDefinitions)|].
      eapply says_bind; [apply (says_modify (merge Mutation _))|].
      eapply says_bind;
        [apply (says_check isFieldDefinition "Subscription" subscriptionDefinitions)|].
      eapply says_bind; [apply (says_modify (merge Subscription _))|].
      eapply says_bind; [apply says_modify|].
      eapply says_bind; [apply says_modify|].
      eapply says_bind; [apply says_modify|].
      apply says_modify.
    - intros r. unfold definitionsOf, mergeAll, mergesOf. cbn [fold_left fst snd].
      destruct (RegisterTypeArgs.typeDefinitions args); reflexivity.
    - intros r. cbv beta. rewrite !app_nil_r.
      change (queryDefinitions
                (merge Type_ (definitionsOf (RegisterTypeArgs.typeDefinitions args)) r))
        with (store Query
                (merge Type_ (definitionsOf (RegisterTypeArgs.typeDefinitions args)) r)).
      rewrite (store_merge_other Type_ Query) by reflexivity.
      set (r1 := merge Type_ (definitionsOf (RegisterTypeArgs.typeDefinitions args)) r).
      set (r2 := merge Query (rootFields "Query" (RegisterTypeArgs.queryDefinitions args))
                   r1).
      change (mutationDefinitions r2) with (store Mutation r2).
      subst r2. rewrite (store_merge_other Query Mutation) by reflexivity.
      subst r1. rewrite (store_merge_other Type_ Mutation) by reflexivity.
      set (r1 := merge Type_ (definitionsOf (RegisterTypeArgs.typeDefinitions args)) r).
      set (r2 := merge Query (rootFields "Query" (RegisterTypeArgs.queryDefinitions args))
                   r1).
      set (r3 := merge Mutation
                   (rootFields "Mutation" (RegisterTypeArgs.mutationDefinitions args)) r2).
      change (subscriptionDefinitions r3) with (store Subscription r3).
      subst r3. rewrite (store_merge_other Mutation Subscription) by reflexivity.
      subst r2. rewrite (store_merge_other Query Subscription) by reflexivity.
      subst r1. rewrite (store_merge_other Type_ Subscription) by reflexivity.
      reflexivity. }
  rewrite (H w). split; reflexivity.
Qed.

(** ** The resolver maps *)

Lemma obj_get_spread_one {V : Type} (a : Obj V) (name k : string) (v : V) :
  NoDup (keys a) ->
  obj_get (spread a [(name, v)]) k = if name =? k then Some v else obj_get a k.
Proof.
  intros ND. rewrite obj_get_spread; [|exact ND|constructor; [intros []|constructor]].
  simpl. destruct (name =? k); reflexivity.
Qed.

(** The shape [getResolvers] and [getExtensionResolvers] share. *)
Lemma obj_get_containers (base query mutation subscription : Obj Value) (k : string) :
  NoDup (keys base) ->
  obj_get
    (let definitions := base in
     let definitions :=
       if negb (List.length (keys query) =? 0)%nat then
         spread definitions [("Query", Object (spread query []))]
       else definitions in
     let definitions :=
       if negb (List.length (keys mutation) =? 0)%nat then
         spread definitions [("Mutation", Object (spread mutation []))]
       else definitions in
     let definitions :=
       if negb (List.length (keys subscription) =? 0)%nat then
         spread definitions [("Subscription", Object (spread subscription []))]
       else definitions in
     definitions) k
  = shadowing (resolverContainers query mutation subscription) base k.
Proof.
  intros ND. unfold shadowing, resolverContainers. cbv zeta. cbn [flat_map fst snd].
  destruct (negb (List.length (keys query) =? 0)%nat);
    destruct (negb (List.length (keys mutation) =? 0)%nat);
    destruct (negb (List.length (keys subscription) =? 0)%nat);
    cbn [app];
    rewrite ?obj_get_spread_one by (repeat apply NoDup_keys_spread; exact ND);
    cbn [obj_get];
    repeat match goal with
           | |- context [String.eqb ?a k] => destruct (String.eqb_spec a k)
           end;
    try reflexivity; congruence.
Qed.

(** X9. The resolver map handed to [makeExecutableSchema]: a name is served
    by the container of field resolvers if it is Query, Mutation or
    Subscription and that category has a resolver; otherwise by the type
    resolvers; otherwise by the internal values. So a type resolver shadows
    an internal value of its name, and a container shadows both. *)
Theorem getResolvers_serves_the_latest_layer (r : GQLRegistry) (k : string) :
  NoDup (keys (internalValues r)) -> NoDup (keys (typeResolvers r)) ->
  obj_get (getResolvers r) k
  = shadowing
      (resolverContainers (queryResolvers r) (mutationResolvers r) (subscriptionResolvers r))
      (spread (internalValues r) (typeResolvers r)) k /\
  obj_get (spread (internalValues r) (typeResolvers r)) k
  = shadowing (typeResolvers r) (internalValues r) k.
Proof.
  intros Hi Ht. split.
  - unfold getResolvers. apply obj_get_containers. apply NoDup_keys_spread.
  - apply obj_get_spread; assumption.
Qed.

Lemma getResolvers_serves_the_latest_layer_witness :
  obj_get
    (getResolvers
       ((new_GQLRegistry 0)
          <| internalValues := [("Date", Fn "internal"); ("Query", Fn "internal")] |>
          <| typeResolvers := [("Date", Fn "scalar")] |>
          <| queryResolvers := [("books", Fn "books")] |>))
    "Query"
  = Some (Object [("books", Fn "books")]).
Proof.
  refine (eq_trans
            (proj1 (getResolvers_serves_the_latest_layer
                      ((new_GQLRegistry 0)
                         <| internalValues := [("Date", Fn "internal");
                                               ("Query", Fn "internal")] |>
                         <| typeResolvers := [("Date", Fn "scalar")] |>
                         <| queryResolvers := [("books", Fn "books")] |>)
                      "Query" _ _)) _).
  - repeat constructor; simpl; intuition discriminate.
  - repeat constructor; simpl; intuition discriminate.
  - reflexivity.
Defined.

(** X10. The resolver map handed to [stitchSchemas] by the executable
    build: a name is served by the container of extension field resolvers if
    it is Query, Mutation or Subscription and that category has an extension
    resolver, otherwise by the extension type resolvers. Internal values and
    the resolvers of the base declarations are not in it. *)
Theorem getExtensionResolvers_serves_extensions_only (r : GQLRegistry) (k : string) :
  NoDup (keys (extensionTypeResolvers r)) ->
  obj_get (getExtensionResolvers r) k
  = shadowing
      (resolverContainers (extensionQueryResolvers r) (extensionMutationResolvers r)
         (extensionSubscriptionResolvers r))
      (extensionTypeResolvers r) k.
Proof.
  intros ND. unfold getExtensionResolvers.
  rewrite (obj_get_containers (spread (extensionTypeResolvers r) []))
    by apply NoDup_keys_spread.
  rewrite (spread_copy (extensionTypeResolvers r) ND). reflexivity.
Qed.

Lemma getExtensionResolvers_serves_extensions_only_witness :
  obj_get
    (getExtensionResolvers
       ((new_GQLRegistry 0)
          <| internalValues := [("Date", Fn "internal")] |>
          <| extensionTypeResolvers := [("Book", Fn "extended")] |>))
    "Date"
  = None.
Proof.
  rewrite (getExtensionResolvers_serves_extensions_only
             ((new_GQLRegistry 0)
                <| internalValues := [("Date", Fn "internal")] |>
                <| extensionTypeResolvers := [("Book", Fn "extended")] |>) "Date").
  - reflexivity.
  - repeat constructor; simpl; intuition discriminate.
Defined.






(** X12. Internal values accumulate: after [registerInternalValues] a key
    it was given has the new value, and a key it was not given has the value
    it had. *)
Theorem internal_values_accumulate (new : Obj Value) (r : GQLRegistry) (k : string) :
  NoDup (keys (internalValues r)) -> NoDup (keys new) ->
  obj_get (internalValues (registerInternalValues new r)) k
  = shadowing new (internalValues r) k.
Proof.
  intros Hold Hnew. unfold registerInternalValues. cbn [internalValues].
  apply obj_get_spread; assumption.
Qed.

Lemma internal_values_accumulate_witness :
  obj_get
    (internalValues
       (registerInternalValues [("limit", Fn "100")]
          (registerInternalValues [("limit", Fn "10"); ("Date", Fn "date")]
             (new_GQLRegistry 0)))) "limit"
  = Some (Fn "100").
Proof.
  refine (eq_trans
            (internal_values_accumulate [("limit", Fn "100")]
               (registerInternalValues [("limit", Fn "10"); ("Date", Fn "date")]
                  (new_GQLRegistry 0)) "limit" _ _) _).
  - repeat constructor; simpl; intuition discriminate.
  - repeat constructor; simpl; intuition discriminate.
  - reflexivity.
Defined.

(** ** The cached artifact *)

Section Cached.
Variable s : GraphQLSchema.

(** [s] is cached and both flags are up *)
Let C (w : World) : Prop := executableSchema (this w) = Some s /\ finalized w.

Lemma C_warn (message : string) (w : World) :
  C w -> C (mkWorld (this w) (log w ++ [console_warn message])).
Proof. intros H. exact H. Qed.

Lemma C_step (f : GQLRegistry -> GQLRegistry) (w : World) :
  (forall r, registrationFrame r (f r)) -> C w -> C (mkWorld (f (this w)) (log w)).
Proof.
  intros Hf [H1 [H2 H3]]. unfold C, finalized. simpl.
  rewrite (registrationFrame_executableSchema _ _ (Hf (this w))).
  rewrite (registrationFrame_hasExecutedPreStart _ _ (Hf (this w))).
  rewrite (registrationFrame_hasProcessedPlugins _ _ (Hf (this w))). auto.
Qed.

Lemma C_served (w : World) : C w -> getExecutableSchema w = (Returns s, w).
Proof.
  intros [H1 [H2 H3]]. unfold getExecutableSchema, bind.
  rewrite (preStart_done w H2), (processPlugins_done w H3). unfold getThis.
  rewrite H1. reflexivity.
Qed.

Lemma C_finalize (op : Finalize) : keeps C (finalize op).
Proof.
  intros w Hw. destruct op; simpl.
  - pose proof Hw as [H1 [H2 H3]]. unfold getFederatableSchema, bind.
    rewrite (preStart_done w H2), (processPlugins_done w H3). simpl. exact Hw.
  - pose proof Hw as [H1 [H2 H3]]. unfold getSchema, bind at 1 2.
    rewrite (preStart_done w H2), (processPlugins_done w H3).
    assert (Hk : keeps C wrapRemoteSchemas).
    { apply keeps_wrapRemoteSchemas. intros v w' Hw'. exact Hw'. }
    specialize (Hk w Hw). unfold bind, getThis.
    destruct (wrapRemoteSchemas w) as [[remotes|e] w']; exact Hk.
  - rewrite (C_served w Hw). exact Hw.
Qed.

Lemma C_after (st : Step) (w : World) :
  st <> register call_clear -> C w -> C (after st w).
Proof.
  intros Hs Hw. destruct st as [op|c]; simpl.
  - apply keeps_run; [apply C_finalize|exact Hw].
  - apply keeps_run; [|exact Hw].
    apply (keeps_perform C C_warn C_step). congruence.
Qed.

Lemma C_afterAll (l : list Step) (w : World) :
  ~ In (register call_clear) l -> C w -> C (afterAll l w).
Proof.
  unfold afterAll. revert w. induction l as [|st l IH]; intros w Hl Hw; [exact Hw|].
  simpl. apply IH.
  - intros H. apply Hl. right. exact H.
  - apply C_after; [|exact Hw]. intros H. apply Hl. left. exact H.
Qed.
End Cached.

(** What the executable build returns is what it leaves cached. *)
Lemma getExecutableSchema_caches :
  triple (fun _ => True) getExecutableSchema
    (fun s w => executableSchema (this w) = Some s) (fun _ => True).
Proof.
  unfold getExecutableSchema.
  eapply triple_bind; [apply triple_anything|]. intros ?; cbv beta.
  eapply triple_bind; [apply triple_anything|]. intros ?; cbv beta.
  apply triple_read. intros r.
  destruct (executableSchema r) as [cached|] eqn:E.
  - apply triple_ret. intros w [_ Hr]. rewrite Hr. exact E.
  - eapply triple_bind; [apply triple_anything|]. intros remotes. cbv beta.
    apply triple_read. intros r'.
    eapply triple_bind.
    + apply triple_modify. intros w _. instantiate (1 := fun _ w =>
        executableSchema (this w)
        = Some (applyDirectiveResolvers r'
                  (stitchSchemas
                     (makeExecutableSchema (getDefinitionsDocument r) (Some (getResolvers r))
                      :: remotes)
                     (getExtensionDefinitionsDocument r') (Some (getExtensionResolvers r'))))).
      reflexivity.
    + intros ?; cbv beta. apply triple_ret. intros w Hw. exact Hw.
Qed.

(** X15. The executable build is built once: after a call that returned the
    artifact [s], every later call returns [s] again and changes nothing,
    whatever was registered in between, until [clear] is called. What is
    registered after the first build does not get into the artifact. *)
Theorem executable_schema_is_built_once (w : World) (s : GraphQLSchema)
    (later : list Step) :
  fst (getExecutableSchema w) = Returns s ->
  ~ In (register call_clear) later ->
  getExecutableSchema (afterAll later (snd (getExecutableSchema w)))
  = (Returns s, afterAll later (snd (getExecutableSchema w))).
Proof.
  intros Hret Hlater. apply C_served. apply C_afterAll; [exact Hlater|]. split.
  - exact (triple_run _ _ _ _ w s getExecutableSchema_caches Logic.I Hret).
  - exact (triple_run _ _ _ _ w s (finalize_finalized executable) Logic.I Hret).
Qed.

Lemma executable_schema_is_built_once_witness :
  fst (getExecutableSchema
         (afterAll [registerTypes [objectType "Book" ""]; finish declarations]
            (snd (getExecutableSchema (worldWith [adds 1 "inherit" "Node"])))))
  = fst (getExecutableSchema (worldWith [adds 1 "inherit" "Node"])).
Proof.
  destruct (fst (getExecutableSchema (worldWith [adds 1 "inherit" "Node"]))) as [s|e] eqn:E;
    [|vm_compute in E; discriminate].
  rewrite (executable_schema_is_built_once (worldWith [adds 1 "inherit" "Node"]) s
             [registerTypes [objectType "Book" ""]; finish declarations] E).
  - reflexivity.
  - simpl. intros [H|[H|[]]]; discriminate.
Defined.

(** ** Clearing and building again *)

Lemma clear_run (w : World) :
  exists r',
    clear w
    = forEach (plugins r') (fun plu =>
        invoke plu Hook.clear None None (Plugin.clear plu) ;; ret tt) (mkWorld r' (log w)) /\
    emptied r' /\ keptByClear (this w) r'.
Proof.
  destruct w as [r l]. eexists. split; [reflexivity|]. split.
  - unfold emptied. repeat split; reflexivity.
  - unfold keptByClear. repeat split; reflexivity.
Qed.

Lemma typeAddCallsOf_clearCalls (pid : nat) (ps : list Plugin.t) :
  typeAddCallsOf pid (clearCalls ps) = 0.
Proof.
  unfold typeAddCallsOf. induction ps as [|p ps IH]; [reflexivity|].
  cbn [clearCalls flat_map]. rewrite filter_app, length_app.
  fold (clearCalls ps). rewrite IH. destruct (Plugin.clear p); [|reflexivity].
  unfold isTypeAddOf. simpl. rewrite andb_false_r. reflexivity.
Qed.

(** What [clear] adds to the log are calls of [clear] hooks. *)
Lemma clear_logs_clear_calls (w : World) :
  exists notified, log (snd (clear w)) = log w ++ clearCalls notified.
Proof.
  destruct (clear_run w) as [r' (Hrun&_&_)]. rewrite Hrun.
  destruct (clear_hooks_run (plugins r') (mkWorld r' (log w))) as [_ Hlog].
  destruct (fst (forEach (plugins r')
                   (fun plu => invoke plu Hook.clear None None (Plugin.clear plu) ;; ret tt)
                   (mkWorld r' (log w)))) as [[]|e] eqn:E.
  - exists (plugins r'). apply Hlog. reflexivity.
  - destruct (clear_hooks_throw (plugins r') (mkWorld r' (log w)) e E)
      as (notified&plu&rest&_&_&H).
    exists (notified ++ [plu]). exact H.
Qed.

(** X16. [clear] re-arms the pipeline and not the setup: on a registry whose
    setup has run, after [clear], however it ends, the setup step does
    nothing, so that what the setup callbacks had registered is not
    registered again, while the next finalize operation that returns has run
    the pipeline again: the global type-add hook of every plugin that was
    registered before [clear] has been called once more. *)
Theorem clear_rearms_the_pipeline_only (w : World) (op : Finalize) (s : GraphQLSchema)
    (p : Plugin.t) :
  hasExecutedPreStart (this w) = true ->
  NoDup (map Plugin.self (plugins (this w))) ->
  In p (plugins (this w)) ->
  fst (finalize op (snd (clear w))) = Returns s ->
  preStart (snd (clear w)) = (Returns tt, snd (clear w)) /\
  typeAddCallsOf (Plugin.self p) (log (snd (finalize op (snd (clear w)))))
  = typeAddCallsOf (Plugin.self p) (log w) + (if implementsTypeAdd p then 1 else 0) /\
  finalized (snd (finalize op (snd (clear w)))).
Proof.
  intros Hstarted ND Hp Hret.
  destruct (clear_run w) as [r' (Hrun&He&Hk)].
  destruct (clear_hooks_run (plugins r') (mkWorld r' (log w))) as [Hthis _].
  rewrite <- Hrun in Hthis. cbn [this] in Hthis.
  destruct (clear_logs_clear_calls w) as [notified Hlog].
  destruct Hk as (_&_&Hflag&Hplugins).
  assert (Hstarted' : hasExecutedPreStart (this (snd (clear w))) = true).
  { rewrite Hthis, Hflag. exact Hstarted. }
  assert (Hdown : hasProcessedPlugins (this (snd (clear w))) = false).
  { rewrite Hthis. apply He. }
  pose proof (preStart_done _ Hstarted') as Hpre.
  split; [exact Hpre|]. split.
  - rewrite (triple_run _ _ _ _ (snd (clear w)) s
               (finalize_count (Plugin.self p) op (typeAddCallsOf (Plugin.self p) (log w))));
      [|split; [|exact Hdown]|exact Hret].
    + rewrite finalize_plugins, Hpre. cbn [snd]. rewrite Hthis, Hplugins.
      rewrite (isTypeAdder_once p _ ND Hp). reflexivity.
    + rewrite Hlog, typeAddCallsOf_app, typeAddCallsOf_clearCalls. lia.
  - apply (triple_run _ _ _ _ (snd (clear w)) s (finalize_finalized op) Logic.I Hret).
Qed.

Lemma clear_rearms_the_pipeline_only_witness :
  typeAddCallsOf 1 (log (snd (finalize executable (snd (clear builtWorld)))))
  = typeAddCallsOf 1 (log builtWorld) + 1.
Proof.
  destruct (fst (finalize executable (snd (clear builtWorld)))) as [s|e] eqn:E;
    [|vm_compute in E; discriminate].
  refine (proj1 (proj2 (clear_rearms_the_pipeline_only builtWorld executable s
                          ((adds 1 "inherit" "Node") <| Plugin.registry := Some 0 |>)
                          _ _ _ E))).
  - reflexivity.
  - vm_compute. repeat constructor; simpl; intuition discriminate.
  - vm_compute. left. reflexivity.
Defined.

(** ** A setup callback that rejects *)

Section BrokenSetup.
Variable f : PreStartFunction.
Hypothesis f_rejects : exists e, completion f = Throws e.

(** the setup flag is down and [f] is registered *)
Let Stuck (w : World) : Prop :=
  hasExecutedPreStart (this w) = false /\ In f (preStartFunctions (this w)).

Lemma Stuck_perform (c : Call) : keeps Stuck (perform c).
Proof.
  eapply keeps_perform_any.
  - intros message w Hw. exact Hw.
  - intros g w Hg [H1 H2]. unfold Stuck. simpl.
    pose proof (Hg (this w)) as Hfr. unfold registrationFrame in Hfr.
    destruct Hfr as (_&_&Hp&Hs&_). rewrite Hp, Hs. auto.
  - intros r' w [H1 H2] _ Hk. unfold keptByClear in Hk.
    destruct Hk as (_&Hp&Hs&_). unfold Stuck. simpl. rewrite Hp, Hs. auto.
  - intros pid w Hw. exact Hw.
Qed.

Lemma Stuck_preStart : triple Stuck preStart (fun _ _ => False) Stuck.
Proof.
  unfold preStart. apply triple_read. intros r.
  apply (triple_pure (hasExecutedPreStart r = false /\ In f (preStartFunctions r))).
  { intros w [[H1 H2] Hr]. subst r. auto. }
  intros [Hflag Hin]. rewrite Hflag.
  apply (triple_strengthen _ Stuck); [|tauto].
  eapply triple_bind.
  { apply (triple_forEach_throws Stuck (preStartFunctions r) _ f Hin).
    - intros g _. apply keeps_bind; [|intros; apply keeps_settle].
      apply keeps_forEach. intros c _. apply Stuck_perform.
    - eapply triple_bind.
      + apply keeps_forEach. intros c _. apply Stuck_perform.
      + intros ?; cbv beta. destruct f_rejects as [e He]. rewrite He.
        apply triple_throw. auto. }
  intros u w Hw. destruct Hw.
Qed.

Lemma Stuck_finalize (op : Finalize) : triple Stuck (finalize op) (fun _ _ => False) Stuck.
Proof.
  destruct op; simpl; unfold getFederatableSchema, getSchema, getExecutableSchema;
    (eapply triple_bind; [apply Stuck_preStart|]); intros u w0 Hw; destruct Hw.
Qed.
End BrokenSetup.

(** X17. A setup callback that rejects blocks every build: while the setup
    flag is down and such a callback is registered, each finalize operation
    rejects, before the pipeline is reached; the setup flag stays down and the
    callback stays registered, so the next finalize operation runs the setup
    callbacks from the first one again, and rejects again. *)
Theorem rejected_setup_blocks_every_build (w : World) (f : PreStartFunction)
    (op : Finalize) :
  hasExecutedPreStart (this w) = false ->
  In f (preStartFunctions (this w)) ->
  (exists e, completion f = Throws e) ->
  (exists e, fst (finalize op w) = Throws e) /\
  hasExecutedPreStart (this (snd (finalize op w))) = false /\
  In f (preStartFunctions (this (snd (finalize op w)))) /\
  (forall again, exists e, fst (finalize again (snd (finalize op w))) = Throws e).
Proof.
  intros Hflag Hin Hrej.
  pose proof (Stuck_finalize f Hrej op w (conj Hflag Hin)) as H.
  destruct (finalize op w) as [[s|e] w1]; [destruct H|]. simpl.
  destruct H as [H1 H2].
  split; [eauto|]. split; [exact H1|]. split; [exact H2|].
  intros again. pose proof (Stuck_finalize f Hrej again w1 (conj H1 H2)) as H'.
  destruct (finalize again w1) as [[s|e'] w2]; [destruct H'|]. simpl. eauto.
Qed.

Lemma rejected_setup_blocks_every_build_witness :
  exists e, fst (finalize federatable brokenSetupWorld) = Throws e.
Proof.
  refine (proj1 (rejected_setup_blocks_every_build brokenSetupWorld
                   (mkPreStartFunction [] (Throws "no database")) federatable _ _ _)).
  - reflexivity.
  - simpl. left. reflexivity.
  - eexists. reflexivity.
Defined.

(** ** The loop over the remote descriptors *)

Lemma triple_foldM_throws {A B : Type} (I : World -> Prop) (l : list A)
    (body : B -> A -> M B) (x : A) (acc : B) :
  In x l ->
  (forall acc y, keeps I (body acc y)) ->
  (forall acc, triple I (body acc x) (fun _ _ => False) I) ->
  triple I (foldM l acc body) (fun _ _ => False) I.
Proof.
  revert acc. induction l as [|y l IH]; intros acc Hin Hk Hx; [destruct Hin|].
  simpl. destruct Hin as [Hy|Hin].
  - subst y. eapply triple_bind; [apply Hx|]. intros u w Hw. destruct Hw.
  - eapply triple_bind; [apply Hk|]. intros acc'. apply IH; auto.
Qed.

Section Rejecting.
Variables (name : string) (remote : RegisterRemoteSchemaArgs.t) (e : string).
Hypothesis supplier_rejects : RegisterRemoteSchemaArgs.asyncSchema remote = Some (Throws e).
Variable K : World -> Prop.
Hypothesis K_remote :
  forall v w, K w -> K (mkWorld ((this w) <| remoteSchemas := v |>) (log w)).

(** the descriptor is registered *)
Let R (w : World) : Prop :=
  obj_get (remoteSchemas (this w)) name = Some remote /\ K w.

(** The loop over the descriptors asks every supplier: it does not return
    when one of them rejects. *)
Lemma R_wrapRemoteSchemas : triple R wrapRemoteSchemas (fun _ _ => False) R.
Proof.
  unfold wrapRemoteSchemas. apply triple_read. intros r0.
  apply (triple_pure (In name (keys (remoteSchemas r0)))).
  { intros w [[H _] Hr]. subst r0. apply obj_get_In in H.
    apply (in_map fst) in H. exact H. }
  intros Hin. apply (triple_strengthen _ R); [|tauto].
  apply (triple_foldM_throws R _ _ name [] Hin).
  - intros acc y. apply triple_read. intros r.
    destruct (obj_get (remoteSchemas r) y) as [remote'|] eqn:Hget;
      [|apply triple_ret; tauto].
    destruct (String.eqb_spec y name) as [Ey|Ey].
    + subst y. apply (triple_pure (remote' = remote)).
      { intros w [[H _] Hr]. subst r. congruence. }
      intros Hremote. subst remote'. rewrite supplier_rejects.
      eapply (triple_bind _ _ (fun _ _ => False)); [apply triple_throw; tauto|].
      intros u w Hw. destruct Hw.
    + eapply triple_bind.
      { instantiate (1 := fun _ w => R w).
        destruct (RegisterRemoteSchemaArgs.asyncSchema remote');
          [apply triple_settle|apply triple_ret]; tauto. }
      intros resolved. cbv beta. destruct resolved as [schema|]; [|apply triple_ret; tauto].
      eapply triple_bind; [|intros ?; cbv beta; apply triple_ret; intros w Hw; exact Hw].
      apply triple_modify. intros w (H1&H2). unfold R. cbn [this].
      rewrite remoteSchemas_set, obj_get_set_neq by congruence.
      split; [exact H1|]. apply (K_remote _ w H2).
  - intros acc. apply triple_read. intros r.
    apply (triple_pure (obj_get (remoteSchemas r) name = Some remote)).
    { intros w [[H _] Hr]. subst r. exact H. }
    intros Hget. rewrite Hget, supplier_rejects.
    eapply (triple_bind _ _ (fun _ _ => False)); [apply triple_throw; tauto|].
    intros u w Hw. destruct Hw.
Qed.
End Rejecting.

(** X18. A remote supplier that rejects blocks the gateway builds: on a
    finished registry with nothing cached, the declarations-only build and the
    executable build reject when the supplier of a registered descriptor
    rejects, and nothing is cached, so the next call asks the suppliers
    again. *)
Theorem rejected_supplier_blocks_the_gateway (w : World) (name : string)
    (remote : RegisterRemoteSchemaArgs.t) (e : string) :
  finalized w ->
  executableSchema (this w) = None ->
  obj_get (remoteSchemas (this w)) name = Some remote ->
  RegisterRemoteSchemaArgs.asyncSchema remote = Some (Throws e) ->
  (exists e', fst (getSchema w) = Throws e') /\
  (exists e', fst (getExecutableSchema w) = Throws e') /\
  executableSchema (this (snd (getExecutableSchema w))) = None /\
  finalized (snd (getExecutableSchema w)).
Proof.
  intros Hfin Hcache Hget Hrej.
  pose proof (R_wrapRemoteSchemas name remote e Hrej
                (fun w => executableSchema (this w) = None /\ finalized w)
                (fun _ _ H => H) w (conj Hget (conj Hcache Hfin)))
    as Hwrap.
  destruct Hfin as [H1 H2].
  split; [|split; [|split]].
  - unfold getSchema, bind. rewrite (preStart_done w H1), (processPlugins_done w H2).
    unfold getThis. destruct (wrapRemoteSchemas w) as [[remotes|e'] w']; [destruct Hwrap|].
    eexists. reflexivity.
  - unfold getExecutableSchema, bind.
    rewrite (preStart_done w H1), (processPlugins_done w H2).
    unfold getThis. rewrite Hcache.
    destruct (wrapRemoteSchemas w) as [[remotes|e'] w']; [destruct Hwrap|].
    eexists. reflexivity.
  - unfold getExecutableSchema, bind.
    rewrite (preStart_done w H1), (processPlugins_done w H2).
    unfold getThis. rewrite Hcache.
    destruct (wrapRemoteSchemas w) as [[remotes|e'] w']; [destruct Hwrap|].
    simpl. apply Hwrap.
  - unfold getExecutableSchema, bind.
    rewrite (preStart_done w H1), (processPlugins_done w H2).
    unfold getThis. rewrite Hcache.
    destruct (wrapRemoteSchemas w) as [[remotes|e'] w']; [destruct Hwrap|].
    simpl. apply Hwrap.
Qed.

Lemma rejected_supplier_blocks_the_gateway_witness :
  exists e', fst (getExecutableSchema unreachableWorld) = Throws e'.
Proof.
  refine (proj1 (proj2 (rejected_supplier_blocks_the_gateway unreachableWorld "users"
                          (RegisterRemoteSchemaArgs.mk "users"
                             (Some (Throws "connection refused")) None "http" None None)
                          "connection refused" _ _ _ _))).
  - split; reflexivity.
  - reflexivity.
  - reflexivity.
  - reflexivity.
Defined.

Lemma obj_get_middle {V : Type} (pre suf : Obj V) (k : string) (v : V) :
  ~ In k (keys pre) -> obj_get (pre ++ (k, v) :: suf) k = Some v.
Proof.
  induction pre as [|[k' v'] pre IH]; simpl; intros H.
  - rewrite String.eqb_refl. reflexivity.
  - destruct (String.eqb_spec k' k) as [E|E]; [exfalso; apply H; left; exact E|].
    apply IH. intros Hin. apply H. right. exact Hin.
Qed.

Lemma obj_set_middle {V : Type} (pre suf : Obj V) (k : string) (v v' : V) :
  ~ In k (keys pre) -> obj_set (pre ++ (k, v) :: suf) k v' = pre ++ (k, v') :: suf.
Proof.
  induction pre as [|[k0 v0] pre IH]; simpl; intros H.
  - rewrite String.eqb_refl. reflexivity.
  - destruct (String.eqb_spec k0 k) as [E|E]; [exfalso; apply H; left; exact E|].
    rewrite IH; [reflexivity|]. intros Hin. apply H. right. exact Hin.
Qed.

Lemma remoteSchemas_same (r : GQLRegistry) : r <| remoteSchemas := remoteSchemas r |> = r.
Proof. destruct r. reflexivity. Qed.

(** When no supplier rejects, the loop over the descriptors returns the
    wrapped sources in key order and leaves each on its descriptor. *)
Lemma wrapRemoteSchemas_run (w : World) :
  NoDup (keys (remoteSchemas (this w))) ->
  forallb (fun member => negb (supplierRejects (snd member))) (remoteSchemas (this w))
  = true ->
  wrapRemoteSchemas w
  = (Returns (wrappedSources (remoteSchemas (this w))),
     mkWorld ((this w) <| remoteSchemas := remembered (remoteSchemas (this w)) |>) (log w)).
Proof.
  intros ND Hok. destruct w as [r l]. cbn [this log] in *.
  unfold wrappedSources, remembered, wrapRemoteSchemas. unfold bind at 1. unfold getThis at 1. cbn [this].
  match goal with |- foldM _ _ ?b _ = _ => set (body := b) end.
  assert (Hloop : forall suf pre acc,
    NoDup (keys (pre ++ suf)) ->
    forallb (fun member => negb (supplierRejects (snd member))) suf = true ->
    foldM (keys suf) acc body (mkWorld (r <| remoteSchemas := pre ++ suf |>) l)
    = (Returns
         (acc ++ flat_map (fun member =>
                             match wrappedSource (snd member) with
                             | Some wrappedSchema => [wrappedSchema]
                             | None => []
                             end) suf),
       mkWorld
         (r <| remoteSchemas :=
                 pre ++ map (fun member => (fst member, remembering (snd member))) suf |>)
         l)).
  { induction suf as [|[n remote] suf IH]; intros pre acc NDp Hs.
    - simpl. rewrite !app_nil_r. reflexivity.
    - cbn [keys map fst]. rewrite foldM_cons_run.
      assert (Hn : ~ In n (keys pre)).
      { rewrite keys_app in NDp. simpl in NDp. apply NoDup_remove_2 in NDp.
        intros H. apply NDp. apply in_or_app. left. exact H. }
      simpl in Hs. apply andb_prop in Hs. destruct Hs as [Hremote Hs].
      assert (Hstep : body acc n (mkWorld (r <| remoteSchemas := pre ++ (n, remote) :: suf |>) l)
        = (Returns (acc ++ match wrappedSource remote with
                           | Some wrappedSchema => [wrappedSchema]
                           | None => []
                           end),
           mkWorld (r <| remoteSchemas := (pre ++ [(n, remembering remote)]) ++ suf |>) l)).
      { unfold body, bind, getThis. cbn [this]. rewrite remoteSchemas_set.
        rewrite (obj_get_middle pre suf n remote Hn).
        unfold remembering, wrappedSource, sourceOf, supplierRejects in *.
        destruct (RegisterRemoteSchemaArgs.asyncSchema remote) as [[[source|]|error]|];
          try discriminate; cbn [settle ret option_map].
        - unfold modify. cbn [this log]. rewrite remoteSchemas_set.
          rewrite (obj_set_middle pre suf n remote _ Hn). rewrite <- app_assoc.
          reflexivity.
        - rewrite app_nil_r, <- app_assoc. reflexivity.
        - destruct (RegisterRemoteSchemaArgs.schema remote) as [source|];
            cbn [option_map].
          + unfold modify. cbn [this log]. rewrite remoteSchemas_set.
            rewrite (obj_set_middle pre suf n remote _ Hn). rewrite <- app_assoc.
            reflexivity.
          + rewrite app_nil_r, <- app_assoc. reflexivity. }
      rewrite Hstep. rewrite IH.
      + cbn [flat_map map fst snd]. rewrite <- !app_assoc. reflexivity.
      + rewrite <- app_assoc. simpl.
        rewrite keys_app in *. simpl in *. exact NDp.
      + exact Hs. }
  specialize (Hloop (remoteSchemas r) [] [] ND Hok). cbn [app] in Hloop.
  rewrite remoteSchemas_same in Hloop. exact Hloop.
Qed.


(** ** The declarations-only build *)

Lemma merge_remoteSchemas (c : Category) (incoming : list Node) (r : GQLRegistry) :
  remoteSchemas (merge c incoming r) = remoteSchemas r.
Proof. apply (merge_outsideStores c incoming r). Qed.

Lemma registerTypeExtension_remoteSchemas (args : RegisterTypeExtensionArgs.t)
    (r : GQLRegistry) :
  remoteSchemas (registerTypeExtension args r) = remoteSchemas r.
Proof.
  unfold registerTypeExtension.
  destruct (RegisterTypeExtensionArgs.extensionTypeDefinitions args);
    match goal with
    | |- remoteSchemas (?x <| _ := _ |> <| _ := _ |> <| _ := _ |> <| _ := _ |>) = _ =>
        transitivity (remoteSchemas x); [reflexivity|]
    end;
    change mergeIncomingExtensionSubscriptions with (merge ExtensionSubscription);
    change mergeIncomingExtensionMutations with (merge ExtensionMutation);
    change mergeIncomingExtensionQueries with (merge ExtensionQuery);
    change mergeIncomingExtensionTypes with (merge ExtensionType);
    rewrite ?merge_remoteSchemas; reflexivity.
Qed.

(** The descriptor object has each name once, whatever is assigned. *)
Lemma assigns_remoteSchemas (f : GQLRegistry -> GQLRegistry) (r : GQLRegistry) :
  Assigns f -> NoDup (keys (remoteSchemas r)) -> NoDup (keys (remoteSchemas (f r))).
Proof.
  intros Hf ND. destruct Hf; try exact ND.
  - rewrite merge_remoteSchemas. exact ND.
  - unfold registerRemoteSchema. destruct (member _ _); [exact ND|].
    rewrite remoteSchemas_set. apply NoDup_keys_obj_set. exact ND.
  - rewrite registerTypeExtension_remoteSchemas. exact ND.
  - unfold registerPlugin. destruct (find_ _ _); exact ND.
  - destruct (pipelineUpdate_outsideStores f r H) as (_&H2&_). rewrite H2. exact ND.
  - rewrite remoteSchemas_set. apply NoDup_keys_obj_set. exact ND.
Qed.

Lemma wrappedSource_remembering (remote : RegisterRemoteSchemaArgs.t) :
  wrappedSource (remembering remote) = wrappedSource remote.
Proof.
  unfold remembering. destruct (wrappedSource remote) eqn:E; [|exact E].
  rewrite <- E. reflexivity.
Qed.

Lemma wrappedSources_remembered (remotes : Obj RegisterRemoteSchemaArgs.t) :
  wrappedSources (remembered remotes) = wrappedSources remotes.
Proof.
  unfold wrappedSources, remembered. induction remotes as [|[n remote] remotes IH];
    [reflexivity|].
  cbn [map flat_map fst snd]. rewrite wrappedSource_remembering, IH. reflexivity.
Qed.

Lemma forallb_false {A : Type} (f : A -> bool) (l : list A) :
  forallb f l = false -> exists x, In x l /\ f x = false.
Proof.
  induction l as [|x l IH]; simpl; [discriminate|].
  destruct (f x) eqn:E; simpl.
  - intros H. destruct (IH H) as [y [H1 H2]]. eauto.
  - intros _. eauto.
Qed.


(** The loop over the descriptors returns only when no supplier rejects. *)
Lemma wrapRemoteSchemas_returns (w : World) (remotes : list GraphQLSchema) :
  NoDup (keys (remoteSchemas (this w))) ->
  fst (wrapRemoteSchemas w) = Returns remotes ->
  forallb (fun member => negb (supplierRejects (snd member))) (remoteSchemas (this w))
  = true.
Proof.
  intros ND Hret.
  destruct (forallb (fun member => negb (supplierRejects (snd member)))
              (remoteSchemas (this w))) eqn:Hok; [reflexivity|].
  exfalso. apply forallb_false in Hok. destruct Hok as [[name remote] [Hin Hrej]].
  cbn [snd] in Hrej. apply negb_false_iff in Hrej. unfold supplierRejects in Hrej.
  destruct (RegisterRemoteSchemaArgs.asyncSchema remote) as [[source|e]|] eqn:Hsupplier;
    try discriminate.
  pose proof (R_wrapRemoteSchemas name remote e Hsupplier (fun _ => True)
                (fun _ _ _ => Logic.I) w
                (conj (In_obj_get _ _ _ ND Hin) Logic.I)) as H.
  destruct (wrapRemoteSchemas w) as [[remotes'|e'] w']; [destruct H|discriminate].
Qed.

(** The three steps of the declarations-only build. *)
Lemma getSchema_run (w : World) :
  getSchema w
  = match preStart w with
    | (Returns _, w1) =>
        match processPlugins w1 with
        | (Returns _, w2) =>
            match wrapRemoteSchemas w2 with
            | (Returns remotes, w3) =>
                (Returns
                   (stitchSchemas
                      (makeExecutableSchema (getDefinitionsDocument (this w2)) None
                       :: remotes)
                      (getExtensionDefinitionsDocument (this w3)) None),
                 w3)
            | (Throws e, w3) => (Throws e, w3)
            end
        | (Throws e, w2) => (Throws e, w2)
        end
    | (Throws e, w1) => (Throws e, w1)
    end.
Proof.
  unfold getSchema, bind, getThis, ret.
  destruct (preStart w) as [[u|e] w1]; [|reflexivity].
  destruct (processPlugins w1) as [[u'|e] w2]; [|reflexivity].
  destruct (wrapRemoteSchemas w2) as [[remotes|e] w3]; reflexivity.
Qed.

Lemma documents_remoteSchemas_set (r : GQLRegistry) (v : Obj RegisterRemoteSchemaArgs.t) :
  getDefinitionsDocument (r <| remoteSchemas := v |>) = getDefinitionsDocument r /\
  getExtensionDefinitionsDocument (r <| remoteSchemas := v |>)
  = getExtensionDefinitionsDocument r.
Proof. split; reflexivity. Qed.

(** C6, as the code has it. When the declarations-only build returns, its
    result is the stitching of the local schema, compiled from the base
    document with no resolvers, with the wrapped form of the resolved source
    of every registered remote descriptor that has one, each once, under
    the extension document, with no resolvers: no resolver map gets into the
    artifact; every remote source and the extension declarations do. *)
Theorem getSchema_attaches_no_resolvers (w : World) (s : GraphQLSchema) :
  NoDup (keys (remoteSchemas (this w))) ->
  fst (getSchema w) = Returns s ->
  exists remotes,
    s = stitchSchemas
          (makeExecutableSchema (getDefinitionsDocument (this (snd (getSchema w)))) None
           :: remotes)
          (getExtensionDefinitionsDocument (this (snd (getSchema w)))) None /\
    Permutation remotes (wrappedSources (remoteSchemas (this (snd (getSchema w))))).
Proof.
  intros ND Hret.
  assert (Hassigns := assigns_remoteSchemas).
  assert (Hcleared : forall r r' : GQLRegistry,
            NoDup (keys (remoteSchemas r)) -> emptied r' -> keptByClear r r' ->
            NoDup (keys (remoteSchemas r'))).
  { intros r r' _ He _. destruct He as (He&_). rewrite He. constructor. }
  pose proof (keeps_run _ preStart w
                (Jw_preStart (fun r => NoDup (keys (remoteSchemas r)))
                   (fun f r Hf => Hassigns f r Hf) Hcleared) ND) as ND1.
  rewrite getSchema_run in *.
  destruct (preStart w) as [[u|e] w1]; [|discriminate]. cbn [snd] in ND1.
  pose proof (keeps_run _ processPlugins w1
                (Jw_processPlugins (fun r => NoDup (keys (remoteSchemas r)))
                   (fun f r Hf => Hassigns f r Hf)) ND1) as ND2.
  destruct (processPlugins w1) as [[u'|e] w2]; [|discriminate]. cbn [snd] in ND2.
  pose proof (wrapRemoteSchemas_returns w2) as Hok.
  pose proof (wrapRemoteSchemas_run w2 ND2) as Hrun.
  destruct (wrapRemoteSchemas w2) as [[remotes|e] w3]; [|discriminate].
  specialize (Hrun (Hok remotes ND2 eq_refl)).
  apply pair_equal_spec in Hrun. destruct Hrun as [H1 H2].
  injection H1 as H1. cbn [fst snd] in *. injection Hret as Hret.
  assert (Hthis : this w3
                  = (this w2) <| remoteSchemas := remembered (remoteSchemas (this w2)) |>).
  { rewrite H2. reflexivity. }
  destruct (documents_remoteSchemas_set (this w2) (remembered (remoteSchemas (this w2))))
    as [D1 D2].
  exists remotes. rewrite <- Hret, Hthis, D1, D2. split; [reflexivity|].
  rewrite remoteSchemas_set, wrappedSources_remembered, H1. apply Permutation_refl.
Qed.

Lemma getSchema_attaches_no_resolvers_witness :
  exists remotes,
    stitchSchemas
      [makeExecutableSchema (mkDocument []) None;
       wrapSchema (ForeignSchema "users") "http"
         [RenameTypes; RenameRootTypes; RenameRootFields;
          RenameObjectFields; RenameInterfaceFields; RenameInputObjectFields]]
      (mkDocument []) None
    = stitchSchemas
        (makeExecutableSchema (getDefinitionsDocument (this (snd (getSchema remoteWorld))))
           None :: remotes)
        (getExtensionDefinitionsDocument (this (snd (getSchema remoteWorld)))) None /\
    Permutation remotes (wrappedSources (remoteSchemas (this (snd (getSchema remoteWorld))))).
Proof.
  apply (getSchema_attaches_no_resolvers remoteWorld).
  - repeat constructor. simpl. tauto.
  - vm_compute. reflexivity.
Defined.

(** C6 as stated fails: a registered remote source is wrapped and stitched
    into what the declarations-only build returns. *)
Lemma getSchema_stitches_remote_sources :
  fst (getSchema remoteWorld)
  = Returns
      (stitchSchemas
         [makeExecutableSchema (mkDocument []) None;
          wrapSchema (ForeignSchema "users") "http"
            [RenameTypes; RenameRootTypes; RenameRootFields;
             RenameObjectFields; RenameInterfaceFields; RenameInputObjectFields]]
         (mkDocument []) None).
Proof. vm_compute. reflexivity. Qed.

(** ** What the pipeline leaves alone, as a whole *)

(** X21. What the pipeline itself writes are declarations and resolvers and
    its flag: [processPlugins] has no assignment to the identity of the
    registry, the remote descriptors, the internal values, the cached
    artifact, the data sources, the setup callbacks, the setup flag or the
    plugin list, so that with hooks that do not call back into the registry
    these are, however the run ends, as they were; what the run adds to the
    log are calls of hooks (it never warns); and its flag is up afterwards
    exactly if it was up before or the run returned. *)
Theorem pipeline_writes_declarations_and_resolvers_only (w : World) :
  untouchedByPipeline (this w) (this (snd (processPlugins w))) /\
  (exists calls,
     log (snd (processPlugins w)) = log w ++ calls /\
     Forall (fun e => isHookCall e = true) calls) /\
  (hasProcessedPlugins (this (snd (processPlugins w))) = true <->
   hasProcessedPlugins (this w) = true \/ fst (processPlugins w) = Returns tt).
Proof.
  pose (F := fun w' : World =>
    untouchedByPipeline (this w) (this w') /\
    exists calls, log w' = log w ++ calls /\ Forall (fun e => isHookCall e = true) calls).
  pose (I := fun w' : World =>
    F w' /\ hasProcessedPlugins (this w') = hasProcessedPlugins (this w)).
  pose (Q := fun w' : World => F w' /\ hasProcessedPlugins (this w') = true).
  assert (HF : forall e w', isHookCall e = true -> F w' ->
                 F (mkWorld (this w') (log w' ++ [e]))).
  { intros e w' He [H1 [calls [H2 H3]]]. split; [exact H1|].
    exists (calls ++ [e]). simpl. split.
    - rewrite H2. symmetry. apply app_assoc.
    - apply Forall_app. split; [exact H3|]. constructor; [exact He|constructor]. }
  assert (H : triple I processPlugins (fun _ => Q) I).
  { apply (triple_processPlugins I (fun e => isHookCall e = true)).
    - intros e w' He [H1 H2]. split; [apply HF; assumption|exact H2].
    - intros f w' Hf [[H1 H2] H3]. split; [split; [|exact H2]|].
      + pose proof (pipelineUpdate_outsideStores f (this w') Hf) as Ho.
        unfold outsideStores in Ho. unfold untouchedByPipeline in *. simpl.
        decompose [and] Ho. decompose [and] H1. repeat split; congruence.
      + simpl. rewrite pipelineUpdate_hasProcessedPlugins; assumption.
    - reflexivity.
    - reflexivity.
    - intros w' [H1 H2] H3. split; assumption.
    - intros w' [[H1 H2] H3]. split; [split; [|exact H2]|reflexivity].
      unfold untouchedByPipeline in *. simpl. exact H1. }
  assert (Hw : I w).
  { split; [split|reflexivity].
    - unfold untouchedByPipeline. repeat split; reflexivity.
    - exists []. split; [symmetry; apply app_nil_r|constructor]. }
  specialize (H w Hw).
  destruct (processPlugins w) as [[u|e] w']; simpl.
  - destruct H as [[H1 H2] H3]. split; [exact H1|]. split; [exact H2|].
    split; [intros _; right; destruct u; reflexivity|intros _; exact H3].
  - destruct H as [[H1 H2] H3]. split; [exact H1|]. split; [exact H2|].
    rewrite H3. split; [auto|]. intros [H|H]; [exact H|discriminate].
Qed.

(** ** The re-broadcast *)

Lemma broadcast_run (r : GQLRegistry) (ps : list Plugin.t) (l : list Event) :
  (forall p f, In p ps -> Plugin.schemaUpdated p = Some f ->
     f (getDefinitionsDocument r) (getExtensionDefinitionsDocument r) = Returns tt) ->
  forEach ps (fun plugin =>
    this <- getThis ;;
    let schema := getDefinitionsDocument this in
    let extensions := getExtensionDefinitionsDocument this in
    callGlobal plugin Hook.schemaUpdated (Plugin.schemaUpdated plugin) schema extensions ;;
    ret tt) (mkWorld r l)
  = (Returns tt,
     mkWorld r
       (l ++ flat_map (fun plugin =>
                         match Plugin.schemaUpdated plugin with
                         | Some _ =>
                             [hook_called (Plugin.self plugin) Hook.schemaUpdated None
                                (snapshot r)]
                         | None => []
                         end) ps)).
Proof.
  unfold forEach. revert l. induction ps as [|p ps IH]; intros l H.
  - simpl. rewrite app_nil_r. reflexivity.
  - rewrite foldM_cons_run. cbv beta. cbn [flat_map].
    assert (Hp : (this <- getThis ;;
                  let schema := getDefinitionsDocument this in
                  let extensions := getExtensionDefinitionsDocument this in
                  callGlobal p Hook.schemaUpdated (Plugin.schemaUpdated p) schema extensions ;;
                  ret tt) (mkWorld r l)
                 = (Returns tt,
                    mkWorld r
                      (l ++ match Plugin.schemaUpdated p with
                            | Some _ =>
                                [hook_called (Plugin.self p) Hook.schemaUpdated None
                                   (snapshot r)]
                            | None => []
                            end))).
    { unfold bind, getThis, callGlobal, invoke. cbn [this].
      destruct (Plugin.schemaUpdated p) as [f|] eqn:E; cbn [option_map].
      - rewrite (H p f (or_introl eq_refl) E). reflexivity.
      - unfold ret. rewrite app_nil_r. reflexivity. }
    cbv zeta in Hp. cbv beta zeta. rewrite Hp, IH.
    + rewrite <- app_assoc. reflexivity.
    + intros q f Hq. apply H. right. exact Hq.
Qed.

(** X22. The re-broadcast tells every listener once: when the call of no
    listener throws, [updatePluginSchemas] calls the [schemaUpdated] hook of
    every plugin that has one, once, in registration order, and assigns
    nothing itself. The documents are assembled anew for each listener; with
    listeners that do not call back into the registry they are the same for
    all, those of the registry as the re-broadcast found it, and the registry
    is as it was. *)
Theorem updatePluginSchemas_tells_every_listener (w : World) :
  (forall p f, In p (plugins (this w)) -> Plugin.schemaUpdated p = Some f ->
     f (getDefinitionsDocument (this w)) (getExtensionDefinitionsDocument (this w))
     = Returns tt) ->
  updatePluginSchemas w = (Returns tt, mkWorld (this w) (log w ++ broadcastOf (this w))).
Proof.
  intros H. destruct w as [r l]. unfold updatePluginSchemas, broadcastOf.
  unfold bind at 1. unfold getThis at 1. cbn [this log] in *.
  apply broadcast_run. exact H.
Qed.

Lemma updatePluginSchemas_tells_every_listener_witness :
  log (snd (updatePluginSchemas
              (worldWith [follows 1 "a"; adds 2 "b" "Node"; follows 3 "c"])))
  = [hook_called 1 Hook.schemaUpdated None (Some (mkDocument [], mkDocument []));
     hook_called 3 Hook.schemaUpdated None (Some (mkDocument [], mkDocument []))].
Proof.
  rewrite (updatePluginSchemas_tells_every_listener
             (worldWith [follows 1 "a"; adds 2 "b" "Node"; follows 3 "c"])).
  - reflexivity.
  - simpl. intros p f [Hp|[Hp|[Hp|[]]]] Hf; subst p; simpl in Hf;
      try discriminate; inversion Hf; reflexivity.
Defined.

(** ** The per-definition hooks *)

Lemma visit_run (objectHook : Hook.t)
    (method : Node -> DocumentNode -> DocumentNode -> Outcome (option (Obj Value)))
    (assign : Obj Value -> GQLRegistry -> GQLRegistry)
    (schema extensions : DocumentNode) (plugin : Plugin.t) (d : Node)
    (answer : option (Obj Value)) (r : GQLRegistry) (l : list Event) :
  method d schema extensions = Returns answer ->
  (objectPluginResolvers <-
     callPerDefinition plugin objectHook (Some method) d schema extensions ;;
   match truthy objectPluginResolvers with
   | Some objectPluginResolvers => modify (assign objectPluginResolvers)
   | None => ret tt
   end) (mkWorld r l)
  = (Returns tt,
     mkWorld (match answer with Some new => assign new r | None => r end)
       (l ++ [hook_called (Plugin.self plugin) objectHook (Some d)
                (Some (schema, extensions))])).
Proof.
  intros Ha. unfold bind, callPerDefinition, invoke, emit. cbn [option_map].
  rewrite Ha. destruct answer; reflexivity.
Qed.

Lemma visits_run (objectHook : Hook.t)
    (method : Node -> DocumentNode -> DocumentNode -> Outcome (option (Obj Value)))
    (assign : Obj Value -> GQLRegistry -> GQLRegistry)
    (schema extensions : DocumentNode) (plugin : Plugin.t) (ds : list Node)
    (r : GQLRegistry) (l : list Event) :
  (forall d, In d ds -> exists answer, method d schema extensions = Returns answer) ->
  exists r',
    forEach ds (fun typeDefinition =>
      objectPluginResolvers <-
        callPerDefinition plugin objectHook (Some method) typeDefinition schema extensions ;;
      match truthy objectPluginResolvers with
      | Some objectPluginResolvers => modify (assign objectPluginResolvers)
      | None => ret tt
      end) (mkWorld r l)
    = (Returns tt,
       mkWorld r'
         (l ++ map (fun d =>
                      hook_called (Plugin.self plugin) objectHook (Some d)
                        (Some (schema, extensions))) ds)).
Proof.
  unfold forEach. revert r l. induction ds as [|d ds IH]; intros r l H.
  - exists r. simpl. rewrite app_nil_r. reflexivity.
  - destruct (H d (or_introl eq_refl)) as [answer Ha].
    rewrite foldM_cons_run. cbv beta.
    rewrite (visit_run objectHook method assign schema extensions plugin d answer r l Ha).
    destruct (IH (match answer with Some new => assign new r | None => r end)
                (l ++ [hook_called (Plugin.self plugin) objectHook (Some d)
                         (Some (schema, extensions))])) as [r' Hr'].
    + intros d' Hd'. apply H. right. exact Hd'.
    + exists r'. rewrite Hr'. cbn [map]. rewrite <- app_assoc. reflexivity.
Qed.

(** X23. A per-definition hook is shown every definition of the base
    document: in an extension-resolver sub-step, when the plugin has the hook
    and the hook returns, the hook is called once for each definition of the
    base document the sub-step was handed, of whatever kind, in document
    order, each time with that same pair of documents, and the sub-step
    returns. *)
Theorem per_definition_hook_is_shown_every_definition
    (objectHook : Hook.t)
    (method : Node -> DocumentNode -> DocumentNode -> Outcome (option (Obj Value)))
    (assign : Obj Value -> GQLRegistry -> GQLRegistry)
    (schema extensions : DocumentNode) (plugin : Plugin.t) (w : World) :
  (forall d, In d (definitions schema) ->
     exists answer, method d schema extensions = Returns answer) ->
  fst (extensionResolversStep objectHook (Some method) assign schema extensions plugin w)
  = Returns tt /\
  log (snd (extensionResolversStep objectHook (Some method) assign schema extensions
              plugin w))
  = log w
    ++ map (fun d =>
              hook_called (Plugin.self plugin) objectHook (Some d)
                (Some (schema, extensions))) (definitions schema).
Proof.
  intros H. destruct w as [r l]. unfold extensionResolversStep.
  destruct (visits_run objectHook method assign schema extensions plugin
              (definitions schema) r l H) as [r' Hr'].
  cbv zeta. rewrite Hr'. split; reflexivity.
Qed.

Lemma per_definition_hook_is_shown_every_definition_witness :
  log (snd (processPluginTypeExtensionResolvers
              (mkDocument [objectType "Book" ""; field "books"]) (mkDocument [])
              (extendsAll 1 "extend") (worldWith [])))
  = [hook_called 1 Hook.addTypeResolverExtensionsForTypeDefinition
       (Some (objectType "Book" "")) (Some (mkDocument [objectType "Book" ""; field "books"],
                                            mkDocument []));
     hook_called 1 Hook.addTypeResolverExtensionsForTypeDefinition
       (Some (field "books")) (Some (mkDocument [objectType "Book" ""; field "books"],
                                     mkDocument []))].
Proof.
  refine (proj2 (per_definition_hook_is_shown_every_definition
                   Hook.addTypeResolverExtensionsForTypeDefinition
                   (fun d _ _ => Returns (Some [(name_value d, Fn "extended")]))
                   (fun new this =>
                      this <| extensionTypeResolvers :=
                                spread (extensionTypeResolvers this) new |>)
                   (mkDocument [objectType "Book" ""; field "books"]) (mkDocument [])
                   (extendsAll 1 "extend") (worldWith []) _)).
  intros d _. eexists. reflexivity.
Defined.

(** ** The first and the last loop *)

Section MiddleTurns.
Variable I : World -> Prop.
Variable ok : Event -> Prop.
Hypothesis I_emit : forall e w, ok e -> I w -> I (mkWorld (this w) (log w ++ [e])).
Hypothesis I_update :
  forall f w, pipelineUpdate f -> I w -> I (mkWorld (f (this w)) (log w)).
Hypothesis middle_ok :
  forall pid h d docs, middleHook h = true -> ok (hook_called pid h d docs).

Lemma middle_broadcast (w : World) (p : Plugin.t)
    (docs : option (DocumentNode * DocumentNode)) :
  I w -> In p (plugins (this w)) ->
  ok (hook_called (Plugin.self p) Hook.schemaUpdated None docs).
Proof. intros _ _. apply middle_ok. reflexivity. Qed.

Lemma middle_calls (p : Plugin.t) (docs : option (DocumentNode * DocumentNode)) :
  callsOk ok p docs (fun h => middleHook h = true).
Proof. intros h d Hh. apply middle_ok. exact Hh. Qed.

Ltac middle_step p :=
  first [ eapply keeps_definitionsStep
        | eapply keeps_extensionDefinitionsStep
        | eapply keeps_resolversStep
        | eapply keeps_extensionResolversStep
        | eapply keeps_preProcessPluginUpdateTypes
        | eapply keeps_postProcessPluginUpdateTypes
        | eapply keeps_processPluginDirectiveDefinitions
        | eapply keeps_processPluginDirectiveResolvers ];
  first [ exact I_emit | exact I_update | exact middle_broadcast
        | exact (middle_calls p _) | reflexivity
        | intros new;
          first [ exact (update_merge Type_ new) | exact (update_merge Query new)
                | exact (update_merge Mutation new)
                | exact (update_merge Subscription new)
                | exact (update_merge ExtensionType new)
                | exact (update_merge ExtensionQuery new)
                | exact (update_merge ExtensionMutation new)
                | exact (update_merge ExtensionSubscription new)
                | constructor ] ].

Lemma keeps_preProcessTurn_middle (p : Plugin.t) : keeps I (preProcessTurn p).
Proof.
  unfold preProcessTurn. apply keeps_read_pure. intros r _. middle_step p.
Qed.

Lemma keeps_mainPhaseTurn_middle (p : Plugin.t) : keeps I (mainPhaseTurn p).
Proof.
  unfold mainPhaseTurn. apply keeps_read_pure. intros r _.
  repeat (apply keeps_bind; [|intros _]); middle_step p.
Qed.

Lemma keeps_directiveTurn_middle (p : Plugin.t) : keeps I (directiveTurn p).
Proof.
  unfold directiveTurn. apply keeps_read_pure. intros r _.
  repeat (apply keeps_bind; [|intros _]); middle_step p.
Qed.
End MiddleTurns.

Section Bookends.
Variable w0 : World.

Let initialOk (e : Event) : Prop :=
  isCallOf Hook.setInitialSchema e = true -> documentsOf e = snapshot (this w0).

Let finalOk (docs : option (DocumentNode * DocumentNode)) (e : Event) : Prop :=
  isFinalCall e = true -> documentsOf e = docs.

(** before the last loop: no call of a hook of the last loop yet *)
Let okA (e : Event) : Prop := isFinalCall e = false /\ initialOk e.
Let IA (w : World) : Prop := exists calls, log w = log w0 ++ calls /\ Forall okA calls.

(** in the last loop: the registry stands still *)
Let okB (docs : option (DocumentNode * DocumentNode)) (e : Event) : Prop :=
  initialOk e /\ finalOk docs e.
Let IB (docs : option (DocumentNode * DocumentNode)) (w : World) : Prop :=
  snapshot (this w) = docs /\
  exists calls, log w = log w0 ++ calls /\ Forall (okB docs) calls.

Let Q (w : World) : Prop := exists docs, IB docs w.

Lemma IA_emit (e : Event) (w : World) : okA e -> IA w -> IA (mkWorld (this w) (log w ++ [e])).
Proof.
  intros He [calls [H1 H2]]. exists (calls ++ [e]). simpl. split.
  - rewrite H1. symmetry. apply app_assoc.
  - apply Forall_app. split; [exact H2|]. constructor; [exact He|constructor].
Qed.

Lemma IA_update (f : GQLRegistry -> GQLRegistry) (w : World) :
  pipelineUpdate f -> IA w -> IA (mkWorld (f (this w)) (log w)).
Proof. intros _ H. exact H. Qed.

Lemma okA_middle (pid : nat) (h : Hook.t) (d : option Node)
    (docs : option (DocumentNode * DocumentNode)) :
  middleHook h = true -> okA (hook_called pid h d docs).
Proof.
  unfold middleHook, okA, initialOk, isFinalCall. simpl. intros H.
  apply negb_true_iff in H. apply orb_false_iff in H. destruct H as [H H3].
  apply orb_false_iff in H. destruct H as [H1 H2].
  rewrite H1, H2, H3. split; [reflexivity|discriminate].
Qed.

Lemma IB_emit (docs : option (DocumentNode * DocumentNode)) (e : Event) (w : World) :
  okB docs e -> IB docs w -> IB docs (mkWorld (this w) (log w ++ [e])).
Proof.
  intros He [Hs [calls [H1 H2]]]. split; [exact Hs|]. exists (calls ++ [e]). simpl. split.
  - rewrite H1. symmetry. apply app_assoc.
  - apply Forall_app. split; [exact H2|]. constructor; [exact He|constructor].
Qed.

Lemma IA_IB (w : World) : IA w -> IB (snapshot (this w)) w.
Proof.
  intros [calls [H1 H2]]. split; [reflexivity|]. exists calls. split; [exact H1|].
  eapply Forall_impl; [|exact H2]. intros e [Ha Hb]. split; [exact Hb|].
  intros Hf. congruence.
Qed.

Lemma IA_Q (w : World) : IA w -> Q w.
Proof. intros H. exists (snapshot (this w)). apply IA_IB. exact H. Qed.

Lemma bookends : triple (fun w => w = w0) processPlugins (fun _ => Q) Q.
Proof.
  unfold processPlugins. apply triple_read. intros r.
  apply (triple_pure (r = this w0)); [intros w [H1 H2]; congruence|]. intros Hr. subst r.
  apply (triple_strengthen _ IA).
  2: { intros w [Hw _]. subst w. exists []. split; [symmetry; apply app_nil_r|constructor]. }
  destruct (hasProcessedPlugins (this w0)).
  { apply triple_ret. apply IA_Q. }
  assert (Hrelax : forall (m : M unit), keeps IA m -> triple IA m (fun _ => IA) Q).
  { intros m Hm. eapply triple_weaken; [exact Hm| | |]; auto. apply IA_Q. }
  eapply triple_bind.
  { apply Hrelax. apply keeps_forEach. intros p _.
    eapply keeps_initialNotifyTurn with (hooks := fun h => h = Hook.setInitialSchema);
      [exact IA_emit| |reflexivity].
    intros h d Hh. subst h. split; [reflexivity|]. intros _. reflexivity. }
  intros ?; cbv beta. apply triple_read_pure. intros r1 _. eapply triple_bind.
  { apply Hrelax. apply keeps_forEach. intros p _.
    apply (keeps_preProcessTurn_middle IA okA IA_emit IA_update okA_middle). }
  intros ?; cbv beta. apply triple_read_pure. intros r2 _. eapply triple_bind.
  { apply Hrelax. apply keeps_forEach. intros p _.
    apply (keeps_mainPhaseTurn_middle IA okA IA_emit IA_update okA_middle). }
  intros ?; cbv beta. apply triple_read_pure. intros r3 _. eapply triple_bind.
  { apply Hrelax. apply keeps_forEach. intros p _.
    apply (keeps_directiveTurn_middle IA okA IA_emit IA_update okA_middle). }
  intros ?; cbv beta. apply triple_read. intros r4.
  apply (triple_strengthen _ (IB (snapshot r4))).
  2: { intros w [Hw Hr]. subst r4. apply IA_IB. exact Hw. }
  eapply triple_bind.
  { instantiate (1 := fun _ => IB (snapshot r4)).
    eapply triple_weaken; [| | |intros w Hw; exists (snapshot r4); exact Hw].
    - apply keeps_forEach. intros p _.
      eapply keeps_finalizeTurn
        with (hooks := fun h => h = Hook.validateSchema \/ h = Hook.setFinalSchema);
        [exact (IB_emit (snapshot r4))| |left; reflexivity|right; reflexivity].
      intros h d Hh. split.
      + intros Hi. simpl in Hi. destruct Hh; subst h; discriminate.
      + intros _. reflexivity.
    - auto.
    - auto. }
  intros ?; cbv beta. apply triple_modify. intros w [Hs Hc].
  exists (snapshot r4). split; [|exact Hc]. rewrite <- Hs. reflexivity.
Qed.
End Bookends.

(** X24. The first and the last loop show each plugin one pair of
    documents: of the calls a run of the pipeline makes, however it ends,
    every call of [setInitialSchema] is handed the documents the run
    assembled before its first loop, and every call of [validateSchema] and
    of [setFinalSchema] the documents it assembled, once, before its last
    loop. With hooks that do not call back into the registry the former are
    the documents of the registry as the run found it and the latter those
    of the registry as the run leaves it. *)
Theorem bookend_hooks_see_the_bookend_documents (w : World) :
  exists calls,
    log (snd (processPlugins w)) = log w ++ calls /\
    Forall (fun e => isCallOf Hook.setInitialSchema e = true ->
                     documentsOf e = snapshot (this w)) calls /\
    Forall (fun e => isFinalCall e = true ->
                     documentsOf e = snapshot (this (snd (processPlugins w)))) calls.
Proof.
  pose proof (bookends w w eq_refl) as H.
  assert (Hq : exists docs,
    snapshot (this (snd (processPlugins w))) = docs /\
    exists calls,
      log (snd (processPlugins w)) = log w ++ calls /\
      Forall (fun e =>
                (isCallOf Hook.setInitialSchema e = true ->
                 documentsOf e = snapshot (this w)) /\
                (isFinalCall e = true -> documentsOf e = docs)) calls).
  { destruct (processPlugins w) as [[u|e] w']; exact H. }
  destruct Hq as [docs [Hs [calls [H1 H2]]]]. exists calls. split; [exact H1|].
  rewrite Hs. split; (eapply Forall_impl; [|exact H2]); intros e He; apply He.
Qed.

(** ** What only [clear] drops *)

Lemma names_mergeAll (merges : list (Category * list Node)) (r : GQLRegistry)
    (c : Category) (n : string) :
  In n (names (store c r)) -> In n (names (store c (mergeAll merges r))).
Proof.
  unfold mergeAll. revert r. induction merges as [|[c0 l] merges IH]; intros r H; [exact H|].
  simpl. apply IH. rewrite store_merge. apply names_upsertAll. left. exact H.
Qed.

Lemma assigns_keeps_names (f : GQLRegistry -> GQLRegistry) (r : GQLRegistry)
    (c : Category) (n : string) :
  Assigns f -> In n (names (store c r)) -> In n (names (store c (f r))).
Proof.
  intros Hf H. destruct Hf; try (destruct c; exact H).
  - apply (names_mergeAll [(c0, incoming)]). exact H.
  - unfold registerRemoteSchema. destruct (member _ _); destruct c; exact H.
  - rewrite (proj1 (registerTypeExtension_merges args r)). apply names_mergeAll. exact H.
  - unfold registerPlugin. destruct (find_ _ _); destruct c; exact H.
  - destruct H0; try (destruct c; exact H).
    apply (names_mergeAll [(c0, incoming)]). exact H.
Qed.

(** X25. Only [clear] drops a declaration: a name that is in one of the nine
    sequences is still in it after any registration call other than [clear],
    after the pipeline, however it ends, and, once the setup has run, after
    any of the three builds. (Its declaration may have been replaced by a
    later one of the same name.) *)
Theorem only_clear_drops_a_declaration (w : World) (c : Category) (n : string) :
  In n (names (store c (this w))) ->
  (forall call, call <> call_clear ->
     In n (names (store c (this (snd (perform call w)))))) /\
  In n (names (store c (this (snd (processPlugins w))))) /\
  (hasExecutedPreStart (this w) = true ->
   forall op, In n (names (store c (this (snd (finalize op w)))))).
Proof.
  intros H.
  pose (J := fun r : GQLRegistry => In n (names (store c r))).
  assert (HJ : forall f r, Assigns f -> J r -> J (f r)).
  { intros f r Hf Hr. apply assigns_keeps_names; assumption. }
  split; [|split].
  - intros call Hcall.
    apply (keeps_run _ _ w (Jw_perform_other J HJ call Hcall)). exact H.
  - apply (keeps_run _ _ w (Jw_processPlugins J HJ)). exact H.
  - intros Hflag op.
    pose (J' := fun w' : World => J (this w') /\ hasExecutedPreStart (this w') = true).
    assert (Hk : keeps J' (finalize op)).
    { apply (triple_finalize J') with (R := J').
      - intros v w' [H1 H2]. split; [|exact H2]. unfold J in *. destruct c; exact H1.
      - intros v w' [H1 H2]. split; [|exact H2]. unfold J in *. destruct c; exact H1.
      - intros w' Hw'. rewrite (preStart_done w' (proj2 Hw')). exact Hw'.
      - apply triple_processPlugins with (ok := fun _ => True).
        + auto.
        + intros f w' Hf [H1 H2]. split.
          * apply HJ; [apply assigns_pipeline; exact Hf|exact H1].
          * simpl. rewrite pipelineUpdate_hasExecutedPreStart; assumption.
        + auto.
        + auto.
        + auto.
        + intros w' [H1 H2]. split; [|exact H2]. unfold J in *. destruct c; exact H1.
      - auto. }
    exact (proj1 (keeps_run _ _ w Hk (conj H Hflag))).
Qed.

Lemma only_clear_drops_a_declaration_witness :
  In "Node"
    (names (store Type_
              (this (snd (perform (call_registerType (typesOnly [objectType "Book" ""]))
                            builtWorld))))).
Proof.
  refine (proj1 (only_clear_drops_a_declaration builtWorld Type_ "Node" _) _ _).
  - simpl. left. reflexivity.
  - discriminate.
Defined.
